(** * newq: the job-store adapters, the backoff policy, the queue and the
    worker loop

    A shallow embedding of [core/utils.ts], [core/types.ts], the three
    storage adapters (mongodb, drizzle, redis), [createQueue] and
    [createWorker], with the properties the specification states about them
    and further properties of the code. *)

From Stdlib Require Import ZArith QArith Qpower Lia Lqa.
From stdpp Require Import base option list sorting gmap strings pretty.

Local Open Scope Z_scope.

(** ** core/utils.ts *)

Module Utils.

(** The values a JavaScript [number] takes while [defaultBackoff] runs on
    an integer [attempts]: a finite double, kept as the rational it
    denotes, or [+Infinity].  All finite intermediate values of this
    computation are of the form [125 * 2^k] and are exact as doubles. *)
Inductive number : Type :=
| Fin (q : Q)
| Infinity.

(** [Number.MAX_VALUE], i.e. [(2^53 - 1) * 2^971]. *)
Definition MAX_VALUE : Q := inject_Z ((2 ^ 53 - 1) * 2 ^ 971).

(** [Math.pow(2, e)] for an integer [e]: exact inside the exponent range
    of doubles, [+Infinity] above it, [0] below the smallest subnormal. *)
Definition pow2 (e : Z) : number :=
  if 1023 <? e then Infinity
  else if e <? -1074 then Fin 0
  else Fin (Qpower 2 e).

(** [base * v] for a positive finite [base]. *)
Definition mul (base : Q) (v : number) : number :=
  match v with
  | Infinity => Infinity
  | Fin q => if Qle_bool (base * q) MAX_VALUE then Fin (base * q) else Infinity
  end.

(** [Math.min(a, v)] with [a] finite. *)
Definition Math_min (a : Q) (v : number) : Q :=
  match v with
  | Infinity => a
  | Fin q => if Qle_bool a q then a else q
  end.

(** [Math.max(a, b)] with both finite. *)
Definition Math_max (a b : Q) : Q := if Qle_bool a b then b else a.

(** [clamp = (v, min, max) => Math.max(min, Math.min(max, v))] *)
Definition clamp (v : number) (min max : Q) : Q :=
  Math_max min (Math_min max v).

(** [defaultBackoff = attempts => clamp(base * Math.pow(2, attempts - 1), 0, 60_000)]
    with [base = 1000]. *)
Definition defaultBackoff (attempts : Z) : Q :=
  let base := 1000%Q in
  clamp (mul base (pow2 (attempts - 1))) 0 60000.

(** The closed form of the specification, over the integers. *)
Definition backoff_spec (n : Z) : Z :=
  Z.max 0 (Z.min 60000 (1000 * 2 ^ (n - 1))).

End Utils.

(** [clamp] on any number.  [Math.min] and [Math.max] return one of their
    arguments, or [NaN] when one of them is [NaN]; nothing is rounded, so a
    finite double is again kept as the rational it denotes (the two zeros
    are one number here).  [Utils.clamp] above is this function on the
    values [defaultBackoff] passes to it. *)
Module Number.
Inductive t : Type :=
| Finite (q : Q)
| PosInfinity
| NegInfinity
| NaN.

(** [a <= b] in JavaScript: false as soon as one side is [NaN]. *)
Definition le (a b : t) : Prop :=
  match a, b with
  | NaN, _ => False
  | _, NaN => False
  | NegInfinity, _ => True
  | _, PosInfinity => True
  | Finite p, Finite q => (p <= q)%Q
  | Finite _, NegInfinity => False
  | PosInfinity, Finite _ => False
  | PosInfinity, NegInfinity => False
  end.

(** The same number (two rationals that are equal as fractions). *)
Definition same (a b : t) : Prop :=
  match a, b with
  | Finite p, Finite q => (p == q)%Q
  | PosInfinity, PosInfinity => True
  | NegInfinity, NegInfinity => True
  | NaN, NaN => True
  | _, _ => False
  end.

Definition Math_min (a b : t) : t :=
  match a, b with
  | NaN, _ => NaN
  | _, NaN => NaN
  | NegInfinity, _ => NegInfinity
  | _, NegInfinity => NegInfinity
  | PosInfinity, _ => b
  | _, PosInfinity => a
  | Finite p, Finite q => if Qle_bool p q then Finite p else Finite q
  end.

Definition Math_max (a b : t) : t :=
  match a, b with
  | NaN, _ => NaN
  | _, NaN => NaN
  | PosInfinity, _ => PosInfinity
  | _, PosInfinity => PosInfinity
  | NegInfinity, _ => b
  | _, NegInfinity => a
  | Finite p, Finite q => if Qle_bool p q then Finite q else Finite p
  end.

(** [clamp = (v, min, max) => Math.max(min, Math.min(max, v))] *)
Definition clamp (v min max : t) : t := Math_max min (Math_min max v).

(** The values of [Utils.number] among the numbers. *)
Definition of_number (v : Utils.number) : t :=
  match v with
  | Utils.Fin q => Finite q
  | Utils.Infinity => PosInfinity
  end.
End Number.

(** ** core/types.ts *)

Inductive JobStatus : Type :=
| pending | processing | completed | failed | expired.

Global Instance JobStatus_eq_dec : EqDecision JobStatus.
Proof. solve_decision. Defined.

Module Job.
(** [Job<T>]; [payload] and [meta] are kept in their serialized (JSON
    text) form, which is also how the three backends store them. *)
Record t : Type := mk {
  id : string;
  queue : string;
  payload : string;
  attempts : Z;
  maxAttempts : Z;
  visibleAt : Z;
  lockedUntil : Z;
  createdAt : Z;
  updatedAt : Z;
  status : JobStatus;
  meta : option string
}.
End Job.

Module JobLog.
Record t : Type := mk {
  id : string;
  jobId : string;
  queue : string;
  event : string;
  data : option string;
  createdAt : Z
}.
End JobLog.

Module NackOptions.
Record t : Type := mk {
  requeue : option bool;
  delayMs : option Z
}.
End NackOptions.

Module EnqueueOptions.
Record t : Type := mk {
  jobId : option string;
  delayMs : option Z;
  maxAttempts : option Z;
  meta : option string
}.
End EnqueueOptions.

Module QueueStats.
(** [QueueStats], and the key [expired]: it is outside the declared type,
    and the object the drizzle adapter builds gets it when a row of the
    table has this status. *)
Record t : Type := mk {
  queue : string;
  pending : Z;
  processing : Z;
  completed : Z;
  failed : Z;
  expired : option Z
}.
End QueueStats.

(** ** What the adapters share *)

(** The payload of a partial update of a job ([$set] in mongodb, [.set] in
    drizzle, [hSet] in redis): the fields it lists, with their new values. *)
Module Patch.
Record t : Type := mk {
  status : option JobStatus;
  lockedUntil : option Z;
  visibleAt : option Z;
  updatedAt : option Z;
  attempts : option Z
}.

Definition apply (p : t) (j : Job.t) : Job.t :=
  {| Job.id := Job.id j;
     Job.queue := Job.queue j;
     Job.payload := Job.payload j;
     Job.attempts := default (Job.attempts j) (attempts p);
     Job.maxAttempts := Job.maxAttempts j;
     Job.visibleAt := default (Job.visibleAt j) (visibleAt p);
     Job.lockedUntil := default (Job.lockedUntil j) (lockedUntil p);
     Job.createdAt := Job.createdAt j;
     Job.updatedAt := default (Job.updatedAt j) (updatedAt p);
     Job.status := default (Job.status j) (status p);
     Job.meta := Job.meta j |}.

(** Writing [p] over the fields [q] already holds. *)
Definition over (p q : t) : t :=
  {| status := from_option Some (status q) (status p);
     lockedUntil := from_option Some (lockedUntil q) (lockedUntil p);
     visibleAt := from_option Some (visibleAt q) (visibleAt p);
     updatedAt := from_option Some (updatedAt q) (updatedAt p);
     attempts := from_option Some (attempts q) (attempts p) |}.

(** [{ status: "processing", lockedUntil, updatedAt: currentTime }] *)
Definition claim (lockUntil currentTime : Z) : t :=
  {| status := Some processing; lockedUntil := Some lockUntil;
     visibleAt := None; updatedAt := Some currentTime; attempts := None |}.

(** [{ status: "completed", updatedAt: currentTime }] *)
Definition complete (currentTime : Z) : t :=
  {| status := Some completed; lockedUntil := None;
     visibleAt := None; updatedAt := Some currentTime; attempts := None |}.

(** [{ status: "failed", updatedAt: currentTime }] *)
Definition fail (currentTime : Z) : t :=
  {| status := Some failed; lockedUntil := None;
     visibleAt := None; updatedAt := Some currentTime; attempts := None |}.

(** [{ status: "pending", lockedUntil: 0, visibleAt, updatedAt: currentTime }] *)
Definition requeue (visibleAt' currentTime : Z) : t :=
  {| status := Some pending; lockedUntil := Some 0;
     visibleAt := Some visibleAt'; updatedAt := Some currentTime;
     attempts := None |}.
End Patch.

(** [$inc: { attempts: 1 }] and [attempts: sql`attempts + 1`]. *)
Definition incAttempts (j : Job.t) : Job.t :=
  Patch.apply {| Patch.status := None; Patch.lockedUntil := None;
                 Patch.visibleAt := None; Patch.updatedAt := None;
                 Patch.attempts := Some (Job.attempts j + 1) |} j.

(** [opts?.delayMs ? currentTime + opts.delayMs : currentTime]: an absent
    delay and a delay of [0] are both falsy. *)
Definition delayed (currentTime : Z) (delayMs : option Z) : Z :=
  match delayMs with
  | Some d => if decide (d = 0) then currentTime else currentTime + d
  | None => currentTime
  end.

(** [opts?.requeue !== false] *)
Definition wantsRequeue (opts : option NackOptions.t) : bool :=
  match opts with
  | Some o => match NackOptions.requeue o with Some false => false | _ => true end
  | None => true
  end.

Definition nackDelay (opts : option NackOptions.t) : option Z :=
  opts ≫= NackOptions.delayMs.

(** [opts?.jobId || genId()]: an empty id is falsy. *)
Definition chooseId (opts : option EnqueueOptions.t) (generated : string) : string :=
  match opts ≫= EnqueueOptions.jobId with
  | Some s => if decide (s = EmptyString) then generated else s
  | None => generated
  end.

(** The job [enqueue] builds; [visibleNow] and [currentTime] are the two
    successive readings of [now()]. *)
Definition newJob (queue payload : string) (opts : option EnqueueOptions.t)
    (generated : string) (visibleNow currentTime : Z) : Job.t :=
  {| Job.id := chooseId opts generated;
     Job.queue := queue;
     Job.payload := payload;
     Job.attempts := 0;
     Job.maxAttempts := default 3 (opts ≫= EnqueueOptions.maxAttempts);
     Job.visibleAt := delayed visibleNow (opts ≫= EnqueueOptions.delayMs);
     Job.lockedUntil := 0;
     Job.createdAt := currentTime;
     Job.updatedAt := currentTime;
     Job.status := pending;
     Job.meta := opts ≫= EnqueueOptions.meta |}.

(** The condition [{ _id: jobId }] of mongodb and [eq(jobs.id, jobId)] of
    drizzle. *)
Definition hasId (jobId : string) (d : Job.t) : Prop := Job.id d = jobId.

Global Instance hasId_dec jobId d : Decision (hasId jobId d).
Proof. unfold hasId. apply _. Defined.
Global Typeclasses Opaque hasId.

(** Sort keys: [createdAt] ascending on jobs, descending on log entries. *)
Definition createdAt_asc (a b : Job.t) : Prop := Job.createdAt a ≤ Job.createdAt b.
Definition createdAt_desc (a b : JobLog.t) : Prop := JobLog.createdAt b ≤ JobLog.createdAt a.

Global Instance createdAt_asc_dec a b : Decision (createdAt_asc a b).
Proof. unfold createdAt_asc. apply _. Defined.
Global Instance createdAt_desc_dec a b : Decision (createdAt_desc a b).
Proof. unfold createdAt_desc. apply _. Defined.
Global Typeclasses Opaque createdAt_asc createdAt_desc.

(** The jobs [stats] counts: [queue ? { queue } : {}] in mongodb and
    [if (queue) query.where(eq(jobs.queue, queue))] in drizzle; an absent
    and an empty queue name are both falsy. *)
Definition inQueue (queue : option string) (d : Job.t) : Prop :=
  match queue with
  | Some q => if decide (q = EmptyString) then True else Job.queue d = q
  | None => True
  end.

Global Instance inQueue_dec queue d : Decision (inQueue queue d).
Proof.
  unfold inQueue. destruct queue as [q|]; [destruct (decide (q = EmptyString))|]; apply _.
Defined.
Global Typeclasses Opaque inQueue.

(** The grouping key of [stats]: queue and status. *)
Definition statsKey (d : Job.t) : string * JobStatus := (Job.queue d, Job.status d).

(** ** adapters/mongodb.ts *)

Module Mongodb.

(** The two collections, each in its natural (insertion) order. *)
Record Db : Type := mkDb {
  jobsCollection : list Job.t;
  logsCollection : list JobLog.t
}.

(** Collection primitives of the driver, on a filter [P]. *)
Section Collection.
Context {A : Type} (P : A → Prop) `{!∀ x, Decision (P x)}.

(** [findOne(filter)]: the first match. *)
Definition findOne (c : list A) : option A := head (filter P c).

(** [findOne(filter, { sort })]: the first match in sort order. *)
Definition findOneSorted (R : A → A → Prop) `{!∀ x y, Decision (R x y)}
    (c : list A) : option A :=
  head (merge_sort R (filter P c)).

(** [find(filter).sort(sort).toArray()] *)
Definition findSorted (R : A → A → Prop) `{!∀ x y, Decision (R x y)}
    (c : list A) : list A :=
  merge_sort R (filter P c).

(** [updateOne(filter, update)]: the first match is updated. *)
Fixpoint updateOne (f : A → A) (c : list A) : list A :=
  match c with
  | [] => []
  | d :: c' => if decide (P d) then f d :: c' else d :: updateOne f c'
  end.

(** [deleteOne(filter)]: the first match is removed. *)
Fixpoint deleteOne (c : list A) : list A :=
  match c with
  | [] => []
  | d :: c' => if decide (P d) then c' else d :: deleteOne c'
  end.

(** [findOneAndUpdate(filter, update, { returnDocument: "after" })] *)
Definition findOneAndUpdate (f : A → A) (c : list A) : option A * list A :=
  (f <$> findOne c, updateOne f c).
End Collection.

(** [{ queue, status: "pending", visibleAt: { $lte: currentTime },
       lockedUntil: { $lt: currentTime } }] *)
Definition candidateFilter (queue : string) (currentTime : Z) (d : Job.t) : Prop :=
  Job.queue d = queue ∧ Job.status d = pending ∧
  Job.visibleAt d ≤ currentTime ∧ Job.lockedUntil d < currentTime.

(** [{ _id: candidate._id, status: "pending", lockedUntil: { $lt: currentTime } }] *)
Definition claimFilter (jobId : string) (currentTime : Z) (d : Job.t) : Prop :=
  Job.id d = jobId ∧ Job.status d = pending ∧ Job.lockedUntil d < currentTime.

Global Instance candidateFilter_dec q t d : Decision (candidateFilter q t d).
Proof. unfold candidateFilter. apply _. Defined.
Global Instance claimFilter_dec i t d : Decision (claimFilter i t d).
Proof. unfold claimFilter. apply _. Defined.
Global Typeclasses Opaque candidateFilter claimFilter.

(** [enqueue]; [insertOne] rejects a duplicate [_id] (the call throws and
    nothing is stored), which is [None] here. *)
Definition enqueue (generated : string) (visibleNow currentTime : Z)
    (queue payload : string) (opts : option EnqueueOptions.t) (db : Db)
    : option (Job.t * Db) :=
  let jobDoc := newJob queue payload opts generated visibleNow currentTime in
  match findOne (hasId (Job.id jobDoc)) (jobsCollection db) with
  | Some _ => None
  | None => Some (jobDoc, mkDb (jobsCollection db ++ [jobDoc]) (logsCollection db))
  end.

(** The body of [for (let i = 0; i < limit; i++)]; [i] counts the
    iterations that remain. *)
Fixpoint dequeueLoop (queue : string) (currentTime newLockedUntil : Z)
    (i : nat) (c : list Job.t) (jobs : list Job.t) : list Job.t * list Job.t :=
  match i with
  | O => (jobs, c)
  | S i' =>
    match findOneSorted (candidateFilter queue currentTime) createdAt_asc c with
    | None => (jobs, c)
    | Some candidate =>
      if decide (Job.maxAttempts candidate ≤ Job.attempts candidate) then
        dequeueLoop queue currentTime newLockedUntil i'
          (updateOne (hasId (Job.id candidate))
             (Patch.apply (Patch.fail currentTime)) c)
          jobs
      else
        match findOneAndUpdate (claimFilter (Job.id candidate) currentTime)
                (λ d, incAttempts (Patch.apply (Patch.claim newLockedUntil currentTime) d))
                c with
        | (None, c') => dequeueLoop queue currentTime newLockedUntil i' c' jobs
        | (Some job, c') =>
          dequeueLoop queue currentTime newLockedUntil i' c' (jobs ++ [job])
        end
    end
  end.

Definition dequeue (currentTime : Z) (queue : string) (limit : nat)
    (visibilityTimeoutMs : Z) (db : Db) : list Job.t * Db :=
  let newLockedUntil := currentTime + visibilityTimeoutMs in
  let '(jobs, c) :=
    dequeueLoop queue currentTime newLockedUntil limit (jobsCollection db) [] in
  (jobs, mkDb c (logsCollection db)).

Definition ack (currentTime : Z) (jobId : string) (deleteAfterAck : bool)
    (db : Db) : Db :=
  if deleteAfterAck then
    mkDb (deleteOne (hasId jobId) (jobsCollection db)) (logsCollection db)
  else
    mkDb (updateOne (hasId jobId) (Patch.apply (Patch.complete currentTime))
            (jobsCollection db))
         (logsCollection db).

Definition nack (currentTime : Z) (jobId : string)
    (opts : option NackOptions.t) (db : Db) : Db :=
  if wantsRequeue opts then
    let visibleAt := delayed currentTime (nackDelay opts) in
    mkDb (updateOne (hasId jobId)
            (Patch.apply (Patch.requeue visibleAt currentTime))
            (jobsCollection db))
         (logsCollection db)
  else
    mkDb (updateOne (hasId jobId) (Patch.apply (Patch.fail currentTime))
            (jobsCollection db))
         (logsCollection db).

Definition getJob (jobId : string) (db : Db) : option Job.t :=
  findOne (hasId jobId) (jobsCollection db).

Definition logEvent (currentTime : Z) (logId jobId event : string)
    (data : option string) (db : Db) : Db :=
  match findOne (hasId jobId) (jobsCollection db) with
  | None => db
  | Some job =>
    mkDb (jobsCollection db)
         (logsCollection db ++
          [ {| JobLog.id := logId; JobLog.jobId := jobId;
               JobLog.queue := Job.queue job; JobLog.event := event;
               JobLog.data := data; JobLog.createdAt := currentTime |} ])
  end.

Definition getLogs (jobId : string) (db : Db) : list JobLog.t :=
  findSorted (λ l, JobLog.jobId l = jobId) createdAt_desc (logsCollection db).

(** A [$group] stage: the values of [key], each with the documents that
    have it, in order of first occurrence (the server promises no order). *)
Definition group {A K : Type} `{EqDecision K} (key : A → K) (docs : list A)
    : list (K * list A) :=
  (λ k, (k, filter (λ d, key d = k) docs)) <$> remove_dups (key <$> docs).

(** [$sum] *)
Definition sum (values : list Z) : Z := foldr Z.add 0 values.

(** [stats]: the pipeline [$match], [$group] by queue and status with a
    count, [$group] by queue with one conditional sum for each status, and
    the projection. *)
Definition stats (queue : option string) (db : Db) : list QueueStats.t :=
  let matched := filter (inQueue queue) (jobsCollection db) in
  let counted :=
    (λ g, (g.1, Z.of_nat (length g.2))) <$> group statsKey matched in
  (λ g,
     let sumIf (status : JobStatus) :=
       sum ((λ r : string * JobStatus * Z,
               if decide (r.1.2 = status) then r.2 else 0) <$> g.2) in
     {| QueueStats.queue := g.1;
        QueueStats.pending := sumIf pending;
        QueueStats.processing := sumIf processing;
        QueueStats.completed := sumIf completed;
        QueueStats.failed := sumIf failed;
        QueueStats.expired := None |})
  <$> group (λ r : string * JobStatus * Z, r.1.1) counted.

End Mongodb.

(** ** The drizzle adapter (second half of [unnamed/part_000]) *)

Module Drizzle.

(** The two tables, each as its rows in storage order; a [select] without
    [orderBy] returns rows in that order. *)
Record Db : Type := mkDb {
  jobs : list Job.t;
  jobLogs : list JobLog.t
}.

(** Query primitives, on a [where] condition [P]. *)
Section Table.
Context {A : Type} (P : A → Prop) `{!∀ x, Decision (P x)}.

Definition select (t : list A) : list A := filter P t.

Definition update (f : A → A) (t : list A) : list A :=
  (λ r, if decide (P r) then f r else r) <$> t.

Definition delete (t : list A) : list A := filter (λ r, ¬ P r) t.
End Table.

Definition orderBy {A : Type} (R : A → A → Prop) `{!∀ x y, Decision (R x y)}
    (rows : list A) : list A :=
  merge_sort R rows.

Definition limit {A : Type} (n : nat) (rows : list A) : list A := take n rows.

(** [inArray(jobs.id, jobIds)] *)
Definition inArray (jobIds : list string) (r : Job.t) : Prop := Job.id r ∈ jobIds.

(** The [where] of the first [select] of [dequeue]. *)
Definition available (queue : string) (currentTime : Z) (r : Job.t) : Prop :=
  Job.queue r = queue ∧ Job.status r = pending ∧
  Job.visibleAt r < currentTime ∧ Job.lockedUntil r < currentTime ∧
  Job.attempts r < Job.maxAttempts r.

(** The order of the rows of a [select] on [inArray(jobs.id, jobIds)] that
    has no [orderBy]: the engine (libsql) looks the ids up in the index of
    the primary key in ascending order, so the rows come in the order of
    their ids, compared byte by byte, whatever their order in the table
    or in [jobIds]. *)
Definition id_asc (a b : Job.t) : Prop := String.le (Job.id a) (Job.id b).

Global Instance id_asc_dec a b : Decision (id_asc a b).
Proof. unfold id_asc. apply _. Defined.
Global Typeclasses Opaque id_asc.

Definition byPrimaryKey (rows : list Job.t) : list Job.t :=
  merge_sort id_asc rows.

Global Instance inArray_dec jobIds r : Decision (inArray jobIds r).
Proof. unfold inArray. apply _. Defined.
Global Instance available_dec q t r : Decision (available q t r).
Proof. unfold available. apply _. Defined.
Global Typeclasses Opaque inArray available.

(** [enqueue]; the insert of a second row with the same primary key is
    rejected (the call throws), which is [None] here. *)
Definition enqueue (generated : string) (visibleNow currentTime : Z)
    (queue payload : string) (opts : option EnqueueOptions.t) (db : Db)
    : option (Job.t * Db) :=
  let jobData := newJob queue payload opts generated visibleNow currentTime in
  match select (hasId (Job.id jobData)) (jobs db) with
  | _ :: _ => None
  | [] => Some (jobData, mkDb (jobs db ++ [jobData]) (jobLogs db))
  end.

Definition dequeue (currentTime : Z) (queue : string) (limit' : nat)
    (visibilityTimeoutMs : Z) (db : Db) : list Job.t * Db :=
  let availableJobs :=
    limit limit'
      (orderBy createdAt_asc (select (available queue currentTime) (jobs db))) in
  match availableJobs with
  | [] => ([], db)
  | _ :: _ =>
    let jobIds := Job.id <$> availableJobs in
    let newLockedUntil := currentTime + visibilityTimeoutMs in
    let jobs' :=
      update (inArray jobIds)
        (λ r, incAttempts (Patch.apply (Patch.claim newLockedUntil currentTime) r))
        (jobs db) in
    (byPrimaryKey (select (inArray jobIds) jobs'), mkDb jobs' (jobLogs db))
  end.

Definition ack (currentTime : Z) (jobId : string) (deleteAfterAck : bool)
    (db : Db) : Db :=
  if deleteAfterAck then
    mkDb (delete (hasId jobId) (jobs db)) (jobLogs db)
  else
    mkDb (update (hasId jobId) (Patch.apply (Patch.complete currentTime)) (jobs db))
         (jobLogs db).

Definition nack (currentTime : Z) (jobId : string)
    (opts : option NackOptions.t) (db : Db) : Db :=
  if wantsRequeue opts then
    let visibleAt := delayed currentTime (nackDelay opts) in
    mkDb (update (hasId jobId) (Patch.apply (Patch.requeue visibleAt currentTime))
            (jobs db))
         (jobLogs db)
  else
    mkDb (update (hasId jobId) (Patch.apply (Patch.fail currentTime)) (jobs db))
         (jobLogs db).

Definition getJob (jobId : string) (db : Db) : option Job.t :=
  head (limit 1 (select (hasId jobId) (jobs db))).

Definition logEvent (currentTime : Z) (logId jobId event : string)
    (data : option string) (db : Db) : Db :=
  match head (limit 1 (select (hasId jobId) (jobs db))) with
  | None => db
  | Some job =>
    mkDb (jobs db)
         (jobLogs db ++
          [ {| JobLog.id := logId; JobLog.jobId := jobId;
               JobLog.queue := Job.queue job; JobLog.event := event;
               JobLog.data := data; JobLog.createdAt := currentTime |} ])
  end.

Definition getLogs (jobId : string) (db : Db) : list JobLog.t :=
  orderBy createdAt_desc (select (λ l, JobLog.jobId l = jobId) (jobLogs db)).

(** [statsMap.get(key)] and [statsMap.set(key, value)]: a [Map] keeps the
    position of a key that is set again. *)
Definition statsMap_get (key : string) (statsMap : list (string * QueueStats.t))
    : option QueueStats.t :=
  snd <$> head (filter (λ e, e.1 = key) statsMap).

Fixpoint statsMap_set (key : string) (value : QueueStats.t)
    (statsMap : list (string * QueueStats.t)) : list (string * QueueStats.t) :=
  match statsMap with
  | [] => [(key, value)]
  | (k, v) :: rest =>
    if decide (k = key) then (k, value) :: rest
    else (k, v) :: statsMap_set key value rest
  end.

(** [stats[row.status] = row.count] *)
Definition setStatus (status : JobStatus) (count : Z) (stats : QueueStats.t)
    : QueueStats.t :=
  let '(QueueStats.mk q p r c f e) := stats in
  match status with
  | pending => QueueStats.mk q count r c f e
  | processing => QueueStats.mk q p count c f e
  | completed => QueueStats.mk q p r count f e
  | failed => QueueStats.mk q p r c count e
  | expired => QueueStats.mk q p r c f (Some count)
  end.

(** [stats]: the rows of the query that groups by queue and status and
    counts (in order of first occurrence; SQL promises no order), folded
    into one object for each queue. *)
Definition stats (queue : option string) (db : Db) : list QueueStats.t :=
  let rows := select (inQueue queue) (jobs db) in
  let result :=
    (λ k, (k, Z.of_nat (length (select (λ r, statsKey r = k) rows))))
    <$> remove_dups (statsKey <$> rows) in
  (foldl (λ statsMap (row : string * JobStatus * Z),
            let stats :=
              default (QueueStats.mk row.1.1 0 0 0 0 None)
                      (statsMap_get row.1.1 statsMap) in
            statsMap_set row.1.1 (setStatus row.1.2 row.2 stats) statsMap)
         [] result).*2.

End Drizzle.

(** ** The redis adapter (first half of [unnamed/part_000]) *)

Module Redis.

(** The hash stored under [job:<jobId>].  A hash that has an [id] field was
    written by [enqueue] with every field of the job, and later writes only
    replace some of them; a hash without [id] holds just the fields that
    were written to a key that did not exist. *)
Inductive Hash : Type :=
| JobHash (jobData : Job.t)
| Fields (written : Patch.t).

(** The key space: hashes [job:<jobId>], sorted sets
    [queue:pending:<queue>] and [queue:processing:<queue>] (member to
    score), and lists [job:logs:<jobId>]; each map is indexed by the
    variable part of the key.  The four maps are four views of one key
    space, and they are independent of each other only while no job id
    has the form [logs:<x>]: for such an id the key [job:<jobId>] of its
    hash is the key of the log list of [<x>].  The store is given as these
    views for ids that are not of this form ([plainId] below). *)
Record Db : Type := mkDb {
  hashes : gmap string Hash;
  pendingSets : gmap string (gmap string Z);
  processingSets : gmap string (gmap string Z);
  logLists : gmap string (list JobLog.t)
}.

(** [hGetAll(key)]: [None] is the empty object of a missing key. *)
Definition hGetAll (key : string) (h : gmap string Hash) : option Hash := h !! key.

(** [hSet(key, fields)] *)
Definition hSet (key : string) (fields : Patch.t) (h : gmap string Hash)
    : gmap string Hash :=
  match h !! key with
  | Some (JobHash jobData) => <[key := JobHash (Patch.apply fields jobData)]> h
  | Some (Fields written) => <[key := Fields (Patch.over fields written)]> h
  | None => <[key := Fields fields]> h
  end.

(** [del(key)] *)
Definition del (key : string) (h : gmap string Hash) : gmap string Hash :=
  delete key h.

(** [zAdd(key, { score, value })] *)
Definition zAdd (key : string) (score : Z) (value : string)
    (sets : gmap string (gmap string Z)) : gmap string (gmap string Z) :=
  <[key := <[value := score]> (default ∅ (sets !! key))]> sets.

(** [zRem(key, member)] *)
Definition zRem (key member : string)
    (sets : gmap string (gmap string Z)) : gmap string (gmap string Z) :=
  alter (delete member) key sets.

(** The order of a sorted set: by score, then by member. *)
Definition zle (a b : string * Z) : Prop :=
  a.2 < b.2 ∨ (a.2 = b.2 ∧ String.le a.1 b.1).

Global Instance zle_dec a b : Decision (zle a b).
Proof. unfold zle. apply _. Defined.
Global Typeclasses Opaque zle.

(** [zRangeByScore(key, min, max, { LIMIT: { offset: 0, count } })] *)
Definition zRangeByScore (key : string) (min max : Z) (count : nat)
    (sets : gmap string (gmap string Z)) : list string :=
  (take count
     (merge_sort zle
        (filter (λ e, min ≤ e.2 ≤ max)
           (map_to_list (default ∅ (sets !! key)))))).*1.

(** [rPush(key, entry)] and [lRange(key, 0, -1)] *)
Definition rPush (key : string) (entry : JobLog.t)
    (lists : gmap string (list JobLog.t)) : gmap string (list JobLog.t) :=
  <[key := default [] (lists !! key) ++ [entry]]> lists.

Definition lRange (key : string) (lists : gmap string (list JobLog.t))
    : list JobLog.t :=
  default [] (lists !! key).

(** [enqueue].  Without a [meta] option the field [meta] of [jobData] is
    [null], a value [hSet] refuses: the call throws before anything is
    written, which is [None] here. *)
Definition enqueue (generated : string) (visibleNow currentTime : Z)
    (queue payload : string) (opts : option EnqueueOptions.t) (db : Db)
    : option (Job.t * Db) :=
  let jobData := newJob queue payload opts generated visibleNow currentTime in
  let jobId := Job.id jobData in
  match Job.meta jobData with
  | None => None
  | Some _ =>
    Some (jobData,
          mkDb (<[jobId := JobHash jobData]> (hashes db))
               (zAdd queue (Job.visibleAt jobData) jobId (pendingSets db))
               (processingSets db)
               (logLists db))
  end.

(** The body of [for (const jobId of candidates)]. *)
Fixpoint dequeueLoop (queue : string) (currentTime lockUntil : Z) (limit : nat)
    (candidates : list string) (db : Db) (dequeued : list Job.t)
    : list Job.t * Db :=
  match candidates with
  | [] => (dequeued, db)
  | jobId :: rest =>
    if decide (limit ≤ length dequeued)%nat then (dequeued, db)
    else
      match hGetAll jobId (hashes db) with
      | Some (JobHash jobData) =>
        let attempts := Job.attempts jobData in
        let maxAttempts := Job.maxAttempts jobData in
        let lockedUntil := Job.lockedUntil jobData in
        if decide (maxAttempts ≤ attempts ∨ currentTime ≤ lockedUntil) then
          dequeueLoop queue currentTime lockUntil limit rest db dequeued
        else
          let db' :=
            mkDb (hSet jobId
                    {| Patch.status := Some processing;
                       Patch.lockedUntil := Some lockUntil;
                       Patch.visibleAt := None;
                       Patch.updatedAt := Some currentTime;
                       Patch.attempts := Some (attempts + 1) |}
                    (hashes db))
                 (zRem queue jobId (pendingSets db))
                 (zAdd queue lockUntil jobId (processingSets db))
                 (logLists db) in
          dequeueLoop queue currentTime lockUntil limit rest db'
            (dequeued ++
             [ {| Job.id := jobId;
                  Job.queue := queue;
                  Job.payload := Job.payload jobData;
                  Job.attempts := attempts + 1;
                  Job.maxAttempts := maxAttempts;
                  Job.visibleAt := Job.visibleAt jobData;
                  Job.lockedUntil := lockUntil;
                  Job.createdAt := Job.createdAt jobData;
                  Job.updatedAt := currentTime;
                  Job.status := processing;
                  Job.meta := Job.meta jobData |} ])
      | _ => dequeueLoop queue currentTime lockUntil limit rest db dequeued
      end
  end.

Definition dequeue (currentTime : Z) (queue : string) (limit : nat)
    (visibilityTimeoutMs : Z) (db : Db) : list Job.t * Db :=
  let lockUntil := currentTime + visibilityTimeoutMs in
  let candidates :=
    zRangeByScore queue 0 currentTime (limit * 2) (pendingSets db) in
  dequeueLoop queue currentTime lockUntil limit candidates db [].

Definition ack (currentTime : Z) (jobId : string) (deleteAfterAck : bool)
    (db : Db) : Db :=
  if deleteAfterAck then
    (* the hash is read after it was deleted *)
    let hashes' := del jobId (hashes db) in
    match hGetAll jobId hashes' with
    | Some (JobHash jobData) =>
      mkDb hashes' (pendingSets db)
           (zRem (Job.queue jobData) jobId (processingSets db)) (logLists db)
    | _ => mkDb hashes' (pendingSets db) (processingSets db) (logLists db)
    end
  else
    mkDb (hSet jobId (Patch.complete currentTime) (hashes db))
         (pendingSets db) (processingSets db) (logLists db).

Definition nack (currentTime : Z) (jobId : string)
    (opts : option NackOptions.t) (db : Db) : Db :=
  match hGetAll jobId (hashes db) with
  | Some (JobHash jobData) =>
    let queue := Job.queue jobData in
    if wantsRequeue opts then
      let visibleAt := delayed currentTime (nackDelay opts) in
      mkDb (hSet jobId (Patch.requeue visibleAt currentTime) (hashes db))
           (zAdd queue visibleAt jobId (pendingSets db))
           (zRem queue jobId (processingSets db))
           (logLists db)
    else
      mkDb (hSet jobId (Patch.fail currentTime) (hashes db))
           (pendingSets db)
           (zRem queue jobId (processingSets db))
           (logLists db)
  | _ => db
  end.

Definition getJob (jobId : string) (db : Db) : option Job.t :=
  match hGetAll jobId (hashes db) with
  | Some (JobHash jobData) =>
    Some {| Job.id := jobId;
            Job.queue := Job.queue jobData;
            Job.payload := Job.payload jobData;
            Job.attempts := Job.attempts jobData;
            Job.maxAttempts := Job.maxAttempts jobData;
            Job.visibleAt := Job.visibleAt jobData;
            Job.lockedUntil := Job.lockedUntil jobData;
            Job.createdAt := Job.createdAt jobData;
            Job.updatedAt := Job.updatedAt jobData;
            Job.status := Job.status jobData;
            Job.meta := Job.meta jobData |}
  | _ => None
  end.

Definition logEvent (currentTime : Z) (logId jobId event : string)
    (data : option string) (db : Db) : Db :=
  match hGetAll jobId (hashes db) with
  | Some (JobHash jobData) =>
    let logEntry :=
      {| JobLog.id := logId; JobLog.jobId := jobId;
         JobLog.queue := Job.queue jobData; JobLog.event := event;
         JobLog.data := data; JobLog.createdAt := currentTime |} in
    mkDb (hashes db) (pendingSets db) (processingSets db)
         (rPush jobId logEntry (logLists db))
  | _ => db
  end.

Definition getLogs (jobId : string) (db : Db) : list JobLog.t :=
  lRange jobId (logLists db).

(** [stats]: not implemented, the empty array. *)
Definition stats (queue : option string) (db : Db) : list QueueStats.t := [].

End Redis.

(** ** The [Adapter] interface of core/types.ts *)

(** Every method takes what it reads from outside as arguments: the value
    [now()] returns during the call and, where it generates one, the fresh
    id.  A call that throws is [None]. *)
Module Adapter.
Record t (S : Type) : Type := mk {
  enqueue : string → Z → Z → string → string → option EnqueueOptions.t →
            S → option (Job.t * S);
  dequeue : Z → string → nat → Z → S → list Job.t * S;
  ack : Z → string → bool → S → S;
  nack : Z → string → option NackOptions.t → S → S;
  getJob : string → S → option Job.t;
  logEvent : Z → string → string → string → option string → S → S;
  getLogs : string → S → list JobLog.t
}.
Global Arguments mk {S}.
Global Arguments enqueue {S}.
Global Arguments dequeue {S}.
Global Arguments ack {S}.
Global Arguments nack {S}.
Global Arguments getJob {S}.
Global Arguments logEvent {S}.
Global Arguments getLogs {S}.
End Adapter.

Definition mongodbAdapter : Adapter.t Mongodb.Db :=
  Adapter.mk Mongodb.enqueue Mongodb.dequeue Mongodb.ack Mongodb.nack
             Mongodb.getJob Mongodb.logEvent Mongodb.getLogs.

Definition drizzleAdapter : Adapter.t Drizzle.Db :=
  Adapter.mk Drizzle.enqueue Drizzle.dequeue Drizzle.ack Drizzle.nack
             Drizzle.getJob Drizzle.logEvent Drizzle.getLogs.

Definition redisAdapter : Adapter.t Redis.Db :=
  Adapter.mk Redis.enqueue Redis.dequeue Redis.ack Redis.nack
             Redis.getJob Redis.logEvent Redis.getLogs.

(** ** [createWorker] ([unnamed/part_003]) *)

Module Worker.

(** What a handler does with its context: the calls it awaits, in order,
    and whether it then returns or throws. *)
Inductive CtxCall : Type :=
| CallAck
| CallNack (opts : option NackOptions.t)
| CallRetry (delayMs : option Z)
| CallLog (event : string) (data : option string).

Inductive Outcome : Type := Returns | Throws.

Definition QueueHandler : Type := Job.t → list CtxCall * Outcome.

(** The calls that leave the worker: adapter methods and the [logger]
    sink. *)
Inductive Action : Type :=
| Ack (jobId : string)
| Nack (jobId : string) (opts : option NackOptions.t)
| LogEvent (jobId event : string) (data : option string)
| Logger (event subject : string).

(** What the worker reads from outside: the successive values of [now()]
    and [genId()], the JSON text of [{ opts }], and the order in which the
    calls of the jobs dispatched together under [Promise.all] reach the
    store. *)
Record Env : Type := mkEnv {
  now : nat → Z;
  genId : nat → string;
  stringify : option NackOptions.t → string;
  schedule : list (list Action) → list Action
}.

Record Run (St : Type) : Type := mkRun {
  store : St;
  reads : nat;
  sink : list (string * string)
}.
Global Arguments mkRun {St}.
Global Arguments store {St}.
Global Arguments reads {St}.
Global Arguments sink {St}.

(** [l] runs the lists [ts] to their ends, each in its own order. *)
Inductive Interleaves {A : Type} : list (list A) → list A → Prop :=
| Interleaves_done ts :
    Forall (λ t, t = []) ts → Interleaves ts []
| Interleaves_step ts i a t l :
    ts !! i = Some (a :: t) →
    Interleaves (<[i := t]> ts) l →
    Interleaves ts (a :: l).

Section Worker.
Context {St : Type} (adapter : Adapter.t St) (env : Env).

(** The four operations of the context of [job]. *)
Definition ack (job : Job.t) : list Action :=
  [ Ack (Job.id job); LogEvent (Job.id job) "ack" (Some "{}"%string) ].

Definition nack (job : Job.t) (opts : option NackOptions.t) : list Action :=
  [ Nack (Job.id job) opts;
    LogEvent (Job.id job) "nack" (Some (stringify env opts)) ].

Definition retry (job : Job.t) (delayMs : option Z) : list Action :=
  nack job (Some {| NackOptions.requeue := Some true;
                    NackOptions.delayMs := delayMs |}).

Definition log (job : Job.t) (event : string) (data : option string)
    : list Action :=
  [ LogEvent (Job.id job) event data ].

Definition call (job : Job.t) (c : CtxCall) : list Action :=
  match c with
  | CallAck => ack job
  | CallNack opts => nack job opts
  | CallRetry delayMs => retry job delayMs
  | CallLog event data => log job event data
  end.

(** The body of [jobs.map(async (job) => ...)]: the handler's calls, and
    the [catch] when it throws. *)
Definition dispatch (handler : QueueHandler) (job : Job.t) : list Action :=
  let '(calls, outcome) := handler job in
  (calls ≫= call job) ++
  match outcome with
  | Returns => []
  | Throws =>
    Logger "handler_error" (Job.id job) ::
    nack job (Some {| NackOptions.requeue := Some true;
                      NackOptions.delayMs := None |})
  end.

Definition exec (r : Run St) (a : Action) : Run St :=
  let t := now env (reads r) in
  match a with
  | Ack jobId =>
    mkRun (Adapter.ack adapter t jobId false (store r)) (S (reads r)) (sink r)
  | Nack jobId opts =>
    mkRun (Adapter.nack adapter t jobId opts (store r)) (S (reads r)) (sink r)
  | LogEvent jobId event data =>
    mkRun (Adapter.logEvent adapter t (genId env (reads r)) jobId event data (store r))
          (S (reads r)) (sink r)
  | Logger event subject =>
    mkRun (store r) (reads r) (sink r ++ [(event, subject)])
  end.

(** The body of [for (const q of qs)]: the flag is [true] when the queue
    yielded jobs. *)
Definition pollQueue (concurrency : nat) (visibilityTimeoutMs : Z)
    (q : string) (handler : QueueHandler) (r : Run St) : bool * Run St :=
  let '(jobs, s) :=
    Adapter.dequeue adapter (now env (reads r)) q concurrency
      visibilityTimeoutMs (store r) in
  let r' := mkRun s (S (reads r)) (sink r) in
  match jobs with
  | [] => (false, r')
  | _ :: _ =>
    (true, foldl exec r' (schedule env (dispatch handler <$> jobs)))
  end.

(** One iteration of [while (running.value)]: the flag is [workDone]. *)
Definition pollOnce (concurrency : nat) (visibilityTimeoutMs : Z)
    (listeners : list (string * QueueHandler)) (r : Run St) : bool * Run St :=
  foldl (λ '(workDone, r) '(q, handler),
           let '(yielded, r') :=
             pollQueue concurrency visibilityTimeoutMs q handler r in
           (workDone || yielded, r'))
        (false, r) listeners.
End Worker.

(** [listeners.set(queueName, handler)]: a [Map] keeps the position of a
    key that is set again. *)
Fixpoint listen (queueName : string) (handler : QueueHandler)
    (listeners : list (string * QueueHandler)) : list (string * QueueHandler) :=
  match listeners with
  | [] => [(queueName, handler)]
  | (q, h) :: rest =>
    if decide (q = queueName) then (q, handler) :: rest
    else (q, h) :: listen queueName handler rest
  end.

(** [listeners.get(q)] *)
Definition handlerOf (q : string) (listeners : list (string * QueueHandler))
    : option QueueHandler :=
  snd <$> head (filter (λ e, e.1 = q) listeners).

End Worker.

(** ** [createQueue] ([unnamed/part_002]) *)

Module Queue.
Section Queue.
(** The adapter, its optional [stats] member, and the JSON text of
    [{ payload }] for a payload given as JSON text. *)
Context {St : Type} (adapter : Adapter.t St)
        (stats : option (option string → St → list QueueStats.t))
        (stringify : string → string).

(** [enqueue]: the job is stored, then the [enqueue] event is logged;
    [logTime] and [logId] are what [logEvent] reads. *)
Definition enqueue (generated : string) (visibleNow currentTime : Z)
    (logId : string) (logTime : Z)
    (queueName payload : string) (options : option EnqueueOptions.t) (s : St)
    : option (Job.t * St) :=
  match Adapter.enqueue adapter generated visibleNow currentTime
          queueName payload options s with
  | None => None
  | Some (job, s') =>
    Some (job, Adapter.logEvent adapter logTime logId (Job.id job) "enqueue"
                 (Some (stringify payload)) s')
  end.

Definition getJob (jobId : string) (s : St) : option Job.t :=
  Adapter.getJob adapter jobId s.

Definition getLogs (jobId : string) (s : St) : list JobLog.t :=
  Adapter.getLogs adapter jobId s.

(** [if (adapter.stats) return adapter.stats(queue); return []] *)
Definition getStats (queue : option string) (s : St) : list QueueStats.t :=
  match stats with
  | Some adapterStats => adapterStats queue s
  | None => []
  end.

(** [remove]: [nack] with [{ requeue: false }], then the [delete] event. *)
Definition remove (nackTime : Z) (logId : string) (logTime : Z)
    (jobId : string) (s : St) : St :=
  Adapter.logEvent adapter logTime logId jobId "delete" (Some "{}"%string)
    (Adapter.nack adapter nackTime jobId
       (Some {| NackOptions.requeue := Some false;
                NackOptions.delayMs := None |}) s).
End Queue.
End Queue.

(** ** Vocabulary of the statements *)

(** The fields [nack] writes. *)
Definition nackPatch (currentTime : Z) (opts : option NackOptions.t) : Patch.t :=
  if wantsRequeue opts then Patch.requeue (delayed currentTime (nackDelay opts)) currentTime
  else Patch.fail currentTime.

(** Unique ids: [_id] in mongodb, the primary key in drizzle. *)
Definition uniqueIds (c : list Job.t) : Prop := NoDup (Job.id <$> c).

(** [j] with its [updatedAt] stamp replaced. *)
Definition restamp (u : Z) (j : Job.t) : Job.t :=
  Patch.apply {| Patch.status := None; Patch.lockedUntil := None;
                 Patch.visibleAt := None; Patch.updatedAt := Some u;
                 Patch.attempts := None |} j.

(** What [nack] does to a job that is in the store: requeued unless
    [requeue] is [false], and then marked failed with its lease and its
    visibility left as they were. *)
Definition nackOutcome {St : Type} (A : Adapter.t St) : Prop :=
  ∀ (t : Z) (jobId : string) (opts : option NackOptions.t) (db : St) (j : Job.t),
    Adapter.getJob A jobId db = Some j →
    ∃ j', Adapter.getJob A jobId (Adapter.nack A t jobId opts db) = Some j' ∧
      Job.attempts j' = Job.attempts j ∧
      if wantsRequeue opts then
        Job.status j' = pending ∧ Job.lockedUntil j' = 0 ∧
        Job.visibleAt j' = t + default 0 (nackDelay opts)
      else
        Job.status j' = failed ∧ Job.lockedUntil j' = Job.lockedUntil j ∧
        Job.visibleAt j' = Job.visibleAt j.


(** The update of a claim: [status], [lockedUntil], [updatedAt] and one more
    attempt. *)
Definition claimed (lockUntil currentTime : Z) (d : Job.t) : Job.t :=
  incAttempts (Patch.apply (Patch.claim lockUntil currentTime) d).

(** No attempt is left. *)
Definition exhausted (d : Job.t) : Prop := Job.maxAttempts d ≤ Job.attempts d.

(** The eligibility gate of the specification, at time [now]. *)
Definition eligible (now : Z) (d : Job.t) : Prop :=
  Job.status d = pending ∧ Job.visibleAt d ≤ now ∧ Job.lockedUntil d < now ∧
  Job.attempts d < Job.maxAttempts d.

(** How the claim loop of mongodb, run on queue [q] at time [t], has left a
    document: as it was, or it was a candidate and is now marked failed (no
    attempt was left) or claimed (and is among [jobs]). *)
Definition evolves (q : string) (t lu : Z) (jobs : list Job.t)
    (before after : option Job.t) : Prop :=
  after = before ∨
  ∃ d0, before = Some d0 ∧ Mongodb.candidateFilter q t d0 ∧
    ((exhausted d0 ∧ after = Some (Patch.apply (Patch.fail t) d0)) ∨
     (¬ exhausted d0 ∧ after = Some (claimed lu t d0) ∧ claimed lu t d0 ∈ jobs)).

(** What one run of the claim loop of mongodb has done so far, from the
    collection [c0] it started on: ids are unique, each document has evolved
    as above, and [jobs] are distinct claimed candidates, oldest first, none
    newer than a candidate that remains in [c]. *)
Record mongodbClaims (q : string) (t lu : Z) (c0 c : list Job.t)
    (jobs : list Job.t) : Prop := {
  claims_unique : uniqueIds c;
  claims_evolves : ∀ x,
    evolves q t lu jobs (Mongodb.findOne (hasId x) c0) (Mongodb.findOne (hasId x) c);
  claims_jobs : ∀ job, job ∈ jobs →
    ∃ d0, Mongodb.findOne (hasId (Job.id job)) c0 = Some d0 ∧
      Mongodb.candidateFilter q t d0 ∧ ¬ exhausted d0 ∧
      job = claimed lu t d0 ∧
      Mongodb.findOne (hasId (Job.id job)) c = Some job;
  claims_distinct : NoDup (Job.id <$> jobs);
  claims_sorted : StronglySorted createdAt_asc jobs;
  claims_oldest : ∀ job e, job ∈ jobs → e ∈ c → Mongodb.candidateFilter q t e →
    Job.createdAt job ≤ Job.createdAt e
}.

(** The entries [zRangeByScore] selects, with their scores. *)
Definition zEntries (key : string) (min max : Z) (count : nat)
    (sets : gmap string (gmap string Z)) : list (string * Z) :=
  take count
    (merge_sort Redis.zle
       (filter (λ e, min ≤ e.2 ≤ max) (map_to_list (default ∅ (sets !! key))))).

(** The score of a job id in the pending set of a queue ([0] when it is not
    a member). *)
Definition pendingScore (queue : string) (db : Redis.Db) (jobId : string) : Z :=
  default 0 (default ∅ (Redis.pendingSets db !! queue) !! jobId).

(** The part of the job-store contract the worker loop relies on, for a
    store that satisfies [inv]: what [getJob] and [getLogs] show after each
    write, and that a claim returns distinct jobs, each with one more
    attempt than it had. *)
Class Contract {St : Type} (A : Adapter.t St) (inv : St → Prop) : Prop := {
  contract_ack : ∀ t jobId j db,
    Adapter.getJob A j (Adapter.ack A t jobId false db) =
    if decide (jobId = j) then Patch.apply (Patch.complete t) <$> Adapter.getJob A j db
    else Adapter.getJob A j db;
  contract_nack : ∀ t jobId opts j db,
    Adapter.getJob A j (Adapter.nack A t jobId opts db) =
    if decide (jobId = j) then Patch.apply (nackPatch t opts) <$> Adapter.getJob A j db
    else Adapter.getJob A j db;
  contract_logEvent : ∀ t logId jobId event data j db,
    Adapter.getJob A j (Adapter.logEvent A t logId jobId event data db) =
    Adapter.getJob A j db;
  contract_ack_logs : ∀ t jobId del j db,
    Adapter.getLogs A j (Adapter.ack A t jobId del db) = Adapter.getLogs A j db;
  contract_nack_logs : ∀ t jobId opts j db,
    Adapter.getLogs A j (Adapter.nack A t jobId opts db) = Adapter.getLogs A j db;
  contract_logEvent_logs : ∀ t logId jobId event data j db x,
    x ∈ Adapter.getLogs A j (Adapter.logEvent A t logId jobId event data db) ↔
    x ∈ Adapter.getLogs A j db ∨
    (jobId = j ∧ ∃ job, Adapter.getJob A jobId db = Some job ∧
       x = JobLog.mk logId jobId (Job.queue job) event data t);
  contract_dequeue : ∀ t q n vt db jobs db',
    inv db → Adapter.dequeue A t q n vt db = (jobs, db') →
    NoDup (Job.id <$> jobs) ∧
    (∀ j, Adapter.getLogs A j db' = Adapter.getLogs A j db) ∧
    (∀ job, job ∈ jobs →
       ∃ old, Adapter.getJob A (Job.id job) db = Some old ∧
         Adapter.getJob A (Job.id job) db' = Some (claimed (t + vt) t old))
}.

(** The job an action of the worker is about. *)
Definition about (jobId : string) (a : Worker.Action) : Prop :=
  match a with
  | Worker.Ack x | Worker.Nack x _ | Worker.LogEvent x _ _ => x = jobId
  | Worker.Logger _ _ => False
  end.

(** The audit log of a job holds an entry with this event. *)
Definition logged {St : Type} (A : Adapter.t St) (jobId event : string) (db : St) : Prop :=
  ∃ l, l ∈ Adapter.getLogs A jobId db ∧ JobLog.event l = event.

(** [nack({ requeue: true })] *)
Definition requeueTrue : option NackOptions.t :=
  Some {| NackOptions.requeue := Some true; NackOptions.delayMs := None |}.

(** Where the worker stands with a job whose handler threw, while the calls
    of the jobs dispatched together are running: [rest] is what is left of
    the calls [task] of this job, which end with the requeue of the [catch];
    the job is in the store with [attempts] attempts, and pending once the
    requeue has run; the sink has the [handler_error] report once it was
    made; and the audit log of the job holds what it held at the start
    ([logs0]) and what [task] logs. *)
Record stage {St : Type} (A : Adapter.t St) (jobId : string) (attempts : Z)
    (logs0 : list JobLog.t) (task rest : list Worker.Action)
    (r : Worker.Run St) : Prop := {
  stage_job : ∃ cur,
    Adapter.getJob A jobId (Worker.store r) = Some cur ∧
    Job.attempts cur = attempts ∧
    ((∃ pre data, rest = pre ++ [Worker.Nack jobId requeueTrue;
                                 Worker.LogEvent jobId "nack" data]) ∨
     ((∃ data, rest = [Worker.LogEvent jobId "nack" data]) ∧
      Job.status cur = pending ∧ Job.lockedUntil cur = 0) ∨
     (rest = [] ∧ Job.status cur = pending ∧ Job.lockedUntil cur = 0 ∧
      logged A jobId "nack" (Worker.store r)));
  stage_sink :
    Worker.Logger "handler_error" jobId ∈ rest ∨
    ("handler_error"%string, jobId) ∈ Worker.sink r;
  stage_logs : ∀ x, x ∈ Adapter.getLogs A jobId (Worker.store r) →
    x ∈ logs0 ∨ ∃ data, Worker.LogEvent jobId (JobLog.event x) data ∈ task;
  stage_rest : ∀ a, a ∈ rest → a ∈ task
}.

(** ** Vocabulary of the further properties *)

(** What [enqueue] leaves in the store when it returns: the job it returns,
    which is the one [newJob] builds, under its id; the other jobs and all
    the logs are as they were. *)
Definition enqueueStores {St : Type} (A : Adapter.t St) : Prop :=
  ∀ generated visibleNow currentTime queue payload opts s job s',
    Adapter.enqueue A generated visibleNow currentTime queue payload opts s
      = Some (job, s') →
    job = newJob queue payload opts generated visibleNow currentTime ∧
    (∀ j, Adapter.getJob A j s' =
          if decide (j = Job.id job) then Some job else Adapter.getJob A j s) ∧
    (∀ j, Adapter.getLogs A j s' = Adapter.getLogs A j s).

(** A call of an adapter method that may write, with what it reads from
    outside. *)
Inductive Op : Type :=
| OpEnqueue (generated : string) (visibleNow currentTime : Z)
    (queue payload : string) (opts : option EnqueueOptions.t)
| OpDequeue (currentTime : Z) (queue : string) (limit : nat)
    (visibilityTimeoutMs : Z)
| OpAck (currentTime : Z) (jobId : string) (deleteAfterAck : bool)
| OpNack (currentTime : Z) (jobId : string) (opts : option NackOptions.t)
| OpLogEvent (currentTime : Z) (logId jobId event : string) (data : option string).

(** The store after a call; a call that throws leaves it as it was. *)
Definition step {St : Type} (A : Adapter.t St) (s : St) (op : Op) : St :=
  match op with
  | OpEnqueue generated visibleNow currentTime queue payload opts =>
    match Adapter.enqueue A generated visibleNow currentTime queue payload opts s with
    | Some (_, s') => s'
    | None => s
    end
  | OpDequeue currentTime queue limit visibilityTimeoutMs =>
    (Adapter.dequeue A currentTime queue limit visibilityTimeoutMs s).2
  | OpAck currentTime jobId deleteAfterAck =>
    Adapter.ack A currentTime jobId deleteAfterAck s
  | OpNack currentTime jobId opts => Adapter.nack A currentTime jobId opts s
  | OpLogEvent currentTime logId jobId event data =>
    Adapter.logEvent A currentTime logId jobId event data s
  end.

(** The store after a sequence of calls. *)
Definition run {St : Type} (A : Adapter.t St) (s : St) (ops : list Op) : St :=
  foldl (step A) s ops.

(** [op] is an [ack] of [jobId] with [deleteAfterAck]. *)
Definition deletes (jobId : string) (op : Op) : Prop :=
  match op with
  | OpAck _ x true => x = jobId
  | _ => False
  end.

(** [op] is an [enqueue] under the id [jobId]. *)
Definition enqueues (jobId : string) (op : Op) : Prop :=
  match op with
  | OpEnqueue generated _ _ _ _ opts => chooseId opts generated = jobId
  | _ => False
  end.

(** [d'] is a later state of the job [d]: what identifies the job and what
    it carries is the same, and no attempt was taken back. *)
Definition persists (d d' : Job.t) : Prop :=
  Job.id d' = Job.id d ∧ Job.queue d' = Job.queue d ∧
  Job.payload d' = Job.payload d ∧ Job.meta d' = Job.meta d ∧
  Job.maxAttempts d' = Job.maxAttempts d ∧ Job.createdAt d' = Job.createdAt d ∧
  Job.attempts d ≤ Job.attempts d'.

(** [op] makes the job [jobId] pending: a [nack] of it that requeues, or an
    [enqueue] under its id. *)
Definition revives (jobId : string) (op : Op) : Prop :=
  match op with
  | OpNack _ x opts => x = jobId ∧ wantsRequeue opts = true
  | OpEnqueue generated _ _ _ _ opts => chooseId opts generated = jobId
  | _ => False
  end.

(** [zScore(key, member)]: the score of a member of a sorted set of redis,
    [None] when it is not a member. *)
Definition zScore (key member : string) (sets : gmap string (gmap string Z))
    : option Z :=
  default ∅ (sets !! key) !! member.

(** [j] as a claim on [queue] reports it: the queue name is the argument of
    the call. *)
Definition withQueue (queue : string) (j : Job.t) : Job.t :=
  {| Job.id := Job.id j; Job.queue := queue; Job.payload := Job.payload j;
     Job.attempts := Job.attempts j; Job.maxAttempts := Job.maxAttempts j;
     Job.visibleAt := Job.visibleAt j; Job.lockedUntil := Job.lockedUntil j;
     Job.createdAt := Job.createdAt j; Job.updatedAt := Job.updatedAt j;
     Job.status := Job.status j; Job.meta := Job.meta j |}.

(** The status a call of the worker leaves the job it is about in. *)
Definition statusAfter (s : JobStatus) (a : Worker.Action) : JobStatus :=
  match a with
  | Worker.Ack _ => completed
  | Worker.Nack _ opts => if wantsRequeue opts then pending else failed
  | Worker.LogEvent _ _ _ | Worker.Logger _ _ => s
  end.

(** The status the calls [task] of one job leave it in, from [s]. *)
Definition settle (s : JobStatus) (task : list Worker.Action) : JobStatus :=
  foldl statusAfter s task.

(** The number of jobs of queue [q] with status [s]. *)
Definition countJobs (q : string) (s : JobStatus) (c : list Job.t) : Z :=
  Z.of_nat (length (filter (λ d, statsKey d = (q, s)) c)).

(** The members of the pending set of a queue that are due at time [t]:
    those [zRangeByScore] ranges over, with their scores. *)
Definition pendingDue (queue : string) (t : Z) (db : Redis.Db) : list (string * Z) :=
  filter (λ e, 0 ≤ e.2 ≤ t) (map_to_list (default ∅ (Redis.pendingSets db !! queue))).

(** A job id whose hash key [job:<jobId>] is not the key [job:logs:<x>] of
    a log list. *)
Definition plainId (jobId : string) : Prop :=
  String.prefix "logs:" jobId = false.

(** [op] names no job id of the form [logs:<x>]. *)
Definition plainOp (op : Op) : Prop :=
  match op with
  | OpEnqueue generated _ _ _ _ opts => plainId (chooseId opts generated)
  | OpDequeue _ _ _ _ => True
  | OpAck _ jobId _ | OpNack _ jobId _ | OpLogEvent _ _ jobId _ _ => plainId jobId
  end.

(** A redis store that holds no hash and no pending member under an id of
    the form [logs:<x>]. *)
Definition plainStore (db : Redis.Db) : Prop :=
  (∀ jobId, is_Some (Redis.hashes db !! jobId) → plainId jobId) ∧
  (∀ queue jobId, is_Some (zScore queue jobId (Redis.pendingSets db)) →
                  plainId jobId).

(** What an object of [stats] holds under a status key. *)
Definition statOf (s : JobStatus) (e : QueueStats.t) : option Z :=
  match s with
  | pending => Some (QueueStats.pending e)
  | processing => Some (QueueStats.processing e)
  | completed => Some (QueueStats.completed e)
  | failed => Some (QueueStats.failed e)
  | expired => QueueStats.expired e
  end.

(** ** Sample data *)

(** A job as [enqueue] makes it at time [1000], with no option. *)
Definition sampleJob : Job.t := newJob "q" "{}" None "job_1" 1000 1000.

(** The same job while a worker holds it: claimed at [1000] for [30000]. *)
Definition sampleClaimed : Job.t := claimed 31000 1000 sampleJob.

(** The same job with its attempts used up, pending again. *)
Definition sampleExhausted : Job.t :=
  {| Job.id := "job_1"; Job.queue := "q"; Job.payload := "{}";
     Job.attempts := 3; Job.maxAttempts := 3; Job.visibleAt := 1000;
     Job.lockedUntil := 0; Job.createdAt := 1000; Job.updatedAt := 1000;
     Job.status := pending; Job.meta := None |}.

(** An older job that was enqueued with a delay of [500]. *)
Definition sampleDelayed : Job.t :=
  newJob "q" "{}"
    (Some {| EnqueueOptions.jobId := Some "job_0"%string;
             EnqueueOptions.delayMs := Some 500;
             EnqueueOptions.maxAttempts := None;
             EnqueueOptions.meta := None |})
    "job_x" 900 900.

Definition redisEmpty : Redis.Db := Redis.mkDb ∅ ∅ ∅ ∅.

(** An environment of the worker: the clock advances by one at each
    reading, ids are numbered, and the calls of the jobs dispatched together
    run one job after the other. *)
Definition sampleEnv : Worker.Env :=
  {| Worker.now := λ n, 2000 + Z.of_nat n;
     Worker.genId := λ n, String.append "log_" (pretty n);
     Worker.stringify := λ _, "{}"%string;
     Worker.schedule := λ ts, concat ts |}.

(** A handler that throws at once. *)
Definition alwaysThrows : Worker.QueueHandler := λ _, ([], Worker.Throws).

(** A mongodb store that holds [sampleClaimed], and three log entries of
    the job, out of order. *)
Definition sampleLogs : list JobLog.t :=
  [ JobLog.mk "log_1" "job_1" "q" "enqueue" (Some "{}"%string) 1000;
    JobLog.mk "log_3" "job_1" "q" "nack" (Some "{}"%string) 3000;
    JobLog.mk "log_2" "job_1" "q" "custom" None 2000 ].

Definition sampleMongo : Mongodb.Db := Mongodb.mkDb [sampleClaimed] sampleLogs.

(** [nack(jobId, { requeue: false })] *)
Definition requeueFalse : option NackOptions.t :=
  Some {| NackOptions.requeue := Some false; NackOptions.delayMs := None |}.

(** The options of an [enqueue] that gives only a [meta] object, and of one
    that also names the job and delays it by [500]. *)
Definition onlyMeta : option EnqueueOptions.t :=
  Some {| EnqueueOptions.jobId := None;
          EnqueueOptions.delayMs := None;
          EnqueueOptions.maxAttempts := None;
          EnqueueOptions.meta := Some "{}"%string |}.

Definition delayedWithMeta : option EnqueueOptions.t :=
  Some {| EnqueueOptions.jobId := Some "job_0"%string;
          EnqueueOptions.delayMs := Some 500;
          EnqueueOptions.maxAttempts := None;
          EnqueueOptions.meta := Some "{}"%string |}.

(** [sampleJob] and [sampleDelayed] as enqueued with these options. *)
Definition sampleJobMeta : Job.t := newJob "q" "{}" onlyMeta "job_1" 1000 1000.


(** A redis store after two [enqueue] calls: [sampleDelayedMeta] at [900],
    then [sampleJobMeta] at [1000]. *)
Definition sampleRedis : Redis.Db :=
  default redisEmpty
    (Redis.enqueue "job_x" 900 900 "q" "{}" delayedWithMeta redisEmpty ≫= λ first,
     snd <$> Redis.enqueue "job_1" 1000 1000 "q" "{}" onlyMeta first.2).

(** One poll cycle of a worker with [alwaysThrows] registered on ["q"],
    concurrency [1] and the default visibility timeout. *)
Definition pollCycle {St : Type} (A : Adapter.t St) (r : Worker.Run St)
    : Worker.Run St :=
  (Worker.pollOnce A sampleEnv 1 30000 (Worker.listen "q" alwaysThrows []) r).2.

(** What [getJob] shows of the status and the attempts of ["job_1"]. *)
Definition progress {St : Type} (A : Adapter.t St) (r : Worker.Run St)
    : option (JobStatus * Z) :=
  (λ j, (Job.status j, Job.attempts j)) <$> Adapter.getJob A "job_1" (Worker.store r).

(** * Properties *)

(** ** Partial updates *)

Lemma delayed_plus currentTime delayMs :
  delayed currentTime delayMs = currentTime + default 0 delayMs.
Proof.
  destruct delayMs as [d|]; simpl; [|lia].
  destruct (decide (d = 0)); lia.
Qed.

Lemma Patch_apply_id p j : Job.id (Patch.apply p j) = Job.id j.
Proof. reflexivity. Qed.

Lemma incAttempts_id j : Job.id (incAttempts j) = Job.id j.
Proof. reflexivity. Qed.

(** ** Collections of the mongodb driver *)

Section MongoCollection.
Import Mongodb.
Context {A : Type} (P : A → Prop) `{!∀ x, Decision (P x)}.

Lemma findOne_None c : findOne P c = None ↔ Forall (λ d, ¬ P d) c.
Proof.
  unfold findOne. rewrite head_None. split.
  - intros Hnil. apply Forall_forall. intros d Hd HP.
    assert (d ∈ filter P c) as Hin by (apply list_elem_of_filter; auto).
    rewrite Hnil in Hin. by apply not_elem_of_nil in Hin.
  - intros Hall. induction Hall as [|d c Hd _ IH]; [done|].
    rewrite filter_cons_False; auto.
Qed.

Lemma findOne_Some c d : findOne P c = Some d → d ∈ c ∧ P d.
Proof.
  unfold findOne. intros Hhd. apply head_Some_elem_of in Hhd.
  by apply list_elem_of_filter in Hhd as [? ?].
Qed.

Lemma updateOne_absent f c : findOne P c = None → updateOne P f c = c.
Proof.
  rewrite findOne_None. induction 1 as [|d c Hd _ IH]; simpl; [done|].
  destruct (decide (P d)); [done|]. by rewrite IH.
Qed.

Lemma deleteOne_absent c : findOne P c = None → deleteOne P c = c.
Proof.
  rewrite findOne_None. induction 1 as [|d c Hd _ IH]; simpl; [done|].
  destruct (decide (P d)); [done|]. by rewrite IH.
Qed.

Lemma findOne_cons d c :
  findOne P (d :: c) = if decide (P d) then Some d else findOne P c.
Proof.
  unfold findOne. destruct (decide (P d)).
  - by rewrite filter_cons_True.
  - by rewrite filter_cons_False.
Qed.
End MongoCollection.

Section MongoJobs.
Import Mongodb.

(** An update of the first document with id [jobId] that keeps ids is
    seen by [findOne] on that id, and by no other. *)
Lemma findOne_updateOne_hasId (f : Job.t → Job.t) jobId j c :
  (∀ d, Job.id (f d) = Job.id d) →
  findOne (hasId j) (updateOne (hasId jobId) f c) =
  if decide (jobId = j) then f <$> findOne (hasId j) c
  else findOne (hasId j) c.
Proof.
  intros Hf. induction c as [|d c IH]; simpl.
  - by destruct (decide (jobId = j)).
  - destruct (decide (hasId jobId d)) as [Hd|Hd]; rewrite !findOne_cons.
    + pose proof (Hf d).
      repeat case_decide; unfold hasId in *; simplify_eq; done || congruence.
    + rewrite IH.
      repeat case_decide; unfold hasId in *; simplify_eq; done || congruence.
Qed.

Lemma updateOne_ids (P : Job.t → Prop) `{!∀ x, Decision (P x)} f c :
  (∀ d, Job.id (f d) = Job.id d) →
  Job.id <$> updateOne P f c = Job.id <$> c.
Proof.
  intros Hf. induction c as [|d c IH]; csimpl; [done|].
  destruct (decide (P d)); csimpl; [by rewrite Hf|by rewrite IH].
Qed.

Lemma findOne_deleteOne_hasId jobId c :
  NoDup (Job.id <$> c) → findOne (hasId jobId) (deleteOne (hasId jobId) c) = None.
Proof.
  intros Hnd. apply findOne_None. induction c as [|d c IH]; simpl; [constructor|].
  apply NoDup_cons in Hnd as [Hd Hnd]. destruct (decide (hasId jobId d)) as [Hm|Hm].
  - apply Forall_forall. intros d' Hd' Hid. apply Hd.
    unfold hasId in *. rewrite Hm, <- Hid. by apply list_elem_of_fmap_2.
  - constructor; auto.
Qed.
End MongoJobs.

(** ** Tables of drizzle *)

Section DrizzleTable.
Import Drizzle.

Lemma head_limit_1 {A} (rows : list A) : head (limit 1 rows) = head rows.
Proof. by destruct rows. Qed.

Lemma head_fmap {A B} (f : A → B) (rows : list A) :
  head (f <$> rows) = f <$> head rows.
Proof. by destruct rows. Qed.

Lemma select_update_hasId (f : Job.t → Job.t) jobId j t :
  (∀ r, Job.id (f r) = Job.id r) →
  select (hasId j) (update (hasId jobId) f t) =
  if decide (jobId = j) then f <$> select (hasId j) t else select (hasId j) t.
Proof.
  intros Hf. unfold select, update. induction t as [|r t IH]; csimpl.
  - by case_decide.
  - pose proof (Hf r) as Hr. rewrite !filter_cons, IH.
    repeat case_decide; unfold hasId in *; simplify_eq; csimpl; done || congruence.
Qed.

Lemma update_absent (f : Job.t → Job.t) jobId t :
  select (hasId jobId) t = [] → update (hasId jobId) f t = t.
Proof.
  unfold select, update. induction t as [|r t IH]; csimpl; [done|].
  rewrite filter_cons. case_decide; [done|]. intros Hnil. by rewrite IH.
Qed.

Lemma delete_absent jobId (t : list Job.t) :
  select (hasId jobId) t = [] → delete (hasId jobId) t = t.
Proof.
  unfold select, delete. induction t as [|r t IH]; [done|].
  rewrite !filter_cons. case_decide; [done|].
  intros Hnil. rewrite decide_True by done. by rewrite IH.
Qed.

Lemma select_delete jobId (t : list Job.t) :
  select (hasId jobId) (delete (hasId jobId) t) = [].
Proof.
  unfold select, delete. induction t as [|r t IH]; [done|].
  rewrite filter_cons. case_decide as Hr.
  - rewrite filter_cons. case_decide; [contradiction|done].
  - done.
Qed.

Lemma select_delete_ne jobId j (t : list Job.t) :
  jobId ≠ j → select (hasId j) (delete (hasId jobId) t) = select (hasId j) t.
Proof.
  intros Hne. unfold select, delete. induction t as [|r t IH]; [done|].
  rewrite !filter_cons.
  repeat case_decide; unfold hasId in *; simplify_eq; rewrite ?filter_cons;
    repeat case_decide; unfold hasId in *; simplify_eq; try done; by rewrite IH.
Qed.

Lemma update_ids (P : Job.t → Prop) `{!∀ x, Decision (P x)} f t :
  (∀ r, Job.id (f r) = Job.id r) →
  Job.id <$> update P f t = Job.id <$> t.
Proof.
  intros Hf. unfold update. rewrite <- list_fmap_compose.
  apply list_fmap_ext. intros i r _. simpl. by case_decide.
Qed.
End DrizzleTable.

(** ** Hashes of redis *)

Section RedisHashes.
Import Redis.

Lemma hSet_lookup key fields h j :
  hSet key fields h !! j =
  if decide (key = j) then
    Some (match h !! key with
          | Some (JobHash jobData) => JobHash (Patch.apply fields jobData)
          | Some (Fields written) => Fields (Patch.over fields written)
          | None => Fields fields
          end)
  else h !! j.
Proof.
  unfold hSet. case_decide as Hk.
  - subst j. destruct (h !! key) as [[?|?]|]; by rewrite lookup_insert_eq.
  - destruct (h !! key) as [[?|?]|]; by rewrite lookup_insert_ne.
Qed.
End RedisHashes.

(** ** What [getJob] and [getLogs] see after a write *)

Lemma nackPatch_requeue t opts :
  wantsRequeue opts = true →
  nackPatch t opts = Patch.requeue (delayed t (nackDelay opts)) t.
Proof. unfold nackPatch. by intros ->. Qed.

Lemma nackPatch_fail t opts :
  wantsRequeue opts = false → nackPatch t opts = Patch.fail t.
Proof. unfold nackPatch. by intros ->. Qed.

Section MongodbLaws.
Import Mongodb.

Lemma mongodb_getJob_ack t jobId j db :
  getJob j (ack t jobId false db) =
  if decide (jobId = j) then Patch.apply (Patch.complete t) <$> getJob j db
  else getJob j db.
Proof. unfold getJob, ack; simpl. by apply findOne_updateOne_hasId. Qed.

Lemma mongodb_getJob_nack t jobId opts j db :
  getJob j (nack t jobId opts db) =
  if decide (jobId = j) then Patch.apply (nackPatch t opts) <$> getJob j db
  else getJob j db.
Proof.
  unfold getJob, nack, nackPatch.
  destruct (wantsRequeue opts); simpl; by apply findOne_updateOne_hasId.
Qed.

Lemma mongodb_getJob_logEvent t logId jobId event data j db :
  getJob j (logEvent t logId jobId event data db) = getJob j db.
Proof.
  unfold logEvent.
  by destruct (findOne (hasId jobId) (jobsCollection db)).
Qed.

Lemma mongodb_getLogs_ack t jobId del j db :
  getLogs j (ack t jobId del db) = getLogs j db.
Proof. unfold getLogs, ack. by destruct del. Qed.

Lemma mongodb_getLogs_nack t jobId opts j db :
  getLogs j (nack t jobId opts db) = getLogs j db.
Proof. unfold getLogs, nack. by destruct (wantsRequeue opts). Qed.

Lemma mongodb_getLogs_elem_of j db x :
  x ∈ getLogs j db ↔ x ∈ logsCollection db ∧ JobLog.jobId x = j.
Proof.
  unfold getLogs, findSorted. rewrite merge_sort_Permutation.
  by rewrite list_elem_of_filter, (comm (∧)).
Qed.

Lemma mongodb_getLogs_logEvent t logId jobId event data j db x :
  x ∈ getLogs j (logEvent t logId jobId event data db) ↔
  x ∈ getLogs j db ∨
  (jobId = j ∧ ∃ job, getJob jobId db = Some job ∧
     x = JobLog.mk logId jobId (Job.queue job) event data t).
Proof.
  rewrite !mongodb_getLogs_elem_of. unfold logEvent, getJob.
  destruct (findOne (hasId jobId) (jobsCollection db)) as [job|] eqn:E; simpl.
  - rewrite elem_of_app, list_elem_of_singleton. split.
    + intros [[Hx| ->] Hj]; [by left|]. right. simpl in Hj. eauto.
    + intros [[Hx Hj]|[Hj (job' & [= <-] & ->)]]; [by auto|]. by auto.
  - split; [by left|]. intros [?|[_ (job' & [=] & _)]]; done.
Qed.
End MongodbLaws.

Section DrizzleLaws.
Import Drizzle.

Lemma drizzle_getJob_head j db :
  getJob j db = head (select (hasId j) (jobs db)).
Proof. unfold getJob. apply head_limit_1. Qed.

Lemma drizzle_getJob_ack t jobId j db :
  getJob j (ack t jobId false db) =
  if decide (jobId = j) then Patch.apply (Patch.complete t) <$> getJob j db
  else getJob j db.
Proof.
  rewrite !drizzle_getJob_head. unfold ack; simpl.
  rewrite select_update_hasId by done.
  case_decide; [|done]. by destruct (select _ _).
Qed.

Lemma drizzle_getJob_nack t jobId opts j db :
  getJob j (nack t jobId opts db) =
  if decide (jobId = j) then Patch.apply (nackPatch t opts) <$> getJob j db
  else getJob j db.
Proof.
  rewrite !drizzle_getJob_head. unfold nack, nackPatch.
  destruct (wantsRequeue opts); simpl;
    rewrite select_update_hasId by done;
    (case_decide; [|done]); by destruct (select _ _).
Qed.

Lemma drizzle_getJob_logEvent t logId jobId event data j db :
  getJob j (logEvent t logId jobId event data db) = getJob j db.
Proof.
  unfold logEvent.
  by destruct (head (limit 1 (select (hasId jobId) (jobs db)))).
Qed.

Lemma drizzle_getLogs_ack t jobId del j db :
  getLogs j (ack t jobId del db) = getLogs j db.
Proof. unfold getLogs, ack. by destruct del. Qed.

Lemma drizzle_getLogs_nack t jobId opts j db :
  getLogs j (nack t jobId opts db) = getLogs j db.
Proof. unfold getLogs, nack. by destruct (wantsRequeue opts). Qed.

Lemma drizzle_getLogs_elem_of j db x :
  x ∈ getLogs j db ↔ x ∈ jobLogs db ∧ JobLog.jobId x = j.
Proof.
  unfold getLogs, orderBy, select. rewrite merge_sort_Permutation.
  by rewrite list_elem_of_filter, (comm (∧)).
Qed.

Lemma drizzle_getLogs_logEvent t logId jobId event data j db x :
  x ∈ getLogs j (logEvent t logId jobId event data db) ↔
  x ∈ getLogs j db ∨
  (jobId = j ∧ ∃ job, getJob jobId db = Some job ∧
     x = JobLog.mk logId jobId (Job.queue job) event data t).
Proof.
  rewrite !drizzle_getLogs_elem_of. unfold logEvent, getJob.
  destruct (head (limit 1 (select (hasId jobId) (jobs db)))) as [job|] eqn:E; simpl.
  - rewrite elem_of_app, list_elem_of_singleton. split.
    + intros [[Hx| ->] Hj]; [by left|]. right. simpl in Hj. eauto.
    + intros [[Hx Hj]|[Hj (job' & [= <-] & ->)]]; [by auto|]. by auto.
  - split; [by left|]. intros [?|[_ (job' & [=] & _)]]; done.
Qed.
End DrizzleLaws.

Section RedisLaws.
Import Redis.

Lemma redis_getJob_ack t jobId j db :
  getJob j (ack t jobId false db) =
  if decide (jobId = j) then Patch.apply (Patch.complete t) <$> getJob j db
  else getJob j db.
Proof.
  unfold getJob, ack, hGetAll; simpl. rewrite hSet_lookup.
  case_decide; [subst j|done]. by destruct (hashes db !! jobId) as [[?|?]|].
Qed.

Lemma redis_getJob_nack t jobId opts j db :
  getJob j (nack t jobId opts db) =
  if decide (jobId = j) then Patch.apply (nackPatch t opts) <$> getJob j db
  else getJob j db.
Proof.
  unfold getJob, nack, nackPatch, hGetAll.
  destruct (hashes db !! jobId) as [[jobData|?]|] eqn:E.
  - destruct (wantsRequeue opts); simpl; rewrite hSet_lookup, E;
      (case_decide; [subst j; by rewrite E|done]).
  - case_decide; [subst j; by rewrite E|done].
  - case_decide; [subst j; by rewrite E|done].
Qed.

Lemma redis_getJob_logEvent t logId jobId event data j db :
  getJob j (logEvent t logId jobId event data db) = getJob j db.
Proof.
  unfold logEvent.
  by destruct (hGetAll jobId (hashes db)) as [[?|?]|].
Qed.

Lemma redis_getLogs_ack t jobId del j db :
  getLogs j (ack t jobId del db) = getLogs j db.
Proof.
  unfold getLogs, ack. destruct del; [|done].
  by destruct (hGetAll _ _) as [[?|?]|].
Qed.

Lemma redis_getLogs_nack t jobId opts j db :
  getLogs j (nack t jobId opts db) = getLogs j db.
Proof.
  unfold getLogs, nack. destruct (hGetAll _ _) as [[?|?]|]; [|done..].
  by destruct (wantsRequeue opts).
Qed.

Lemma redis_getLogs_logEvent t logId jobId event data j db x :
  x ∈ getLogs j (logEvent t logId jobId event data db) ↔
  x ∈ getLogs j db ∨
  (jobId = j ∧ ∃ job, getJob jobId db = Some job ∧
     x = JobLog.mk logId jobId (Job.queue job) event data t).
Proof.
  unfold getLogs, logEvent, getJob, lRange, rPush, hGetAll.
  destruct (hashes db !! jobId) as [[jobData|?]|] eqn:E; simpl.
  - destruct (decide (jobId = j)) as [->|Hne].
    + rewrite lookup_insert_eq; simpl. rewrite elem_of_app, list_elem_of_singleton.
      split; [intros [?| ->]; eauto|].
      intros [?|[_ (job' & [= <-] & ->)]]; auto.
    + rewrite lookup_insert_ne by done. split; [by left|].
      by intros [?|[? _]].
  - split; [by left|]. intros [?|[_ (job' & [=] & _)]]; done.
  - split; [by left|]. intros [?|[_ (job' & [=] & _)]]; done.
Qed.
End RedisLaws.

(** ** nack *)

Lemma nackOutcome_of_law {St} (A : Adapter.t St) :
  (∀ t jobId opts db,
     Adapter.getJob A jobId (Adapter.nack A t jobId opts db) =
     Patch.apply (nackPatch t opts) <$> Adapter.getJob A jobId db) →
  nackOutcome A.
Proof.
  intros Hlaw t jobId opts db j Hj. rewrite Hlaw, Hj. simpl.
  eexists; split; [reflexivity|]. unfold nackPatch.
  destruct (wantsRequeue opts); simpl; [|done].
  by rewrite delayed_plus.
Qed.

Lemma mongodb_nackOutcome : nackOutcome mongodbAdapter.
Proof.
  apply nackOutcome_of_law. intros. simpl.
  rewrite mongodb_getJob_nack. by rewrite decide_True.
Qed.

Lemma drizzle_nackOutcome : nackOutcome drizzleAdapter.
Proof.
  apply nackOutcome_of_law. intros. simpl.
  rewrite drizzle_getJob_nack. by rewrite decide_True.
Qed.

Lemma redis_nackOutcome : nackOutcome redisAdapter.
Proof.
  apply nackOutcome_of_law. intros. simpl.
  rewrite redis_getJob_nack. by rewrite decide_True.
Qed.

(** ** ack, twice *)

Lemma restamp_complete t j :
  restamp 0 (Patch.apply (Patch.complete t) j) =
  restamp 0 (Patch.apply (Patch.complete 0) j).
Proof. reflexivity. Qed.

Lemma complete_twice t1 t2 j :
  Patch.apply (Patch.complete t2) (Patch.apply (Patch.complete t1) j) =
  Patch.apply (Patch.complete t2) j.
Proof. reflexivity. Qed.


Section MongodbAck.
Import Mongodb.



End MongodbAck.

Section DrizzleAck.
Import Drizzle.



End DrizzleAck.

Section RedisAck.
Import Redis.





End RedisAck.

(** ** A job that is not in the store *)

Section MongodbMissing.
Import Mongodb.

Lemma mongodb_missing_ack t jobId del db :
  getJob jobId db = None → ack t jobId del db = db.
Proof.
  unfold getJob, ack. intros Hnone. destruct db as [c l]; simpl in *.
  destruct del; by rewrite ?deleteOne_absent, ?updateOne_absent.
Qed.

Lemma mongodb_missing_nack t jobId opts db :
  getJob jobId db = None → nack t jobId opts db = db.
Proof.
  unfold getJob, nack. intros Hnone. destruct db as [c l]; simpl in *.
  destruct (wantsRequeue opts); by rewrite updateOne_absent.
Qed.

Lemma mongodb_missing_logEvent t logId jobId event data db :
  getJob jobId db = None → logEvent t logId jobId event data db = db.
Proof. unfold getJob, logEvent. by intros ->. Qed.

Lemma mongodb_ack_delete_absent t jobId db :
  uniqueIds (jobsCollection db) → getJob jobId (ack t jobId true db) = None.
Proof. intros Hu. unfold getJob, ack; simpl. by apply findOne_deleteOne_hasId. Qed.
End MongodbMissing.

Section DrizzleMissing.
Import Drizzle.

Lemma drizzle_getJob_None jobId db :
  getJob jobId db = None ↔ select (hasId jobId) (jobs db) = [].
Proof. rewrite drizzle_getJob_head. apply head_None. Qed.

Lemma drizzle_missing_ack t jobId del db :
  getJob jobId db = None → ack t jobId del db = db.
Proof.
  rewrite drizzle_getJob_None. unfold ack. intros Hnone.
  destruct db as [c l]; simpl in *.
  destruct del; by rewrite ?delete_absent, ?update_absent.
Qed.

Lemma drizzle_missing_nack t jobId opts db :
  getJob jobId db = None → nack t jobId opts db = db.
Proof.
  rewrite drizzle_getJob_None. unfold nack. intros Hnone.
  destruct db as [c l]; simpl in *.
  destruct (wantsRequeue opts); by rewrite update_absent.
Qed.

Lemma drizzle_missing_logEvent t logId jobId event data db :
  getJob jobId db = None → logEvent t logId jobId event data db = db.
Proof. unfold getJob, logEvent. by intros ->. Qed.

Lemma drizzle_ack_delete_absent t jobId db :
  getJob jobId (ack t jobId true db) = None.
Proof. rewrite drizzle_getJob_None. unfold ack; simpl. apply select_delete. Qed.
End DrizzleMissing.

Section RedisMissing.
Import Redis.

Lemma redis_missing_nack t jobId opts db :
  getJob jobId db = None → nack t jobId opts db = db.
Proof. unfold getJob, nack. by destruct (hGetAll jobId _) as [[?|?]|]. Qed.

Lemma redis_missing_logEvent t logId jobId event data db :
  getJob jobId db = None → logEvent t logId jobId event data db = db.
Proof. unfold getJob, logEvent. by destruct (hGetAll jobId _) as [[?|?]|]. Qed.

Lemma redis_missing_ack_delete t jobId db :
  hashes db !! jobId = None → ack t jobId true db = db.
Proof.
  intros Hnone. unfold ack, del, hGetAll; simpl.
  rewrite lookup_delete_eq, delete_id by done. by destruct db.
Qed.

Lemma redis_ack_delete_absent t jobId db :
  getJob jobId (ack t jobId true db) = None ∧
  hashes (ack t jobId true db) !! jobId = None.
Proof.
  unfold getJob, ack, del, hGetAll; simpl.
  rewrite !lookup_delete_eq; simpl. by rewrite lookup_delete_eq.
Qed.

Lemma redis_missing_ack_keep t jobId db :
  hashes db !! jobId = None →
  hashes (ack t jobId false db) !! jobId = Some (Fields (Patch.complete t)).
Proof.
  intros Hnone. unfold ack; simpl. rewrite hSet_lookup, Hnone.
  by rewrite decide_True.
Qed.
End RedisMissing.

(** ** Order of the audit log *)

Global Instance createdAt_desc_total : Total createdAt_desc.
Proof. intros a b. unfold createdAt_desc. lia. Qed.
Global Instance createdAt_desc_trans : Transitive createdAt_desc.
Proof. intros a b c. unfold createdAt_desc. lia. Qed.
Global Instance createdAt_asc_total : Total createdAt_asc.
Proof. intros a b. unfold createdAt_asc. lia. Qed.
Global Instance createdAt_asc_trans : Transitive createdAt_asc.
Proof. intros a b c. unfold createdAt_asc. lia. Qed.

Lemma mongodb_getLogs_sorted jobId db :
  StronglySorted createdAt_desc (Mongodb.getLogs jobId db).
Proof. apply StronglySorted_merge_sort; apply _. Qed.

Lemma drizzle_getLogs_sorted jobId db :
  StronglySorted createdAt_desc (Drizzle.getLogs jobId db).
Proof. apply StronglySorted_merge_sort; apply _. Qed.

(** ** The claim loop of mongodb *)

Section MongodbDequeue.
Import Mongodb.

Lemma uniqueIds_elem_findOne c d :
  uniqueIds c → d ∈ c → findOne (hasId (Job.id d)) c = Some d.
Proof.
  unfold uniqueIds. induction c as [|e c IH]; intros Hu Hd.
  - by apply elem_of_nil in Hd.
  - rewrite fmap_cons in Hu. apply NoDup_cons in Hu as [Hne Hu].
    rewrite findOne_cons. apply elem_of_cons in Hd as [->|Hd].
    + by rewrite decide_True.
    + rewrite decide_False; [by apply IH|].
      unfold hasId. intros Heq. apply Hne. rewrite Heq.
      by apply list_elem_of_fmap_2.
Qed.

Lemma findOneSorted_Some (P : Job.t → Prop) `{!∀ x, Decision (P x)} c d :
  findOneSorted P createdAt_asc c = Some d →
  d ∈ c ∧ P d ∧ ∀ e, e ∈ c → P e → Job.createdAt d ≤ Job.createdAt e.
Proof.
  unfold findOneSorted. intros Hhd.
  pose proof (StronglySorted_merge_sort createdAt_asc (filter P c)) as Hs.
  pose proof (merge_sort_Permutation createdAt_asc (filter P c)) as Hp.
  destruct (merge_sort createdAt_asc (filter P c)) as [|d' l] eqn:E; [done|].
  simpl in Hhd. injection Hhd as ->.
  assert (Hin : ∀ e, e ∈ d :: l ↔ e ∈ c ∧ P e).
  { intros e. rewrite Hp. rewrite list_elem_of_filter. tauto. }
  destruct (proj1 (Hin d)) as [Hd HPd]; [left|].
  split_and!; [done..|]. intros e He HPe.
  assert (e ∈ d :: l) as Hel by (apply Hin; auto).
  apply elem_of_cons in Hel as [->|Hel]; [lia|].
  apply StronglySorted_inv in Hs as [_ Hall]. rewrite Forall_forall in Hall.
  by apply Hall.
Qed.

Lemma findOneSorted_None (P : Job.t → Prop) `{!∀ x, Decision (P x)} c :
  findOneSorted P createdAt_asc c = None → ∀ e, e ∈ c → ¬ P e.
Proof.
  unfold findOneSorted. intros Hhd e He HPe. apply head_None in Hhd.
  assert (e ∈ merge_sort createdAt_asc (filter P c)) as Hin.
  { rewrite merge_sort_Permutation. by apply list_elem_of_filter. }
  rewrite Hhd in Hin. by apply elem_of_nil in Hin.
Qed.

(** With unique ids the conditional claim hits the candidate itself. *)
Lemma claim_hits_candidate t f c d :
  uniqueIds c → d ∈ c → claimFilter (Job.id d) t d →
  findOneAndUpdate (claimFilter (Job.id d) t) f c =
  (Some (f d), updateOne (hasId (Job.id d)) f c).
Proof.
  unfold uniqueIds, findOneAndUpdate. intros Hu Hd Hcl.
  induction c as [|e c IH]; [by apply elem_of_nil in Hd|].
  rewrite fmap_cons in Hu. apply NoDup_cons in Hu as [Hne Hu].
  rewrite findOne_cons. simpl. apply elem_of_cons in Hd as [<-|Hd].
  - rewrite !decide_True by done. done.
  - assert (Job.id e ≠ Job.id d) as Hid.
    { intros Heq. apply Hne. rewrite Heq. by apply list_elem_of_fmap_2. }
    rewrite !decide_False by (unfold hasId, claimFilter; tauto).
    specialize (IH Hu Hd). injection IH as IH1 IH2. by rewrite IH1, IH2.
Qed.

Lemma elem_of_updateOne (P : Job.t → Prop) `{!∀ x, Decision (P x)} f c e :
  e ∈ updateOne P f c → e ∈ c ∨ ∃ d, d ∈ c ∧ P d ∧ e = f d.
Proof.
  induction c as [|d c IH]; simpl; [by left|].
  destruct (decide (P d)) as [Hd|Hd]; rewrite !elem_of_cons.
  - intros [->|He]; [right; exists d; rewrite elem_of_cons; auto|auto].
  - intros [->|He]; [auto|]. destruct (IH He) as [?|(d'&?&?&?)]; [auto|].
    right. exists d'. rewrite elem_of_cons. auto.
Qed.

(** One iteration, with unique ids. *)
Lemma dequeueLoop_S q t lu i c jobs :
  uniqueIds c →
  dequeueLoop q t lu (S i) c jobs =
  match findOneSorted (candidateFilter q t) createdAt_asc c with
  | None => (jobs, c)
  | Some candidate =>
    if decide (exhausted candidate) then
      dequeueLoop q t lu i
        (updateOne (hasId (Job.id candidate)) (Patch.apply (Patch.fail t)) c) jobs
    else
      dequeueLoop q t lu i
        (updateOne (hasId (Job.id candidate)) (claimed lu t) c)
        (jobs ++ [claimed lu t candidate])
  end.
Proof.
  intros Hu. cbn [dequeueLoop].
  destruct (findOneSorted _ _ c) as [cand|] eqn:E; [|done].
  apply findOneSorted_Some in E as (Hin & Hc & _).
  unfold exhausted. case_decide; [done|].
  change (λ d, incAttempts (Patch.apply (Patch.claim lu t) d)) with (claimed lu t).
  rewrite claim_hits_candidate; [done..|].
  unfold candidateFilter in Hc. unfold claimFilter. tauto.
Qed.
End MongodbDequeue.

Section MongodbClaims.
Import Mongodb.
Context (q : string) (t lu : Z) (c0 : list Job.t).

Lemma mongodbClaims_start : uniqueIds c0 → mongodbClaims q t lu c0 c0 [].
Proof.
  intros Hu. split; try done.
  - intros x. by left.
  - intros job Hjob. by apply elem_of_nil in Hjob.
  - constructor.
  - constructor.
  - intros job e Hjob. by apply elem_of_nil in Hjob.
Qed.

Lemma evolves_mono jobs jobs' before after :
  evolves q t lu jobs before after → jobs ⊆ jobs' →
  evolves q t lu jobs' before after.
Proof.
  intros [->|(d0 & -> & Hc & [[? ?]|(? & ? & ?)])] Hsub; [by left|right..];
    exists d0; split_and!; auto.
Qed.

(** A candidate is still what it was at the start. *)
Lemma candidate_untouched c jobs cand :
  mongodbClaims q t lu c0 c jobs →
  cand ∈ c → candidateFilter q t cand →
  findOne (hasId (Job.id cand)) c = Some cand ∧
  findOne (hasId (Job.id cand)) c0 = Some cand ∧
  Job.id cand ∉ Job.id <$> jobs.
Proof.
  intros Inv Hin Hc.
  assert (Hst : Job.status cand = pending) by (unfold candidateFilter in Hc; tauto).
  pose proof (uniqueIds_elem_findOne c cand (claims_unique _ _ _ _ _ _ Inv) Hin) as Hf.
  split_and!; [done| |].
  - destruct (claims_evolves _ _ _ _ _ _ Inv (Job.id cand))
      as [He|(d0 & Hd0 & _ & [[_ He]|(_ & He & _)])]; rewrite Hf in He.
    + done.
    + injection He as ->. done.
    + injection He as ->. done.
  - intros (job & Hid & Hjob)%list_elem_of_fmap.
    destruct (claims_jobs _ _ _ _ _ _ Inv job Hjob) as (d0 & _ & _ & _ & -> & Hfj).
    rewrite <- Hid, Hf in Hfj. injection Hfj as ->. done.
Qed.

Lemma mongodbClaims_step c jobs cand (f : Job.t → Job.t) jobs' :
  mongodbClaims q t lu c0 c jobs →
  findOneSorted (candidateFilter q t) createdAt_asc c = Some cand →
  (exhausted cand ∧ f = Patch.apply (Patch.fail t) ∧ jobs' = jobs) ∨
  (¬ exhausted cand ∧ f = claimed lu t ∧ jobs' = jobs ++ [f cand]) →
  mongodbClaims q t lu c0 (updateOne (hasId (Job.id cand)) f c) jobs'.
Proof.
  intros Inv Hcand Hf.
  apply findOneSorted_Some in Hcand as (Hin & Hc & Hmin).
  destruct (candidate_untouched c jobs cand Inv Hin Hc) as (Hfc & Hfc0 & Hfresh).
  assert (Hfid : ∀ d, Job.id (f d) = Job.id d)
    by (destruct Hf as [(_ & -> & _)|(_ & -> & _)]; done).
  assert (Hnc : ∀ d, ¬ candidateFilter q t (f d)).
  { intros d. unfold candidateFilter.
    destruct Hf as [(_ & -> & _)|(_ & -> & _)]; simpl; intros (_ & [=] & _). }
  assert (Hsub : jobs ⊆ jobs').
  { destruct Hf as [(_ & _ & ->)|(_ & _ & ->)]; [done|].
    intros x Hx. apply elem_of_app. by left. }
  assert (Hold : ∀ job, job ∈ jobs → Job.id cand ≠ Job.id job).
  { intros job Hjob Heq. apply Hfresh. rewrite Heq. by apply list_elem_of_fmap_2. }
  destruct Inv as [Hu Hev Hjobs Hnd Hsorted Holdest].
  split.
  - unfold uniqueIds. rewrite updateOne_ids by done. apply Hu.
  - intros x. rewrite findOne_updateOne_hasId by done. case_decide as Hx.
    + subst x. rewrite Hfc, Hfc0. right. exists cand. split_and!; [done..|].
      destruct Hf as [(? & -> & ->)|(? & -> & ->)]; [by left|right].
      split_and!; [done..|]. apply elem_of_app. right. by apply list_elem_of_singleton.
    + eapply evolves_mono; [apply Hev|done].
  - intros job Hjob.
    assert (job ∈ jobs ∨ (¬ exhausted cand ∧ f = claimed lu t ∧ job = f cand)) as [Hj|(Hne & -> & ->)].
    { destruct Hf as [(_ & _ & ->)|(? & ? & ->)]; [by left|].
      apply elem_of_app in Hjob as [?|Hjob%list_elem_of_singleton]; auto. }
    + destruct (Hjobs job Hj) as (d0 & ? & ? & ? & ? & ?).
      exists d0. split_and!; [done..|].
      rewrite findOne_updateOne_hasId by done.
      rewrite decide_False by auto. done.
    + exists cand. split_and!; [done..|].
      rewrite findOne_updateOne_hasId by done.
      change (Job.id (claimed lu t cand)) with (Job.id cand).
      rewrite decide_True by done. by rewrite Hfc.
  - destruct Hf as [(_ & _ & ->)|(_ & -> & ->)]; [apply Hnd|].
    rewrite fmap_app. apply NoDup_app.
    repeat split; try apply Hnd; try apply NoDup_singleton.
    intros x Hx Hx'%list_elem_of_singleton. subst x. exact (Hfresh Hx).
  - destruct Hf as [(_ & _ & ->)|(_ & -> & ->)]; [apply Hsorted|].
    apply StronglySorted_app_2; [|apply Hsorted|repeat constructor].
    intros job e Hjob He%list_elem_of_singleton. subst e.
    apply (Holdest job cand Hjob Hin Hc).
  - intros job e Hjob He Hce.
    assert (e ∈ c) as Hec.
    { apply elem_of_updateOne in He as [?|(d & _ & _ & ->)]; [done|].
      by apply Hnc in Hce. }
    assert (job ∈ jobs ∨ job = f cand ∧ f = claimed lu t) as [Hj|[-> ->]].
    { destruct Hf as [(_ & _ & ->)|(? & ? & ->)]; [by left|].
      apply elem_of_app in Hjob as [?|Hjob%list_elem_of_singleton]; auto. }
    + by apply (Holdest job e).
    + by apply Hmin.
Qed.

Lemma mongodbClaims_loop i c jobs jobs' c' :
  mongodbClaims q t lu c0 c jobs →
  dequeueLoop q t lu i c jobs = (jobs', c') →
  mongodbClaims q t lu c0 c' jobs'.
Proof.
  revert c jobs. induction i as [|i IH]; intros c jobs Inv Hrun.
  - simpl in Hrun. by injection Hrun as <- <-.
  - rewrite dequeueLoop_S in Hrun by apply Inv.
    destruct (findOneSorted _ _ c) as [cand|] eqn:E;
      [|by injection Hrun as <- <-].
    case_decide as Hex.
    + eapply IH; [|exact Hrun]. eapply mongodbClaims_step; eauto.
    + eapply IH; [|exact Hrun]. eapply mongodbClaims_step; eauto 10.
Qed.
End MongodbClaims.

Lemma mongodb_dequeue_claims t q n vt db jobs db' :
  uniqueIds (Mongodb.jobsCollection db) →
  Mongodb.dequeue t q n vt db = (jobs, db') →
  mongodbClaims q t (t + vt) (Mongodb.jobsCollection db)
    (Mongodb.jobsCollection db') jobs ∧
  Mongodb.logsCollection db' = Mongodb.logsCollection db.
Proof.
  intros Hu. unfold Mongodb.dequeue.
  destruct (Mongodb.dequeueLoop _ _ _ _ _ _) as [jobs1 c] eqn:E.
  intros [= <- <-]. simpl. split; [|done].
  eapply mongodbClaims_loop; [|exact E]. by apply mongodbClaims_start.
Qed.

(** ** The claim of drizzle *)

Section DrizzleDequeue.
Import Drizzle.

Lemma select_update_inArray (f : Job.t → Job.t) ids x t :
  (∀ r, Job.id (f r) = Job.id r) →
  select (hasId x) (update (inArray ids) f t) =
  if decide (x ∈ ids) then f <$> select (hasId x) t else select (hasId x) t.
Proof.
  intros Hf. unfold select, update. induction t as [|r t IH]; csimpl.
  - by case_decide.
  - pose proof (Hf r) as Hr. rewrite !filter_cons, IH.
    repeat case_decide; unfold hasId, inArray in *; simplify_eq; csimpl;
      done || congruence.
Qed.

Lemma drizzle_getJob_elem t r :
  uniqueIds t → r ∈ t → head (select (hasId (Job.id r)) t) = Some r.
Proof. apply uniqueIds_elem_findOne. Qed.

Lemma drizzle_head_select_Some x t r :
  head (select (hasId x) t) = Some r → r ∈ t ∧ Job.id r = x.
Proof. intros Hh. by apply (findOne_Some (hasId x)) in Hh. Qed.

Lemma availableJobs_elem q t n (rows : list Job.t) r :
  r ∈ limit n (orderBy createdAt_asc (select (available q t) rows)) →
  r ∈ rows ∧ available q t r.
Proof.
  unfold limit, orderBy, select. intros Hr.
  apply (subseteq_take n) in Hr. rewrite merge_sort_Permutation in Hr.
  by apply list_elem_of_filter in Hr as [? ?].
Qed.

Lemma drizzle_dequeue_spec t q n vt db result db' :
  uniqueIds (jobs db) →
  dequeue t q n vt db = (result, db') →
  uniqueIds (jobs db') ∧ jobLogs db' = jobLogs db ∧
  NoDup (Job.id <$> result) ∧
  (∀ x, getJob x db' = getJob x db ∨
        ∃ d0, getJob x db = Some d0 ∧ available q t d0 ∧
              getJob x db' = Some (claimed (t + vt) t d0) ∧
              claimed (t + vt) t d0 ∈ result) ∧
  (∀ job, job ∈ result →
     ∃ d0, getJob (Job.id job) db = Some d0 ∧ available q t d0 ∧
           job = claimed (t + vt) t d0 ∧ getJob (Job.id job) db' = Some job).
Proof.
  intros Hu. unfold dequeue.
  destruct (limit n _) as [|a rest] eqn:E.
  { intros [= <- <-]. split_and!; try done; [constructor|by left|].
    intros job Hjob. by apply elem_of_nil in Hjob. }
  set (avail := a :: rest) in *. set (ids := Job.id <$> avail).
  change (λ r, incAttempts (Patch.apply (Patch.claim (t + vt) t) r))
    with (claimed (t + vt) t).
  set (rows' := update (inArray ids) (claimed (t + vt) t) (jobs db)).
  intros [= <- <-]. simpl.
  assert (Hids : Job.id <$> rows' = Job.id <$> jobs db)
    by (by apply update_ids).
  assert (Hu' : uniqueIds rows') by (unfold uniqueIds; by rewrite Hids).
  assert (Hav : ∀ r, r ∈ avail → r ∈ jobs db ∧ available q t r).
  { intros r Hr. subst avail. rewrite <- E in Hr. by apply availableJobs_elem in Hr. }
  assert (Hget : ∀ x, head (select (hasId x) rows') =
            if decide (x ∈ ids) then claimed (t + vt) t <$> head (select (hasId x) (jobs db))
            else head (select (hasId x) (jobs db))).
  { intros x. subst rows'. rewrite select_update_inArray by done.
    case_decide; [|done]. apply head_fmap. }
  assert (Hold : ∀ x, x ∈ ids → ∃ d0, head (select (hasId x) (jobs db)) = Some d0 ∧
            available q t d0).
  { intros x (r & -> & Hr)%list_elem_of_fmap. destruct (Hav r Hr) as [Hin Har].
    exists r. split; [|done]. by apply drizzle_getJob_elem. }
  assert (Hres : ∀ job, job ∈ byPrimaryKey (select (inArray ids) rows') ↔
            job ∈ rows' ∧ Job.id job ∈ ids).
  { intros job. unfold byPrimaryKey, select.
    rewrite merge_sort_Permutation, list_elem_of_filter. unfold inArray. tauto. }
  split_and!; [done|done| | |].
  - apply (NoDup_fmap_2_strong Job.id).
    + intros r1 r2 [Hr1 _]%Hres [Hr2 _]%Hres Heq.
      pose proof (drizzle_getJob_elem rows' r1 Hu' Hr1) as H1.
      pose proof (drizzle_getJob_elem rows' r2 Hu' Hr2) as H2.
      rewrite Heq in H1. congruence.
    + unfold byPrimaryKey, select. rewrite merge_sort_Permutation.
      apply NoDup_filter.
      apply (NoDup_fmap_1 Job.id). apply Hu'.
  - intros x. rewrite !drizzle_getJob_head, Hget. case_decide as Hx; [right|by left].
    destruct (Hold x Hx) as (d0 & Hd0 & Ha). exists d0. rewrite Hd0.
    split_and!; [done..|]. apply Hres.
    assert (head (select (hasId x) rows') = Some (claimed (t + vt) t d0)) as Hh.
    { rewrite Hget, decide_True, Hd0 by done. done. }
    apply drizzle_head_select_Some in Hh as [? ?]. split; [done|].
    by apply drizzle_head_select_Some in Hd0 as [_ <-].
  - intros job [Hin Hid]%Hres.
    destruct (Hold _ Hid) as (d0 & Hd0 & Ha). exists d0.
    pose proof (drizzle_getJob_elem rows' job Hu' Hin) as Hj.
    rewrite !drizzle_getJob_head. simpl.
    rewrite Hget, decide_True, Hd0 in Hj by done. simpl in Hj.
    injection Hj as Hj. split_and!; [done..| |].
    + done.
    + rewrite Hget, decide_True, Hd0 by done. simpl. by rewrite Hj.
Qed.
End DrizzleDequeue.

(** ** The claim loop of redis *)

Section RedisDequeue.
Import Redis.

Lemma redis_getJob_JobHash x db jobData :
  hashes db !! x = Some (JobHash jobData) →
  getJob x db = Some (Job.mk x (Job.queue jobData) (Job.payload jobData)
                        (Job.attempts jobData) (Job.maxAttempts jobData)
                        (Job.visibleAt jobData) (Job.lockedUntil jobData)
                        (Job.createdAt jobData) (Job.updatedAt jobData)
                        (Job.status jobData) (Job.meta jobData)).
Proof. unfold getJob, hGetAll. by intros ->. Qed.

Lemma redis_getJob_hashes x db db' :
  hashes db' !! x = hashes db !! x → getJob x db' = getJob x db.
Proof. unfold getJob, hGetAll. by intros ->. Qed.

Lemma redis_dequeueLoop_spec q t lu limit candidates :
  ∀ db dequeued jobs' db',
  NoDup candidates →
  dequeueLoop q t lu limit candidates db dequeued = (jobs', db') →
  ∃ new, jobs' = dequeued ++ new ∧
    Job.id <$> new `sublist_of` candidates ∧
    logLists db' = logLists db ∧
    (∀ x, x ∉ Job.id <$> new → hashes db' !! x = hashes db !! x) ∧
    (∀ job, job ∈ new →
       ∃ old, getJob (Job.id job) db = Some old ∧
         ¬ exhausted old ∧ Job.lockedUntil old < t ∧
         getJob (Job.id job) db' = Some (claimed lu t old) ∧
         Job.attempts job = Job.attempts old + 1 ∧
         Job.visibleAt job = Job.visibleAt old ∧
         Job.createdAt job = Job.createdAt old ∧
         Job.status job = processing).
Proof.
  induction candidates as [|jobId rest IH]; intros db dequeued jobs' db' Hnd Hrun.
  { simpl in Hrun. injection Hrun as <- <-. exists []. rewrite app_nil_r.
    split_and!; try done. intros job Hjob. by apply elem_of_nil in Hjob. }
  apply NoDup_cons in Hnd as [Hfresh Hnd]. cbn [dequeueLoop] in Hrun.
  assert (Hskip : dequeueLoop q t lu limit rest db dequeued = (jobs', db') →
    ∃ new, jobs' = dequeued ++ new ∧
    Job.id <$> new `sublist_of` jobId :: rest ∧
    logLists db' = logLists db ∧
    (∀ x, x ∉ Job.id <$> new → hashes db' !! x = hashes db !! x) ∧
    (∀ job, job ∈ new →
       ∃ old, getJob (Job.id job) db = Some old ∧
         ¬ exhausted old ∧ Job.lockedUntil old < t ∧
         getJob (Job.id job) db' = Some (claimed lu t old) ∧
         Job.attempts job = Job.attempts old + 1 ∧
         Job.visibleAt job = Job.visibleAt old ∧
         Job.createdAt job = Job.createdAt old ∧
         Job.status job = processing)).
  { intros Hrest. destruct (IH _ _ _ _ Hnd Hrest) as (new & ? & ? & ? & ? & ?).
    exists new. split_and!; try done. by apply sublist_cons. }
  case_decide as Hfull.
  { injection Hrun as <- <-. exists []. rewrite app_nil_r.
    split_and!; try done; [apply sublist_nil_l|].
    intros job Hjob. by apply elem_of_nil in Hjob. }
  unfold hGetAll in Hrun.
  destruct (hashes db !! jobId) as [[jobData|?]|] eqn:Eh; [|by auto..].
  case_decide as Hgate; [by auto|].
  match type of Hrun with dequeueLoop _ _ _ _ _ ?d _ = _ => set (db1 := d) in * end.
  destruct (IH _ _ _ _ Hnd Hrun) as (new & -> & Hsub & Hlogs & Hframe & Hnew).
  eexists (_ :: new). split; [by rewrite <- app_assoc|].
  assert (Hnotin : jobId ∉ Job.id <$> new).
  { intros Hin. apply Hfresh. by apply (sublist_subseteq _ _ Hsub). }
  assert (Hh1 : ∀ x, x ≠ jobId → hashes db1 !! x = hashes db !! x).
  { intros x Hx. subst db1; simpl. rewrite hSet_lookup. by rewrite decide_False. }
  split_and!.
  - rewrite fmap_cons. simpl. by apply sublist_skip.
  - by rewrite Hlogs.
  - intros x Hx. rewrite fmap_cons in Hx. apply not_elem_of_cons in Hx as [Hx1 Hx2].
    rewrite Hframe by done. by apply Hh1.
  - intros job [->|Hjob]%elem_of_cons.
    + simpl. eexists. split; [by apply redis_getJob_JobHash|]. simpl.
      split_and!; try done; [unfold exhausted; simpl; lia|lia|].
      rewrite (redis_getJob_hashes jobId db1 db') by (by apply Hframe).
      assert (hashes db1 !! jobId = Some (JobHash (claimed lu t jobData))) as Hc.
      { subst db1; simpl. rewrite hSet_lookup, decide_True, Eh by done. done. }
      by rewrite (redis_getJob_JobHash _ _ _ Hc).
    + destruct (Hnew job Hjob) as (old & Hold & ? & ? & ? & ? & ? & ? & ?).
      exists old. split_and!; try done.
      rewrite <- Hold. symmetry. apply redis_getJob_hashes, Hh1.
      intros Heq. apply Hnotin. rewrite <- Heq. by apply list_elem_of_fmap_2.
Qed.
End RedisDequeue.

Global Instance zle_total : Total Redis.zle.
Proof.
  intros [k1 s1] [k2 s2]. unfold Redis.zle; simpl.
  destruct (Z.lt_trichotomy s1 s2) as [?|[->|?]]; [auto| |auto].
  destruct (total String.le k1 k2); auto.
Qed.

Global Instance zle_trans : Transitive Redis.zle.
Proof.
  intros [k1 s1] [k2 s2] [k3 s3]. unfold Redis.zle; simpl.
  intros [?|[-> H12]] [?|[-> H23]]; [left; lia..|right].
  split; [done|]. by etrans.
Qed.

Lemma StronglySorted_sublist {A} (R : relation A) (l1 l2 : list A) :
  l1 `sublist_of` l2 → StronglySorted R l2 → StronglySorted R l1.
Proof.
  induction 1 as [|x l1 l2 Hsub IH|x l1 l2 Hsub IH]; intros Hs.
  - constructor.
  - apply StronglySorted_inv in Hs as [Hs Hall]. constructor; [by apply IH|].
    rewrite Forall_forall in *. intros y Hy. apply Hall.
    by apply (sublist_subseteq _ _ Hsub).
  - apply StronglySorted_inv in Hs as [Hs _]. by apply IH.
Qed.

Section RedisCandidates.
Import Redis.
Context (key : string) (min max : Z) (count : nat)
        (sets : gmap string (gmap string Z)).

Lemma entries_lookup e :
  e ∈ zEntries key min max count sets →
  default ∅ (sets !! key) !! e.1 = Some e.2 ∧ min ≤ e.2 ≤ max.
Proof.
  unfold zEntries. intros He. apply (subseteq_take count) in He.
  rewrite merge_sort_Permutation in He.
  apply list_elem_of_filter in He as [Hr He]. split; [|done].
  destruct e as [k s]. by apply elem_of_map_to_list in He.
Qed.

Lemma zRangeByScore_NoDup : NoDup (zRangeByScore key min max count sets).
Proof.
  unfold zRangeByScore.
  rewrite fmap_take. eapply sublist_NoDup; [|apply sublist_take].
  rewrite merge_sort_Permutation.
  eapply sublist_NoDup; [|apply fmap_sublist, sublist_filter].
  apply NoDup_fst_map_to_list.
Qed.

Lemma zRangeByScore_sorted :
  StronglySorted
    (λ a b, default 0 (default ∅ (sets !! key) !! a) ≤
            default 0 (default ∅ (sets !! key) !! b))
    (zRangeByScore key min max count sets).
Proof.
  change (zRangeByScore key min max count sets)
    with ((zEntries key min max count sets).*1).
  assert (Hs : StronglySorted zle (zEntries key min max count sets)).
  { unfold zEntries. eapply StronglySorted_sublist; [apply sublist_take|].
    apply StronglySorted_merge_sort; apply _. }
  pose proof entries_lookup as Hl.
  induction Hs as [|e l Hs IH Hall]; [constructor|].
  rewrite fmap_cons. constructor.
  - apply IH. intros e' He'. apply Hl. by right.
  - rewrite Forall_forall in Hall. apply Forall_forall.
    intros k (e' & -> & He')%list_elem_of_fmap.
    destruct (Hl e) as [-> _]; [by left|].
    destruct (Hl e') as [-> _]; [by right|]. simpl.
    specialize (Hall e' He'). unfold zle in Hall. lia.
Qed.

Lemma zRangeByScore_range jobId :
  jobId ∈ zRangeByScore key min max count sets →
  ∃ score, default ∅ (sets !! key) !! jobId = Some score ∧ min ≤ score ≤ max.
Proof.
  change (zRangeByScore key min max count sets)
    with ((zEntries key min max count sets).*1).
  intros (e & -> & He)%list_elem_of_fmap. exists e.2. by apply entries_lookup.
Qed.
End RedisCandidates.

Lemma redis_dequeue_spec t q n vt db result db' :
  Redis.dequeue t q n vt db = (result, db') →
  Redis.logLists db' = Redis.logLists db ∧
  NoDup (Job.id <$> result) ∧
  StronglySorted (λ a b, pendingScore q db a ≤ pendingScore q db b)
    (Job.id <$> result) ∧
  (∀ x, x ∉ Job.id <$> result → Redis.getJob x db' = Redis.getJob x db) ∧
  (∀ job, job ∈ result →
     ∃ old, Redis.getJob (Job.id job) db = Some old ∧
       ¬ exhausted old ∧ Job.lockedUntil old < t ∧
       pendingScore q db (Job.id job) ≤ t ∧
       Redis.getJob (Job.id job) db' = Some (claimed (t + vt) t old) ∧
       Job.attempts job = Job.attempts old + 1 ∧
       Job.visibleAt job = Job.visibleAt old ∧
       Job.createdAt job = Job.createdAt old ∧
       Job.status job = processing).
Proof.
  unfold Redis.dequeue. intros Hrun.
  apply redis_dequeueLoop_spec in Hrun as (new & -> & Hsub & Hlogs & Hframe & Hnew);
    [|apply zRangeByScore_NoDup].
  simpl. split_and!; [done| | | |].
  - eapply sublist_NoDup; [apply zRangeByScore_NoDup|exact Hsub].
  - eapply StronglySorted_sublist; [exact Hsub|]. apply zRangeByScore_sorted.
  - intros x Hx. by apply redis_getJob_hashes, Hframe.
  - intros job Hjob.
    destruct (Hnew job Hjob) as (old & ? & ? & ? & ? & ? & ? & ? & ?).
    exists old. split_and!; try done.
    assert (Job.id job ∈ Redis.zRangeByScore q 0 t (n * 2) (Redis.pendingSets db)) as Hc.
    { apply (sublist_subseteq _ _ Hsub). by apply list_elem_of_fmap_2. }
    apply zRangeByScore_range in Hc as (score & Hs & ?).
    unfold pendingScore. rewrite Hs. simpl. lia.
Qed.

(** ** The three adapters keep the contract *)

Global Instance mongodb_contract :
  Contract mongodbAdapter (λ db, uniqueIds (Mongodb.jobsCollection db)).
Proof.
  split; simpl.
  - apply mongodb_getJob_ack.
  - apply mongodb_getJob_nack.
  - apply mongodb_getJob_logEvent.
  - apply mongodb_getLogs_ack.
  - apply mongodb_getLogs_nack.
  - apply mongodb_getLogs_logEvent.
  - intros t q n vt db jobs db' Hu Hrun.
    apply mongodb_dequeue_claims in Hrun as [Inv Hlogs]; [|done].
    split_and!; [apply Inv| |].
    + intros j. unfold Mongodb.getLogs. by rewrite Hlogs.
    + intros job Hjob.
      destruct (claims_jobs _ _ _ _ _ _ Inv job Hjob) as (d0 & ? & _ & _ & -> & ?).
      by exists d0.
Qed.

Global Instance drizzle_contract :
  Contract drizzleAdapter (λ db, uniqueIds (Drizzle.jobs db)).
Proof.
  split; simpl.
  - apply drizzle_getJob_ack.
  - apply drizzle_getJob_nack.
  - apply drizzle_getJob_logEvent.
  - apply drizzle_getLogs_ack.
  - apply drizzle_getLogs_nack.
  - apply drizzle_getLogs_logEvent.
  - intros t q n vt db jobs db' Hu Hrun.
    apply drizzle_dequeue_spec in Hrun as (_ & Hlogs & Hnd & _ & Hjobs); [|done].
    split_and!; [done| |].
    + intros j. unfold Drizzle.getLogs. by rewrite Hlogs.
    + intros job Hjob. destruct (Hjobs job Hjob) as (d0 & ? & _ & -> & ?).
      by exists d0.
Qed.

Global Instance redis_contract : Contract redisAdapter (λ _, True).
Proof.
  split; simpl.
  - apply redis_getJob_ack.
  - apply redis_getJob_nack.
  - apply redis_getJob_logEvent.
  - apply redis_getLogs_ack.
  - apply redis_getLogs_nack.
  - apply redis_getLogs_logEvent.
  - intros t q n vt db jobs db' _ Hrun.
    apply redis_dequeue_spec in Hrun as (Hlogs & Hnd & _ & _ & Hjobs).
    split_and!; [done| |].
    + intros j. unfold Redis.getLogs. by rewrite Hlogs.
    + intros job Hjob. destruct (Hjobs job Hjob) as (old & ? & _ & _ & _ & ? & _).
      by exists old.
Qed.

(** ** One poll of a queue whose handler throws *)

Section WorkerFacts.
Import Worker.
Context {St : Type} (A : Adapter.t St) (inv : St → Prop) `{!Contract A inv}.
Context (env : Env).

Lemma exec_getJob r a j cur :
  Adapter.getJob A j (store r) = Some cur →
  ∃ cur', Adapter.getJob A j (store (exec A env r a)) = Some cur' ∧
    Job.attempts cur' = Job.attempts cur ∧
    (¬ about j a → cur' = cur) ∧
    (a = Nack j requeueTrue → Job.status cur' = pending ∧ Job.lockedUntil cur' = 0) ∧
    ((∃ e d, a = LogEvent j e d) → cur' = cur).
Proof.
  intros Hcur. destruct a as [x|x opts|x e d|e s]; simpl.
  - rewrite contract_ack, Hcur. case_decide as Hx; simpl;
      (eexists; split_and!; [reflexivity|reflexivity| | |]).
    + intros Hn. by destruct Hn.
    + intros [=].
    + intros (? & ? & [=]).
    + done.
    + intros [=].
    + intros (? & ? & [=]).
  - rewrite contract_nack, Hcur. case_decide as Hx; simpl;
      (eexists; split_and!; [reflexivity| | | |]).
    + unfold nackPatch. by destruct (wantsRequeue opts).
    + intros Hn. by destruct Hn.
    + by intros [= _ ->].
    + intros (? & ? & [=]).
    + done.
    + done.
    + intros [= -> _]. done.
    + intros (? & ? & [=]).
  - rewrite contract_logEvent, Hcur. eexists; split_and!; done.
  - rewrite Hcur. eexists; split_and!; done.
Qed.

Lemma exec_getLogs r a j x :
  x ∈ Adapter.getLogs A j (store (exec A env r a)) →
  x ∈ Adapter.getLogs A j (store r) ∨
  ∃ d, a = LogEvent j (JobLog.event x) d.
Proof.
  destruct a as [y|y opts|y e d|e s]; simpl.
  - rewrite contract_ack_logs. auto.
  - rewrite contract_nack_logs. auto.
  - rewrite contract_logEvent_logs. intros [?|(-> & job & _ & ->)]; [auto|].
    right. by exists d.
  - auto.
Qed.

Lemma exec_getLogs_mono r a j x :
  x ∈ Adapter.getLogs A j (store r) →
  x ∈ Adapter.getLogs A j (store (exec A env r a)).
Proof.
  destruct a as [y|y opts|y e d|e s]; simpl.
  - by rewrite contract_ack_logs.
  - by rewrite contract_nack_logs.
  - rewrite contract_logEvent_logs. auto.
  - done.
Qed.

Lemma exec_sink_mono r a entry : entry ∈ sink r → entry ∈ sink (exec A env r a).
Proof.
  destruct a; simpl; try done. intros ?. apply elem_of_app. by left.
Qed.

(** A call of another job leaves the stage of this one as it is. *)
Lemma stage_other j n logs0 task rest r a :
  ¬ about j a →
  stage A j n logs0 task rest r → stage A j n logs0 task rest (exec A env r a).
Proof.
  intros Hother [(cur & Hcur & Hn & Hprog) Hsink Hlogs Hrest].
  destruct (exec_getJob r a j cur Hcur) as (cur' & Hcur' & _ & Hsame & _).
  rewrite (Hsame Hother) in Hcur'. split.
  - exists cur. split_and!; [done..|].
    destruct Hprog as [?|[?|(? & ? & ? & l & Hl & ?)]]; [auto..|].
    right; right. split_and!; [done..|]. exists l. split; [|done].
    by apply exec_getLogs_mono.
  - destruct Hsink; [auto|]. right. by apply exec_sink_mono.
  - intros x [Hx|(d & ->)]%exec_getLogs; [auto|]. by destruct Hother.
  - done.
Qed.

(** The next call of this job moves its stage on. *)
Lemma stage_own j n logs0 task rest r a :
  stage A j n logs0 task (a :: rest) r → stage A j n logs0 task rest (exec A env r a).
Proof.
  intros [(cur & Hcur & Hn & Hprog) Hsink Hlogs Hrest].
  destruct (exec_getJob r a j cur Hcur) as (cur' & Hcur' & Hn' & _ & Hnack & Hlog).
  split.
  - exists cur'. split_and!; [done|congruence|].
    destruct Hprog as [(pre & data & Hpre)|[[(data & Hone) [Hst Hlk]]|[[=] _]]].
    + destruct pre as [|a' pre]; simplify_eq/=.
      * right; left. destruct Hnack as [? ?]; [done|]. eauto.
      * left. eauto.
    + injection Hone as -> ->. right; right.
      assert (cur' = cur) as -> by (apply Hlog; eauto).
      split_and!; [done..|].
      eexists (JobLog.mk _ _ _ _ _ _). split; [|reflexivity].
      simpl. apply contract_logEvent_logs.
      right. split; [done|]. eexists. split; [exact Hcur|reflexivity].
  - destruct Hsink as [[<-|?]%elem_of_cons|?]; [|auto|].
    + right. simpl. apply elem_of_app. right. by apply list_elem_of_singleton.
    + right. by apply exec_sink_mono.
  - intros x [Hx|(d & ->)]%exec_getLogs; [auto|]. right. exists d.
    apply Hrest. by left.
  - intros a' Ha'. apply Hrest. by right.
Qed.

(** Whatever the order in which the calls of the tasks reach the store. *)
Lemma stage_interleaved j n logs0 task l :
  ∀ ts i rest r,
  Interleaves ts l →
  ts !! i = Some rest →
  (∀ k other, k ≠ i → ts !! k = Some other → Forall (λ a, ¬ about j a) other) →
  stage A j n logs0 task rest r →
  stage A j n logs0 task [] (foldl (exec A env) r l).
Proof.
  intros ts i rest r Hl. revert i rest r.
  induction Hl as [ts Hall|ts i' a t l Hi' Hl IH]; intros i rest r Hi Hothers Hst.
  - rewrite Forall_forall in Hall. rewrite (Hall rest) in Hst; [done|].
    by eapply list_elem_of_lookup_2.
  - simpl. destruct (decide (i' = i)) as [->|Hne].
    + rewrite Hi in Hi'. injection Hi' as ->.
      apply (IH i t).
      * apply list_lookup_insert_eq. by eapply lookup_lt_Some.
      * intros k other Hk. rewrite list_lookup_insert_ne by done. by apply Hothers.
      * by apply stage_own.
    + pose proof (Hothers i' _ Hne Hi') as Hat.
      apply Forall_cons in Hat as [Ha Ht].
      apply (IH i rest).
      * by rewrite list_lookup_insert_ne.
      * intros k other Hk. destruct (decide (k = i')) as [->|Hk'].
        -- rewrite list_lookup_insert_eq by (by eapply lookup_lt_Some).
           by intros [= <-].
        -- rewrite list_lookup_insert_ne by done. by apply Hothers.
      * by apply stage_other.
Qed.
End WorkerFacts.

Section Dispatch.
Import Worker.
Context (env : Env).

Lemma call_about job c a :
  a ∈ call env job c → about (Job.id job) a.
Proof.
  destruct c; simpl; unfold retry, ack, nack, log;
    rewrite ?elem_of_cons, ?elem_of_nil; intros Ha; destruct_or?;
    subst; simpl; done.
Qed.

Lemma call_logs job c e d :
  LogEvent (Job.id job) e d ∈ call env job c →
  e = "ack"%string ∨ e = "nack"%string ∨ c = CallLog e d.
Proof.
  destruct c; simpl; unfold retry, ack, nack, log;
    rewrite ?elem_of_cons, ?elem_of_nil; intros Ha; destruct_or?;
    simplify_eq; auto.
Qed.

Lemma dispatch_throws handler job :
  (handler job).2 = Throws →
  dispatch env handler job =
  ((handler job).1 ≫= call env job) ++
  [Logger "handler_error" (Job.id job)] ++
  [Nack (Job.id job) requeueTrue;
   LogEvent (Job.id job) "nack" (Some (stringify env requeueTrue))].
Proof. unfold dispatch. destruct (handler job) as [calls []]; by intros [=]. Qed.

Lemma dispatch_about handler job a :
  a ∈ dispatch env handler job →
  about (Job.id job) a ∨ ∃ e, a = Logger e (Job.id job).
Proof.
  unfold dispatch. destruct (handler job) as [calls outcome].
  rewrite elem_of_app. intros [Ha|Ha].
  - apply list_elem_of_bind in Ha as (c & Ha & _). left. by eapply call_about.
  - destruct outcome; [by apply elem_of_nil in Ha|].
    unfold nack in Ha. rewrite !elem_of_cons, elem_of_nil in Ha.
    destruct_or?; subst; simpl; eauto.
Qed.

Lemma dispatch_logs handler job e d :
  LogEvent (Job.id job) e d ∈ dispatch env handler job →
  e = "ack"%string ∨ e = "nack"%string ∨ CallLog e d ∈ (handler job).1.
Proof.
  unfold dispatch. destruct (handler job) as [calls outcome]; simpl.
  rewrite elem_of_app. intros [Ha|Ha].
  - apply list_elem_of_bind in Ha as (c & Ha & Hc).
    apply call_logs in Ha as [?|[?|Heq]]; [auto..|]. subst c. auto.
  - destruct outcome; [by apply elem_of_nil in Ha|].
    unfold nack in Ha. rewrite !elem_of_cons, elem_of_nil in Ha.
    destruct_or?; simplify_eq; auto.
Qed.

Lemma Interleaves_nil_cons {X} (ts : list (list X)) l :
  Interleaves ts l → Interleaves ([] :: ts) l.
Proof.
  induction 1 as [ts Hall|ts i a t l Hi _ IH].
  - constructor. by constructor.
  - by apply (Interleaves_step _ (S i) a t l).
Qed.

Lemma Interleaves_concat {X} (ts : list (list X)) : Interleaves ts (concat ts).
Proof.
  induction ts as [|t ts IH]; simpl.
  - by constructor.
  - induction t as [|a t IHt]; simpl.
    + by apply Interleaves_nil_cons.
    + by apply (Interleaves_step _ 0%nat a t).
Qed.
End Dispatch.

Section PollQueue.
Import Worker.
Context {St : Type} (A : Adapter.t St) (inv : St → Prop) `{!Contract A inv}.
Context (env : Env).

Lemma pollOnce_single concurrency vt q handler (r : Run St) :
  (pollOnce A env concurrency vt (listen q handler []) r).2 =
  (pollQueue A env concurrency vt q handler r).2.
Proof.
  unfold pollOnce, listen. cbn [foldl].
  by destruct (pollQueue A env concurrency vt q handler r).
Qed.

Lemma pollQueue_throwing concurrency vt q handler (r : Run St) jobs s1 job :
  inv (store r) →
  (∀ ts, Interleaves ts (schedule env ts)) →
  Adapter.dequeue A (now env (reads r)) q concurrency vt (store r) = (jobs, s1) →
  job ∈ jobs →
  (handler job).2 = Throws →
  ∃ old,
    Adapter.getJob A (Job.id job) (store r) = Some old ∧
    stage A (Job.id job) (Job.attempts old + 1)
      (Adapter.getLogs A (Job.id job) (store r))
      (dispatch env handler job) []
      (pollQueue A env concurrency vt q handler r).2.
Proof.
  intros Hinv Hsched Hdeq Hjob Hthrows. unfold pollQueue. rewrite Hdeq.
  destruct (contract_dequeue _ _ _ _ _ _ _ Hinv Hdeq) as (Hnd & Hlogs & Hjobs).
  destruct (Hjobs job Hjob) as (old & Hold & Hnew). exists old. split; [done|].
  destruct jobs as [|j0 jobs0] eqn:Ejobs; [by apply elem_of_nil in Hjob|].
  rewrite <- Ejobs in *. clear Ejobs j0 jobs0. simpl.
  apply list_elem_of_lookup in Hjob as [i Hi].
  apply (stage_interleaved A inv env (Job.id job) _ _ _ _
           (dispatch env handler <$> jobs) i (dispatch env handler job)).
  - apply Hsched.
  - by rewrite list_lookup_fmap, Hi.
  - intros k other Hk. rewrite list_lookup_fmap.
    destruct (jobs !! k) as [jk|] eqn:Ek; [|done]. intros [= <-].
    apply Forall_forall. intros a [Ha|[e ->]]%dispatch_about; [|simpl; tauto].
    intros Ha'. apply Hk.
    apply (NoDup_lookup (Job.id <$> jobs) k i (Job.id job)); [done| |].
    + rewrite list_lookup_fmap, Ek. simpl. f_equal.
      destruct a; simpl in Ha, Ha'; [congruence..|done].
    + by rewrite list_lookup_fmap, Hi.
  - split; simpl.
    + eexists. split; [exact Hnew|]. split; [reflexivity|]. left.
      rewrite dispatch_throws by done.
      exists (((handler job).1 ≫= call env job) ++
              [Logger "handler_error" (Job.id job)]),
             (Some (stringify env requeueTrue)).
      by rewrite <- app_assoc.
    + left. rewrite dispatch_throws by done.
      rewrite !elem_of_app, !elem_of_cons. auto.
    + intros x. rewrite Hlogs. auto.
    + done.
Qed.
End PollQueue.

(** ** The backoff policy *)

Section BackoffFacts.
Import Utils.
Local Open Scope Q_scope.

Lemma Math_min_le_l a v : Math_min a v <= a.
Proof.
  destruct v as [q|]; simpl; [|apply Qle_refl].
  destruct (Qle_bool a q) eqn:E; [apply Qle_refl|].
  apply Qlt_le_weak, Qnot_le_lt. intros Hle.
  apply Qle_bool_iff in Hle. congruence.
Qed.

Lemma Math_max_lub a b c : a <= c → b <= c → Math_max a b <= c.
Proof. intros. unfold Math_max. by destruct (Qle_bool a b). Qed.

Lemma Math_max_r a b : a <= b → Math_max a b = b.
Proof. intros Hle. unfold Math_max. apply Qle_bool_iff in Hle. by rewrite Hle. Qed.

Lemma defaultBackoff_le_cap n : defaultBackoff n <= 60000.
Proof.
  unfold defaultBackoff, clamp. apply Math_max_lub; [easy|apply Math_min_le_l].
Qed.

Lemma pow2_exact (k : Z) : (0 <= k <= 1023)%Z → pow2 k = Fin (Qpower 2 k).
Proof.
  intros [H0 H1]. unfold pow2.
  destruct (Z.ltb_spec 1023 k); [lia|].
  destruct (Z.ltb_spec k (-1074)); [lia|]. reflexivity.
Qed.

Lemma scaled_inject (k : Z) :
  (0 <= k)%Z → 1000 * Qpower 2 k == inject_Z (1000 * 2 ^ k).
Proof.
  intros Hk. rewrite <- (Zpower_Qpower 2 k Hk), inject_Z_mult. reflexivity.
Qed.

Lemma MAX_VALUE_large : (60000 <= (2 ^ 53 - 1) * 2 ^ 971)%Z.
Proof. apply Z.leb_le. vm_compute. reflexivity. Qed.

Lemma Qle_inject_Z_iff (q : Q) (a b : Z) :
  q == inject_Z a → (Qle_bool (inject_Z b) q = true ↔ (b <= a)%Z).
Proof.
  intros Hq. rewrite Qle_bool_iff, Hq, <- Zle_Qle. reflexivity.
Qed.

Lemma Qle_inject_Z_iff' (q : Q) (a b : Z) :
  q == inject_Z a → (Qle_bool q (inject_Z b) = true ↔ (a <= b)%Z).
Proof.
  intros Hq. rewrite Qle_bool_iff, Hq, <- Zle_Qle. reflexivity.
Qed.

Lemma defaultBackoff_closed (n : Z) :
  (1 <= n)%Z → defaultBackoff n == inject_Z (backoff_spec n).
Proof.
  intros Hn. unfold defaultBackoff, backoff_spec, clamp.
  set (k := (n - 1)%Z). assert (Hk : (0 <= k)%Z) by (unfold k; lia).
  assert (Hpos : (0 < 2 ^ k)%Z) by (apply Z.pow_pos_nonneg; lia).
  destruct (Z.ltb_spec 1023 k) as [Hbig|Hsmall].
  - unfold pow2. destruct (Z.ltb_spec 1023 k); [|lia]. simpl.
    assert (2 ^ 6 <= 2 ^ k)%Z by (apply Z.pow_le_mono_r; lia).
    change (2 ^ 6)%Z with 64%Z in *.
    rewrite Z.min_l, Z.max_r by lia. reflexivity.
  - rewrite pow2_exact by lia. unfold mul.
    pose proof (scaled_inject k Hk) as Hs.
    destruct (Qle_bool (1000 * Qpower 2 k) MAX_VALUE) eqn:Emax.
    + unfold Math_min.
      destruct (Qle_bool 60000 (1000 * Qpower 2 k)) eqn:Emin.
      * apply (Qle_inject_Z_iff _ _ 60000 Hs) in Emin.
        rewrite Z.min_l, Z.max_r by lia. reflexivity.
      * assert (Hlt : (1000 * 2 ^ k < 60000)%Z).
        { destruct (Z.lt_ge_cases (1000 * 2 ^ k) 60000) as [|Hge]; [assumption|].
          apply (Qle_inject_Z_iff _ _ 60000 Hs) in Hge.
          change (inject_Z 60000) with 60000 in Hge. congruence. }
        rewrite Math_max_r.
        -- rewrite Hs. rewrite Z.min_r, Z.max_r by lia. reflexivity.
        -- rewrite Hs. change 0 with (inject_Z 0). rewrite <- Zle_Qle. lia.
    + assert (Hgt : ((2 ^ 53 - 1) * 2 ^ 971 < 1000 * 2 ^ k)%Z).
      { destruct (Z.lt_ge_cases ((2 ^ 53 - 1) * 2 ^ 971) (1000 * 2 ^ k))
          as [|Hge]; [assumption|].
        apply (Qle_inject_Z_iff' _ _ _ Hs) in Hge.
        unfold MAX_VALUE in Emax. congruence. }
      pose proof MAX_VALUE_large. simpl.
      rewrite Z.min_l, Z.max_r by lia. reflexivity.
Qed.

Lemma backoff_spec_mono (n : Z) :
  (1 <= n)%Z → (backoff_spec n <= backoff_spec (n + 1))%Z.
Proof.
  intros Hn. unfold backoff_spec.
  assert (2 ^ (n - 1) <= 2 ^ (n + 1 - 1))%Z by (apply Z.pow_le_mono_r; lia).
  lia.
Qed.
End BackoffFacts.

(** C8.  For every [attempts >= 1] the default backoff is exactly
    [clamp(1000 * 2^(attempts-1), 0, 60000)] milliseconds; it does not
    decrease from [n] to [n+1] for [n >= 1], and it never exceeds [60000],
    whatever the integer. *)
Theorem defaultBackoff_exponential_capped :
  (∀ n : Z, 1 ≤ n →
     (Utils.defaultBackoff n == inject_Z (Utils.backoff_spec n))%Q) ∧
  (∀ n : Z, 1 ≤ n →
     (Utils.defaultBackoff n <= Utils.defaultBackoff (n + 1))%Q) ∧
  (∀ n : Z, (Utils.defaultBackoff n <= 60000)%Q).
Proof.
  split_and!.
  - apply defaultBackoff_closed.
  - intros n Hn. rewrite !defaultBackoff_closed by lia.
    rewrite <- Zle_Qle. by apply backoff_spec_mono.
  - apply defaultBackoff_le_cap.
Qed.

Lemma defaultBackoff_exponential_capped_witness :
  (Utils.defaultBackoff 3 == inject_Z (Utils.backoff_spec 3))%Q ∧
  (Utils.defaultBackoff 7 <= Utils.defaultBackoff (7 + 1))%Q.
Proof.
  destruct defaultBackoff_exponential_capped as (Hclosed & Hmono & _).
  split; [apply (Hclosed 3)|apply (Hmono 7)]; lia.
Defined.

(** ** The claims about ack, nack and the audit log *)

(** C5, as amended.  For every job in the store, in each adapter: [nack]
    with [requeue] left at its default sets the status to pending, clears
    the lease and sets [visibleAt] to now plus the delay (now without one);
    [nack] with [requeue = false] sets the status to failed and leaves
    [lockedUntil] and [visibleAt] as they were. *)
Theorem nack_requeues_or_fails :
  nackOutcome mongodbAdapter ∧ nackOutcome drizzleAdapter ∧
  nackOutcome redisAdapter.
Proof.
  split_and!;
    [apply mongodb_nackOutcome|apply drizzle_nackOutcome|apply redis_nackOutcome].
Qed.

Lemma nack_requeues_or_fails_witness :
  ∃ j', Mongodb.getJob "job_1" (Mongodb.nack 2000 "job_1" requeueFalse sampleMongo)
        = Some j' ∧
    Job.attempts j' = 1 ∧ Job.status j' = failed ∧
    Job.lockedUntil j' = 31000 ∧ Job.visibleAt j' = 1000.
Proof.
  destruct nack_requeues_or_fails as (Hmongo & _ & _).
  apply (Hmongo 2000 "job_1"%string requeueFalse sampleMongo sampleClaimed).
  reflexivity.
Defined.

(** C5 as stated fails: after [nack] with [requeue = false] on a job that a
    worker holds, the lease is still there. *)
Lemma nack_without_requeue_keeps_lease :
  ¬ (∀ (t : Z) (jobId : string) (db : Mongodb.Db) (j : Job.t),
       Mongodb.getJob jobId db = Some j →
       ∃ j', Mongodb.getJob jobId (Mongodb.nack t jobId requeueFalse db) = Some j' ∧
         Job.status j' = failed ∧ Job.lockedUntil j' = 0).
Proof.
  intros Hclaim.
  destruct (Hclaim 2000 "job_1"%string sampleMongo sampleClaimed eq_refl)
    as (j' & Hj' & _ & Hlease).
  vm_compute in Hj'. injection Hj' as <-. discriminate Hlease.
Qed.




(** C7 fails in the redis adapter: [ack] without [deleteAfterAck] on an id
    that has no hash creates one, holding [status] and [updatedAt]. *)
Theorem redis_ack_of_missing_job_writes :
  ∀ (t : Z) (jobId : string) (db : Redis.Db),
    Redis.hashes db !! jobId = None →
    Redis.getJob jobId db = None ∧
    Redis.hashes (Redis.ack t jobId false db) !! jobId =
      Some (Redis.Fields (Patch.complete t)) ∧
    Redis.ack t jobId false db ≠ db.
Proof.
  intros t jobId db Hnone. split_and!.
  - unfold Redis.getJob, Redis.hGetAll. by rewrite Hnone.
  - by apply redis_missing_ack_keep.
  - intros Heq. pose proof (redis_missing_ack_keep t jobId db Hnone) as Hw.
    rewrite Heq, Hnone in Hw. discriminate Hw.
Qed.

Lemma redis_ack_of_missing_job_writes_witness :
  Redis.getJob "ghost" redisEmpty = None ∧
  Redis.hashes (Redis.ack 1000 "ghost" false redisEmpty) !! "ghost"%string =
    Some (Redis.Fields (Patch.complete 1000)) ∧
  Redis.ack 1000 "ghost" false redisEmpty ≠ redisEmpty.
Proof.
  apply (redis_ack_of_missing_job_writes 1000 "ghost"%string redisEmpty).
  reflexivity.
Defined.

(** The other calls on a missing job are silent no-ops, in every adapter. *)
Lemma missing_job_noops :
  (∀ t jobId del opts logId event data db,
     Mongodb.getJob jobId db = None →
     Mongodb.ack t jobId del db = db ∧ Mongodb.nack t jobId opts db = db ∧
     Mongodb.logEvent t logId jobId event data db = db) ∧
  (∀ t jobId del opts logId event data db,
     Drizzle.getJob jobId db = None →
     Drizzle.ack t jobId del db = db ∧ Drizzle.nack t jobId opts db = db ∧
     Drizzle.logEvent t logId jobId event data db = db) ∧
  (∀ t jobId opts logId event data db,
     Redis.hashes db !! jobId = None →
     Redis.ack t jobId true db = db ∧ Redis.nack t jobId opts db = db ∧
     Redis.logEvent t logId jobId event data db = db).
Proof.
  split_and!.
  - intros. split_and!; [by apply mongodb_missing_ack|by apply mongodb_missing_nack
                        |by apply mongodb_missing_logEvent].
  - intros. split_and!; [by apply drizzle_missing_ack|by apply drizzle_missing_nack
                        |by apply drizzle_missing_logEvent].
  - intros t jobId opts logId event data db Hnone.
    assert (Redis.getJob jobId db = None) as Hg
      by (unfold Redis.getJob, Redis.hGetAll; by rewrite Hnone).
    split_and!; [by apply redis_missing_ack_delete|by apply redis_missing_nack
                |by apply redis_missing_logEvent].
Qed.

(** C9 fails in the redis adapter: after [ack] with [deleteAfterAck] the
    job is gone and [getJob] returns nothing, but a later [ack] without
    [deleteAfterAck] writes a hash under the id again. *)
Theorem redis_ack_after_delete_writes :
  ∀ (t1 t2 : Z) (jobId : string) (db : Redis.Db),
    let deleted := Redis.ack t1 jobId true db in
    Redis.getJob jobId deleted = None ∧
    Redis.hashes deleted !! jobId = None ∧
    Redis.hashes (Redis.ack t2 jobId false deleted) !! jobId =
      Some (Redis.Fields (Patch.complete t2)) ∧
    Redis.ack t2 jobId false deleted ≠ deleted.
Proof.
  intros t1 t2 jobId db deleted. subst deleted.
  destruct (redis_ack_delete_absent t1 jobId db) as [Hget Hnone].
  pose proof (redis_missing_ack_keep t2 jobId _ Hnone) as Hw.
  split_and!; [done..|].
  intros Heq. rewrite Heq in Hw. congruence.
Qed.

(** In mongodb and drizzle the job is gone after [ack] with
    [deleteAfterAck], and every later call on its id changes nothing. *)
Lemma deleted_job_stays_deleted :
  (∀ t jobId db, uniqueIds (Mongodb.jobsCollection db) →
     let deleted := Mongodb.ack t jobId true db in
     Mongodb.getJob jobId deleted = None ∧
     ∀ t' del opts logId event data,
       Mongodb.ack t' jobId del deleted = deleted ∧
       Mongodb.nack t' jobId opts deleted = deleted ∧
       Mongodb.logEvent t' logId jobId event data deleted = deleted) ∧
  (∀ t jobId db,
     let deleted := Drizzle.ack t jobId true db in
     Drizzle.getJob jobId deleted = None ∧
     ∀ t' del opts logId event data,
       Drizzle.ack t' jobId del deleted = deleted ∧
       Drizzle.nack t' jobId opts deleted = deleted ∧
       Drizzle.logEvent t' logId jobId event data deleted = deleted).
Proof.
  destruct missing_job_noops as (Hm & Hd & _). split.
  - intros t jobId db Hu deleted.
    assert (Mongodb.getJob jobId deleted = None) as Hg
      by (by apply mongodb_ack_delete_absent).
    split; [done|]. intros. by apply Hm.
  - intros t jobId db deleted.
    assert (Drizzle.getJob jobId deleted = None) as Hg
      by apply drizzle_ack_delete_absent.
    split; [done|]. intros. by apply Hd.
Qed.

(** C10.  In the mongodb and the drizzle adapter, [getLogs] returns the
    entries of the job, newest first: sorted by [createdAt], descending. *)
Theorem getLogs_newest_first :
  ∀ jobId : string,
    (∀ db : Mongodb.Db,
       StronglySorted (λ a b, JobLog.createdAt b ≤ JobLog.createdAt a)
         (Mongodb.getLogs jobId db) ∧
       Mongodb.getLogs jobId db ≡ₚ
         filter (λ l, JobLog.jobId l = jobId) (Mongodb.logsCollection db)) ∧
    (∀ db : Drizzle.Db,
       StronglySorted (λ a b, JobLog.createdAt b ≤ JobLog.createdAt a)
         (Drizzle.getLogs jobId db) ∧
       Drizzle.getLogs jobId db ≡ₚ
         filter (λ l, JobLog.jobId l = jobId) (Drizzle.jobLogs db)).
Proof.
  intros jobId. split; intros db; split.
  - apply mongodb_getLogs_sorted.
  - apply merge_sort_Permutation.
  - apply drizzle_getLogs_sorted.
  - apply merge_sort_Permutation.
Qed.

Example getLogs_sample :
  JobLog.createdAt <$> Mongodb.getLogs "job_1" sampleMongo = [3000; 2000; 1000].
Proof. vm_compute. reflexivity. Qed.

(** ** The claims about the claim operation *)

(** What a claim returns passed the gate, in mongodb and in drizzle (whose
    gate on [visibleAt] is strict); in redis it had attempts left, no lease,
    and a score in the pending set that is not in the future. *)
Lemma claimed_jobs_were_eligible :
  (∀ t q n vt db job,
     uniqueIds (Mongodb.jobsCollection db) →
     job ∈ (Mongodb.dequeue t q n vt db).1 →
     ∃ old, Mongodb.getJob (Job.id job) db = Some old ∧
       Job.queue old = q ∧ eligible t old ∧ job = claimed (t + vt) t old) ∧
  (∀ t q n vt db job,
     uniqueIds (Drizzle.jobs db) →
     job ∈ (Drizzle.dequeue t q n vt db).1 →
     ∃ old, Drizzle.getJob (Job.id job) db = Some old ∧
       Job.queue old = q ∧ eligible t old ∧ Job.visibleAt old < t ∧
       job = claimed (t + vt) t old) ∧
  (∀ t q n vt db job,
     job ∈ (Redis.dequeue t q n vt db).1 →
     ∃ old, Redis.getJob (Job.id job) db = Some old ∧
       pendingScore q db (Job.id job) ≤ t ∧ Job.lockedUntil old < t ∧
       Job.attempts old < Job.maxAttempts old ∧
       Job.attempts job = Job.attempts old + 1).
Proof.
  split_and!.
  - intros t q n vt db job Hu Hjob.
    destruct (Mongodb.dequeue t q n vt db) as [jobs db'] eqn:E.
    apply mongodb_dequeue_claims in E as [Inv _]; [|done].
    destruct (claims_jobs _ _ _ _ _ _ Inv job Hjob) as (d0 & ? & Hc & Hne & ? & _).
    exists d0. unfold Mongodb.candidateFilter in Hc. unfold exhausted in Hne.
    unfold eligible. split_and!; try tauto. lia.
  - intros t q n vt db job Hu Hjob.
    destruct (Drizzle.dequeue t q n vt db) as [jobs db'] eqn:E.
    apply drizzle_dequeue_spec in E as (_ & _ & _ & _ & Hjobs); [|done].
    destruct (Hjobs job Hjob) as (d0 & ? & Ha & ? & _).
    exists d0. unfold Drizzle.available in Ha. unfold eligible.
    split_and!; try tauto. lia.
  - intros t q n vt db job Hjob.
    destruct (Redis.dequeue t q n vt db) as [jobs db'] eqn:E.
    apply redis_dequeue_spec in E as (_ & _ & _ & _ & Hjobs).
    destruct (Hjobs job Hjob) as (old & ? & Hne & ? & ? & _ & ? & _).
    exists old. unfold exhausted in Hne. split_and!; try done. lia.
Qed.

(** C1 fails in the drizzle adapter: a pending job with [visibleAt] equal to
    now, no lease and attempts left passes the gate of the specification
    and is claimed by the mongodb adapter, but not by the drizzle adapter,
    whose query asks for [visibleAt < now].  The redis adapter stores a job
    only when it is enqueued with a [meta] object; it claims the same job
    enqueued with [meta: {}], which the drizzle adapter again does not. *)
Theorem drizzle_claim_misses_visibleAt_now :
  eligible 1000 sampleJob ∧ Job.visibleAt sampleJob = 1000 ∧
  Drizzle.enqueue "job_1" 1000 1000 "q" "{}" None (Drizzle.mkDb [] []) =
    Some (sampleJob, Drizzle.mkDb [sampleJob] []) ∧
  Drizzle.dequeue 1000 "q" 1 30000 (Drizzle.mkDb [sampleJob] []) =
    ([], Drizzle.mkDb [sampleJob] []) ∧
  (Mongodb.dequeue 1000 "q" 1 30000 (Mongodb.mkDb [sampleJob] [])).1 =
    [sampleClaimed] ∧
  eligible 1000 sampleJobMeta ∧ Job.visibleAt sampleJobMeta = 1000 ∧
  (∃ db, Redis.enqueue "job_1" 1000 1000 "q" "{}" onlyMeta redisEmpty =
           Some (sampleJobMeta, db) ∧
         (Redis.dequeue 1000 "q" 1 30000 db).1 =
           [claimed 31000 1000 sampleJobMeta]) ∧
  Drizzle.enqueue "job_1" 1000 1000 "q" "{}" onlyMeta (Drizzle.mkDb [] []) =
    Some (sampleJobMeta, Drizzle.mkDb [sampleJobMeta] []) ∧
  Drizzle.dequeue 1000 "q" 1 30000 (Drizzle.mkDb [sampleJobMeta] []) =
    ([], Drizzle.mkDb [sampleJobMeta] []).
Proof.
  assert (Hgate : ∀ o, o = None ∨ o = onlyMeta →
            eligible 1000 (newJob "q" "{}" o "job_1" 1000 1000)).
  { intros o [->| ->]; unfold eligible, newJob, delayed; simpl;
      (split_and!; [done|lia..]). }
  split_and!; [apply Hgate; by left|reflexivity|reflexivity
              |vm_compute; reflexivity|vm_compute; reflexivity
              |apply Hgate; by right|reflexivity|
              |reflexivity|vm_compute; reflexivity].
  eexists. split; [reflexivity|]. vm_compute. reflexivity.
Qed.

(** In the drizzle adapter no claim returns a job whose [visibleAt] is the
    current time. *)
Lemma drizzle_claim_needs_earlier_visibleAt t q n vt db job :
  uniqueIds (Drizzle.jobs db) →
  job ∈ (Drizzle.dequeue t q n vt db).1 → Job.visibleAt job < t.
Proof.
  intros Hu Hjob.
  destruct claimed_jobs_were_eligible as (_ & Hd & _).
  destruct (Hd t q n vt db job Hu Hjob) as (old & _ & _ & _ & Hlt & ->).
  exact Hlt.
Qed.

(** *** Attempt exhaustion *)

Lemma mongodb_exhausted_skipped t q n vt db jobId j :
  uniqueIds (Mongodb.jobsCollection db) →
  Mongodb.getJob jobId db = Some j → exhausted j →
  (∀ job, job ∈ (Mongodb.dequeue t q n vt db).1 → Job.id job ≠ jobId) ∧
  (Mongodb.getJob jobId (Mongodb.dequeue t q n vt db).2 = Some j ∨
   (Mongodb.candidateFilter q t j ∧
    Mongodb.getJob jobId (Mongodb.dequeue t q n vt db).2 =
      Some (Patch.apply (Patch.fail t) j))).
Proof.
  intros Hu Hj Hex.
  destruct (Mongodb.dequeue t q n vt db) as [jobs db'] eqn:E.
  apply mongodb_dequeue_claims in E as [Inv _]; [|done]. simpl. split.
  - intros job Hjob Hid.
    destruct (claims_jobs _ _ _ _ _ _ Inv job Hjob) as (d0 & Hd0 & _ & Hne & _).
    rewrite Hid in Hd0. unfold Mongodb.getJob in Hj.
    assert (d0 = j) as -> by congruence. done.
  - unfold Mongodb.getJob in *.
    destruct (claims_evolves _ _ _ _ _ _ Inv jobId)
      as [He|(d0 & Hd0 & Hc & [[_ He]|(Hne & _)])].
    + left. congruence.
    + right. assert (d0 = j) as -> by congruence. done.
    + assert (d0 = j) as -> by congruence. done.
Qed.

Lemma drizzle_exhausted_skipped t q n vt db jobId j :
  uniqueIds (Drizzle.jobs db) →
  Drizzle.getJob jobId db = Some j → exhausted j →
  (∀ job, job ∈ (Drizzle.dequeue t q n vt db).1 → Job.id job ≠ jobId) ∧
  Drizzle.getJob jobId (Drizzle.dequeue t q n vt db).2 = Some j.
Proof.
  intros Hu Hj Hex.
  destruct (Drizzle.dequeue t q n vt db) as [jobs db'] eqn:E.
  apply drizzle_dequeue_spec in E as (_ & _ & _ & Hget & Hjobs); [|done].
  simpl. split.
  - intros job Hjob Hid. destruct (Hjobs job Hjob) as (d0 & Hd0 & Ha & _).
    rewrite Hid, Hj in Hd0. injection Hd0 as <-.
    unfold Drizzle.available in Ha. unfold exhausted in Hex. lia.
  - destruct (Hget jobId) as [->|(d0 & Hd0 & Ha & _)]; [done|].
    rewrite Hj in Hd0. injection Hd0 as <-.
    unfold Drizzle.available in Ha. unfold exhausted in Hex. lia.
Qed.

Lemma redis_exhausted_skipped t q n vt db jobId j :
  Redis.getJob jobId db = Some j → exhausted j →
  (∀ job, job ∈ (Redis.dequeue t q n vt db).1 → Job.id job ≠ jobId) ∧
  Redis.getJob jobId (Redis.dequeue t q n vt db).2 = Some j.
Proof.
  intros Hj Hex.
  destruct (Redis.dequeue t q n vt db) as [jobs db'] eqn:E.
  apply redis_dequeue_spec in E as (_ & _ & _ & Hframe & Hjobs). simpl.
  assert (Hnot : ∀ job, job ∈ jobs → Job.id job ≠ jobId).
  { intros job Hjob Hid. destruct (Hjobs job Hjob) as (old & Hold & Hne & _).
    rewrite Hid, Hj in Hold. by injection Hold as <-. }
  split; [done|]. rewrite Hframe; [done|].
  intros (job & Hid & Hjob)%list_elem_of_fmap. by apply (Hnot job).
Qed.

(** C3, as amended.  A job that has no attempt left when a claim runs is
    not returned, in any adapter; the drizzle and the redis adapter leave it
    as it is, and the mongodb adapter leaves it as it is or, when it is a
    candidate (pending, visible and unlocked in the queue), marks it
    failed. *)
Theorem claim_skips_exhausted_job :
  (∀ t q n vt db jobId j,
     uniqueIds (Mongodb.jobsCollection db) →
     Mongodb.getJob jobId db = Some j → Job.maxAttempts j ≤ Job.attempts j →
     (∀ job, job ∈ (Mongodb.dequeue t q n vt db).1 → Job.id job ≠ jobId) ∧
     (Mongodb.getJob jobId (Mongodb.dequeue t q n vt db).2 = Some j ∨
      (Mongodb.candidateFilter q t j ∧
       Mongodb.getJob jobId (Mongodb.dequeue t q n vt db).2 =
         Some (Patch.apply (Patch.fail t) j)))) ∧
  (∀ t q n vt db jobId j,
     uniqueIds (Drizzle.jobs db) →
     Drizzle.getJob jobId db = Some j → Job.maxAttempts j ≤ Job.attempts j →
     (∀ job, job ∈ (Drizzle.dequeue t q n vt db).1 → Job.id job ≠ jobId) ∧
     Drizzle.getJob jobId (Drizzle.dequeue t q n vt db).2 = Some j) ∧
  (∀ t q n vt db jobId j,
     Redis.getJob jobId db = Some j → Job.maxAttempts j ≤ Job.attempts j →
     (∀ job, job ∈ (Redis.dequeue t q n vt db).1 → Job.id job ≠ jobId) ∧
     Redis.getJob jobId (Redis.dequeue t q n vt db).2 = Some j).
Proof.
  split_and!.
  - intros. by apply mongodb_exhausted_skipped.
  - intros. by apply drizzle_exhausted_skipped.
  - intros. by apply redis_exhausted_skipped.
Qed.

Lemma claim_skips_exhausted_job_witness :
  (∀ job, job ∈ (Mongodb.dequeue 2000 "q" 1 30000
                   (Mongodb.mkDb [sampleExhausted] [])).1 →
          Job.id job ≠ "job_1"%string) ∧
  (∀ job, job ∈ (Drizzle.dequeue 2000 "q" 1 30000
                   (Drizzle.mkDb [sampleExhausted] [])).1 →
          Job.id job ≠ "job_1"%string) ∧
  Drizzle.getJob "job_1"
    (Drizzle.dequeue 2000 "q" 1 30000 (Drizzle.mkDb [sampleExhausted] [])).2 =
  Some sampleExhausted.
Proof.
  destruct claim_skips_exhausted_job as (Hm & Hd & _).
  assert (Hu : uniqueIds [sampleExhausted]) by apply NoDup_singleton.
  assert (Hex : Job.maxAttempts sampleExhausted ≤ Job.attempts sampleExhausted)
    by (simpl; lia).
  destruct (Hm 2000 "q"%string 1%nat 30000 (Mongodb.mkDb [sampleExhausted] [])
              "job_1"%string sampleExhausted Hu eq_refl Hex) as [Hm1 _].
  destruct (Hd 2000 "q"%string 1%nat 30000 (Drizzle.mkDb [sampleExhausted] [])
              "job_1"%string sampleExhausted Hu eq_refl Hex) as [Hd1 Hd2].
  split_and!; [exact Hm1|exact Hd1|exact Hd2].
Defined.

(** C3 as stated fails in the mongodb adapter: the claim path marks a
    pending job without attempts left as failed. *)
Lemma mongodb_claim_marks_exhausted_failed :
  ¬ (∀ (t : Z) (q : string) (n : nat) (vt : Z) (db : Mongodb.Db)
       (jobId : string) (j : Job.t),
       uniqueIds (Mongodb.jobsCollection db) →
       Mongodb.getJob jobId db = Some j → Job.attempts j = Job.maxAttempts j →
       Job.status <$> Mongodb.getJob jobId (Mongodb.dequeue t q n vt db).2 =
       Some (Job.status j)).
Proof.
  intros Hclaim.
  assert (Hu : uniqueIds [sampleExhausted]) by apply NoDup_singleton.
  specialize (Hclaim 2000 "q"%string 1%nat 30000
                (Mongodb.mkDb [sampleExhausted] []) "job_1"%string
                sampleExhausted Hu eq_refl eq_refl).
  vm_compute in Hclaim. discriminate Hclaim.
Qed.

(** *** Order of the claimed jobs *)

Section MongodbAll.
Import Mongodb.
Context (q : string) (t lu : Z).

Lemma findOneSorted_is_None (c : list Job.t) :
  findOneSorted (candidateFilter q t) createdAt_asc c = None →
  filter (candidateFilter q t) c = [].
Proof.
  intros Hnone. destruct (filter (candidateFilter q t) c) as [|d l] eqn:E; [done|].
  assert (d ∈ filter (candidateFilter q t) c) as Hin by (rewrite E; by left).
  apply list_elem_of_filter in Hin as [Hc Hd].
  by destruct (findOneSorted_None _ c Hnone d Hd).
Qed.

(** Claiming or failing a candidate takes exactly it out of the
    candidates. *)
Lemma candidates_updateOne (f : Job.t → Job.t) c cand :
  uniqueIds c → cand ∈ c → candidateFilter q t cand →
  (∀ d, ¬ candidateFilter q t (f d)) →
  length (filter (candidateFilter q t) c) =
  S (length (filter (candidateFilter q t) (updateOne (hasId (Job.id cand)) f c))).
Proof.
  unfold uniqueIds. intros Hu Hin Hc Hf.
  induction c as [|e c IH]; [by apply elem_of_nil in Hin|].
  rewrite fmap_cons in Hu. apply NoDup_cons in Hu as [Hne Hu]. simpl.
  destruct (decide (hasId (Job.id cand) e)) as [He|He].
  - assert (e = cand) as ->.
    { apply elem_of_cons in Hin as [->|Hin]; [done|]. exfalso. apply Hne.
      unfold hasId in He. rewrite He. by apply list_elem_of_fmap_2. }
    rewrite filter_cons_True by done.
    rewrite filter_cons_False by apply Hf. done.
  - apply elem_of_cons in Hin as [->|Hin]; [by destruct He|].
    rewrite !filter_cons. case_decide; simpl; by rewrite (IH Hu Hin).
Qed.

End MongodbAll.


Global Instance id_asc_total : Total Drizzle.id_asc.
Proof. intros a b. unfold Drizzle.id_asc. apply String.le_total. Qed.

Global Instance id_asc_trans : Transitive Drizzle.id_asc.
Proof.
  intros a b c. unfold Drizzle.id_asc.
  apply (transitivity (R := String.le)).
Qed.


Lemma byPrimaryKey_perm rows : Drizzle.byPrimaryKey rows ≡ₚ rows.
Proof. unfold Drizzle.byPrimaryKey. apply merge_sort_Permutation. Qed.




Example mongodb_claims_oldest_first :
  Job.id <$> (Mongodb.dequeue 2000 "q" 2 30000
                (Mongodb.mkDb [sampleJob; sampleDelayed] [])).1 =
  ["job_0"%string; "job_1"%string].
Proof. vm_compute. reflexivity. Qed.


(** The drizzle adapter picks the oldest jobs but returns them in the order
    of their ids, not of [createdAt]: of two jobs in the table, [job_2]
    created at [900] and [job_1] created at [1000], the claim returns
    [job_1] first. *)
Example drizzle_claim_returns_in_id_order :
  let older := newJob "q" "{}" None "job_2" 900 900 in
  (Drizzle.dequeue 2000 "q" 2 30000 (Drizzle.mkDb [older; sampleJob] [])).1 =
  [claimed 32000 2000 sampleJob; claimed 32000 2000 older].
Proof. vm_compute. reflexivity. Qed.

(** ** The claim about the worker loop *)

(** C2, as amended.  When the handler of a claimed job throws, the worker
    loop itself reports [handler_error] to the [logger] sink and performs
    [nack({ requeue: true })] on the job, which appends a [nack] event to
    the audit log.  So after one poll cycle with that handler registered,
    over any adapter that keeps the contract and whatever the order in
    which the calls of the jobs dispatched together reach the store,
    [getJob] shows the job pending with no lease and one more attempt, the
    sink holds the [handler_error] report, and [getLogs] holds a [nack]
    event; it holds a [handler_error] event only if it held one before or
    the handler logged one itself. *)
Theorem handler_error_requeues
    {St : Type} (A : Adapter.t St) (inv : St → Prop) `{!Contract A inv}
    (env : Worker.Env) (concurrency : nat) (visibilityTimeoutMs : Z)
    (q : string) (handler : Worker.QueueHandler) (r : Worker.Run St)
    (jobs : list Job.t) (claimedStore : St) (job : Job.t) :
  inv (Worker.store r) →
  (∀ ts, Worker.Interleaves ts (Worker.schedule env ts)) →
  Adapter.dequeue A (Worker.now env (Worker.reads r)) q concurrency
    visibilityTimeoutMs (Worker.store r) = (jobs, claimedStore) →
  job ∈ jobs →
  (handler job).2 = Worker.Throws →
  let r' := (Worker.pollOnce A env concurrency visibilityTimeoutMs
               (Worker.listen q handler []) r).2 in
  (∃ calls, Worker.dispatch env handler job =
     calls ++ [Worker.Logger "handler_error" (Job.id job);
               Worker.Nack (Job.id job) requeueTrue;
               Worker.LogEvent (Job.id job) "nack"
                 (Some (Worker.stringify env requeueTrue))]) ∧
  (∃ old new,
     Adapter.getJob A (Job.id job) (Worker.store r) = Some old ∧
     Adapter.getJob A (Job.id job) (Worker.store r') = Some new ∧
     Job.status new = pending ∧ Job.lockedUntil new = 0 ∧
     Job.attempts new = Job.attempts old + 1) ∧
  ("handler_error"%string, Job.id job) ∈ Worker.sink r' ∧
  logged A (Job.id job) "nack" (Worker.store r') ∧
  (∀ l, l ∈ Adapter.getLogs A (Job.id job) (Worker.store r') →
        JobLog.event l = "handler_error"%string →
        l ∈ Adapter.getLogs A (Job.id job) (Worker.store r) ∨
        ∃ data, Worker.CallLog "handler_error" data ∈ (handler job).1).
Proof.
  intros Hinv Hsched Hdeq Hjob Hthrows r'.
  subst r'. rewrite (pollOnce_single A env).
  destruct (pollQueue_throwing A inv env concurrency visibilityTimeoutMs q handler
              r jobs claimedStore job Hinv Hsched Hdeq Hjob Hthrows)
    as (old & Hold & [(new & Hnew & Hn & Hprog) Hsink Hlogs _]).
  split_and!.
  - rewrite dispatch_throws by done.
    by exists ((handler job).1 ≫= Worker.call env job).
  - exists old, new.
    destruct Hprog as [(pre & data & Hnil)|[[(data & [=]) _]|(_ & ? & ? & _)]].
    + by destruct pre.
    + by split_and!.
  - destruct Hsink as [Hin|?]; [by apply elem_of_nil in Hin|done].
  - destruct Hprog as [(pre & data & Hnil)|[[(data & [=]) _]|(_ & _ & _ & ?)]];
      [by destruct pre|done].
  - intros l Hl He. destruct (Hlogs l Hl) as [?|(data & Hd)]; [by left|right].
    rewrite He in Hd. apply dispatch_logs in Hd as [[=]|[[=]|?]]. eauto.
Qed.

Lemma handler_error_requeues_witness :
  let r := Worker.mkRun (Mongodb.mkDb [sampleJob] []) 0 [] in
  let r' := (Worker.pollOnce mongodbAdapter sampleEnv 1 30000
               (Worker.listen "q" alwaysThrows []) r).2 in
  ∃ old new,
    Mongodb.getJob "job_1" (Worker.store r) = Some old ∧
    Mongodb.getJob "job_1" (Worker.store r') = Some new ∧
    Job.status new = pending ∧ Job.lockedUntil new = 0 ∧
    Job.attempts new = Job.attempts old + 1.
Proof.
  intros r r'.
  assert (Hu : uniqueIds [sampleJob]) by apply NoDup_singleton.
  refine (proj1 (proj2
    (handler_error_requeues mongodbAdapter
       (λ db, uniqueIds (Mongodb.jobsCollection db)) sampleEnv 1%nat 30000
       "q"%string alwaysThrows r [claimed 32000 2000 sampleJob]
       (Mongodb.mkDb [claimed 32000 2000 sampleJob] [])
       (claimed 32000 2000 sampleJob) Hu
       (λ ts, Interleaves_concat ts) _ _ eq_refl))).
  - vm_compute. reflexivity.
  - apply list_elem_of_singleton. reflexivity.
Defined.

(** C2 as stated fails: after one poll cycle over a handler that throws at
    once, the audit log of the job holds one event, [nack], and no
    [handler_error] event; [handler_error] went to the sink. *)
Lemma handler_error_is_not_audited :
  let r := Worker.mkRun (Mongodb.mkDb [sampleJob] []) 0 [] in
  let r' := (Worker.pollOnce mongodbAdapter sampleEnv 1 30000
               (Worker.listen "q" alwaysThrows []) r).2 in
  JobLog.event <$> Mongodb.getLogs "job_1" (Worker.store r') = ["nack"%string] ∧
  ¬ logged mongodbAdapter "job_1" "handler_error" (Worker.store r') ∧
  Worker.sink r' = [("handler_error"%string, "job_1"%string)] ∧
  (Job.status <$> Mongodb.getJob "job_1" (Worker.store r'),
   Job.attempts <$> Mongodb.getJob "job_1" (Worker.store r')) =
  (Some pending, Some 1).
Proof.
  intros r r'.
  assert (Hlogs : Mongodb.getLogs "job_1" (Worker.store r') =
            [JobLog.mk "log_2" "job_1" "q" "nack" (Some "{}"%string) 2002])
    by (vm_compute; reflexivity).
  split_and!.
  - by rewrite Hlogs.
  - intros (l & Hl & He).
    change (l ∈ Mongodb.getLogs "job_1" (Worker.store r')) in Hl.
    rewrite Hlogs in Hl.
    apply list_elem_of_singleton in Hl as ->. discriminate He.
  - vm_compute. reflexivity.
  - vm_compute. reflexivity.
Qed.

(** The redis adapter does not look at the status: a pending job that was
    marked failed by [nack] with [requeue = false] stays in the pending set
    and is claimed. *)
Example redis_claims_failed_job :
  ∃ stored,
    Redis.enqueue "job_1" 1000 1000 "q" "{}" onlyMeta redisEmpty =
      Some (sampleJobMeta, stored) ∧
    let db := Redis.nack 1500 "job_1" requeueFalse stored in
    Job.status <$> Redis.getJob "job_1" db = Some failed ∧
    Job.id <$> (Redis.dequeue 2000 "q" 1 30000 db).1 = ["job_1"%string].
Proof. eexists. split; [reflexivity|]. vm_compute. split; reflexivity. Qed.

(** The scenario of the specification: a job with three attempts and a
    handler that always throws.  After one cycle the job is pending with one
    attempt, after three with three; the fourth cycle claims nothing, and in
    the mongodb adapter it marks the job failed. *)
Example handler_error_scenario :
  let m0 := Worker.mkRun (Mongodb.mkDb [sampleJob] []) 0 [] in
  let d0 := Worker.mkRun (Drizzle.mkDb [sampleJob] []) 0 [] in
  progress mongodbAdapter (pollCycle mongodbAdapter m0) = Some (pending, 1) ∧
  progress mongodbAdapter
    (pollCycle mongodbAdapter (pollCycle mongodbAdapter (pollCycle mongodbAdapter m0)))
  = Some (pending, 3) ∧
  progress mongodbAdapter
    (pollCycle mongodbAdapter
       (pollCycle mongodbAdapter (pollCycle mongodbAdapter (pollCycle mongodbAdapter m0))))
  = Some (failed, 3) ∧
  progress drizzleAdapter
    (pollCycle drizzleAdapter
       (pollCycle drizzleAdapter (pollCycle drizzleAdapter (pollCycle drizzleAdapter d0))))
  = Some (pending, 3).
Proof. vm_compute. split_and!; reflexivity. Qed.

(** * Further properties of the code *)

(** ** core/utils.ts: [clamp] and the ends of [defaultBackoff] *)

Section ClampFacts.
Import Utils.
Local Open Scope Q_scope.

Lemma Qle_bool_false a b : Qle_bool a b = false ↔ b < a.
Proof.
  split.
  - intros E. apply Qnot_le_lt. intros Hle. apply Qle_bool_iff in Hle. congruence.
  - intros Hlt. destruct (Qle_bool a b) eqn:E; [|reflexivity].
    apply Qle_bool_iff in E. exfalso. by apply (Qlt_not_le _ _ Hlt).
Qed.

Lemma Math_max_le_l a b : a <= Math_max a b.
Proof.
  unfold Math_max. destruct (Qle_bool a b) eqn:E; [|apply Qle_refl].
  by apply Qle_bool_iff.
Qed.

Lemma Math_min_Fin a q :
  (q <= a → Math_min a (Fin q) == q) ∧ (a <= q → Math_min a (Fin q) == a).
Proof.
  simpl. destruct (Qle_bool a q) eqn:E.
  - apply Qle_bool_iff in E. split; intros H; [by apply Qle_antisym|reflexivity].
  - apply Qle_bool_false in E. split; intros H; [reflexivity|].
    exfalso. by apply (Qlt_not_le _ _ E).
Qed.

Lemma Math_max_spec a b :
  (a <= b → Math_max a b == b) ∧ (b <= a → Math_max a b == a).
Proof.
  unfold Math_max. destruct (Qle_bool a b) eqn:E.
  - apply Qle_bool_iff in E. split; intros H; [reflexivity|by apply Qle_antisym].
  - apply Qle_bool_false in E. split; intros H; [|reflexivity].
    exfalso. by apply (Qlt_not_le _ _ E).
Qed.

Lemma pow2_small (k : Z) : (-1074 <= k <= 0)%Z → pow2 k = Fin (Qpower 2 k).
Proof.
  intros [H0 H1]. unfold pow2.
  destruct (Z.ltb_spec 1023 k); [lia|].
  destruct (Z.ltb_spec k (-1074)); [lia|]. reflexivity.
Qed.

Lemma pow2_underflow (k : Z) : (k < -1074)%Z → pow2 k = Fin 0.
Proof.
  intros H. unfold pow2.
  destruct (Z.ltb_spec 1023 k); [lia|].
  destruct (Z.ltb_spec k (-1074)); [|lia]. reflexivity.
Qed.

Lemma Qpower_2_small (k : Z) : (k <= 0)%Z → 0 < Qpower 2 k ∧ Qpower 2 k <= 1.
Proof.
  intros Hk. split; [by apply Qpower_0_lt|].
  change 1 with (Qpower 2 0). by apply Qpower_le_compat_l.
Qed.
End ClampFacts.

Lemma clamp_of_number (v : Utils.number) (lo hi : Q) :
  Number.clamp (Number.of_number v) (Number.Finite lo) (Number.Finite hi) =
  Number.Finite (Utils.clamp v lo hi).
Proof.
  unfold Number.clamp, Utils.clamp, Utils.Math_max.
  destruct v as [q|]; simpl.
  - destruct (Qle_bool hi q); simpl; by destruct (Qle_bool lo _).
  - by destruct (Qle_bool lo hi).
Qed.

(** X1.  For [v] not [NaN] and [min <= max] (so that neither bound is
    [NaN]), [clamp] returns a number between [min] and [max]: [v] itself
    when it lies between them, [min] when [v] is below, [max] when it is
    above.  [clamp] of [NaN] is [NaN].  On a finite double or [+Infinity]
    and finite bounds it is [Utils.clamp]. *)
Theorem clamp_within_bounds :
  (∀ v lo hi : Number.t,
     v ≠ Number.NaN → Number.le lo hi →
     Number.le lo (Number.clamp v lo hi) ∧
     Number.le (Number.clamp v lo hi) hi ∧
     (Number.le lo v → Number.le v hi → Number.same (Number.clamp v lo hi) v) ∧
     (Number.le v lo → Number.same (Number.clamp v lo hi) lo) ∧
     (Number.le hi v → Number.same (Number.clamp v lo hi) hi)) ∧
  (∀ lo hi : Number.t, Number.clamp Number.NaN lo hi = Number.NaN) ∧
  (∀ (v : Utils.number) (lo hi : Q),
     Number.clamp (Number.of_number v) (Number.Finite lo) (Number.Finite hi) =
     Number.Finite (Utils.clamp v lo hi)).
Proof.
  split_and!; [|by intros [] []|exact clamp_of_number].
  intros v lo hi Hv Hle. unfold Number.clamp.
  destruct v as [q| | |], lo as [l| | |], hi as [h| | |];
    try done; simpl in *;
    repeat match goal with
    | |- context [Qle_bool ?a ?b] =>
        let E := fresh "E" in
        destruct (Qle_bool a b) eqn:E;
        [apply Qle_bool_iff in E|apply Qle_bool_false in E]; simpl
    end;
    (split_and!; try done; try intros; lra).
Qed.

Lemma clamp_within_bounds_witness :
  Number.le (Number.Finite 0) (Number.Finite 10) ∧
  Number.le (Number.Finite 0)
    (Number.clamp (Number.Finite 25) (Number.Finite 0) (Number.Finite 10)) ∧
  Number.le
    (Number.clamp (Number.Finite 25) (Number.Finite 0) (Number.Finite 10))
    (Number.Finite 10).
Proof.
  assert (H : Number.le (Number.Finite 0) (Number.Finite 10))
    by (apply Qle_bool_iff; reflexivity).
  assert (Hv : Number.Finite 25 ≠ Number.NaN) by discriminate.
  split; [exact H|].
  destruct clamp_within_bounds as (Hclamp & _ & _).
  destruct (Hclamp (Number.Finite 25) (Number.Finite 0) (Number.Finite 10) Hv H)
    as (H1 & H2 & _).
  split; [exact H1|exact H2].
Defined.

Example clamp_NaN :
  Number.clamp Number.NaN (Number.Finite 0) (Number.Finite 10) = Number.NaN.
Proof. reflexivity. Qed.

(** X2.  The ends of [defaultBackoff]: the delay is never negative; it is
    the cap [60000] from the seventh attempt on; for [attempts <= 0] it is
    still [1000 * 2^(attempts-1)], a fraction of the base ([500] for [0]),
    down to the smallest power of two a double holds, and [0] below that. *)
Theorem defaultBackoff_ends :
  (∀ n : Z, (0 <= Utils.defaultBackoff n)%Q) ∧
  (∀ n : Z, 7 ≤ n → (Utils.defaultBackoff n == 60000)%Q) ∧
  (∀ n : Z, -1073 ≤ n → n ≤ 0 →
     (Utils.defaultBackoff n == 1000 * Qpower 2 (n - 1))%Q ∧
     (0 < Utils.defaultBackoff n)%Q ∧ (Utils.defaultBackoff n <= 500)%Q) ∧
  (∀ n : Z, n < -1073 → (Utils.defaultBackoff n == 0)%Q).
Proof.
  split_and!.
  - intros n. unfold Utils.defaultBackoff, Utils.clamp. apply Math_max_le_l.
  - intros n Hn. rewrite defaultBackoff_closed by lia.
    unfold Utils.backoff_spec.
    assert (2 ^ 6 <= 2 ^ (n - 1))%Z by (apply Z.pow_le_mono_r; lia).
    change (2 ^ 6)%Z with 64%Z in *.
    rewrite Z.min_l, Z.max_r by lia. reflexivity.
  - intros n Hlo Hhi.
    assert (Heq : (Utils.defaultBackoff n == 1000 * Qpower 2 (n - 1))%Q).
    { unfold Utils.defaultBackoff, Utils.clamp.
      rewrite pow2_small by lia.
      destruct (Qpower_2_small (n - 1)) as [Hpos Hone]; [lia|].
      assert (H1000 : (1000 * Qpower 2 (n - 1) <= 1000)%Q).
      { rewrite <- (Qmult_1_r 1000) at 2. apply Qmult_le_l; [reflexivity|assumption]. }
      assert (H0 : (0 < 1000 * Qpower 2 (n - 1))%Q).
      { apply Qmult_lt_0_compat; [reflexivity|assumption]. }
      unfold Utils.mul.
      assert (Emax : Qle_bool (1000 * Qpower 2 (n - 1)) Utils.MAX_VALUE = true).
      { apply Qle_bool_iff. apply Qle_trans with 1000%Q; [assumption|].
        unfold Utils.MAX_VALUE. change 1000%Q with (inject_Z 1000).
        rewrite <- Zle_Qle. pose proof MAX_VALUE_large. lia. }
      rewrite Emax.
      destruct (Math_min_Fin 60000 (1000 * Qpower 2 (n - 1))) as [Hmin _].
      destruct (Math_max_spec 0 (Utils.Math_min 60000 (Utils.Fin (1000 * Qpower 2 (n - 1)))))
        as [Hmax _].
      assert (Hm : (Utils.Math_min 60000 (Utils.Fin (1000 * Qpower 2 (n - 1)))
                    == 1000 * Qpower 2 (n - 1))%Q).
      { apply Hmin. apply Qle_trans with 1000%Q; [assumption|].
        apply Qle_bool_iff. reflexivity. }
      rewrite Hmax; [exact Hm|]. rewrite Hm. by apply Qlt_le_weak. }
    split_and!; [exact Heq| |].
    + rewrite Heq. apply Qmult_lt_0_compat; [reflexivity|].
      apply Qpower_0_lt. reflexivity.
    + rewrite Heq.
      assert (Hhalf : (Qpower 2 (n - 1) <= Qpower 2 (-1))%Q).
      { apply Qpower_le_compat_l; [lia|]. apply Qle_bool_iff. reflexivity. }
      apply Qle_trans with (1000 * Qpower 2 (-1))%Q.
      * apply Qmult_le_l; [reflexivity|assumption].
      * apply Qle_bool_iff. reflexivity.
  - intros n Hn. unfold Utils.defaultBackoff, Utils.clamp.
    rewrite pow2_underflow by lia. reflexivity.
Qed.

(** ** [enqueue], and [createQueue] on top of an adapter *)

Lemma mongodb_enqueueStores : enqueueStores mongodbAdapter.
Proof.
  intros g v t q p o db job db'. simpl. unfold Mongodb.enqueue.
  set (jobDoc := newJob q p o g v t).
  destruct (Mongodb.findOne _ _) eqn:Hfind; [discriminate|].
  intros [= <- <-]. split_and!; [reflexivity| |reflexivity].
  intros j. unfold Mongodb.getJob, Mongodb.findOne in *.
  cbn [Mongodb.jobsCollection].
  rewrite filter_app. case_decide as Hj.
  - subst j. apply head_None in Hfind. rewrite Hfind. simpl.
    rewrite filter_cons_True by reflexivity. reflexivity.
  - rewrite (filter_cons_False _ _ []), filter_nil, app_nil_r; [reflexivity|].
    unfold hasId. congruence.
Qed.

Lemma drizzle_enqueueStores : enqueueStores drizzleAdapter.
Proof.
  intros g v t q p o db job db'. simpl. unfold Drizzle.enqueue.
  set (jobData := newJob q p o g v t).
  destruct (Drizzle.select _ _) eqn:Hsel; [|discriminate].
  intros [= <- <-]. split_and!; [reflexivity| |reflexivity].
  intros j. rewrite !drizzle_getJob_head. cbn [Drizzle.jobs].
  unfold Drizzle.select in *.
  rewrite filter_app. case_decide as Hj.
  - subst j. rewrite Hsel. simpl.
    rewrite filter_cons_True by reflexivity. reflexivity.
  - rewrite (filter_cons_False _ _ []), filter_nil, app_nil_r; [reflexivity|].
    unfold hasId. congruence.
Qed.

Lemma redis_enqueueStores : enqueueStores redisAdapter.
Proof.
  intros g v t q p o db job db'. simpl. unfold Redis.enqueue.
  set (jobData := newJob q p o g v t).
  destruct (Job.meta jobData) eqn:Hmeta; [|discriminate].
  intros [= <- <-]. split_and!; [reflexivity| |reflexivity].
  intros j. unfold Redis.getJob, Redis.hGetAll. cbn [Redis.hashes].
  case_decide as Hj.
  - subst j. rewrite lookup_insert_eq. reflexivity.
  - rewrite lookup_insert_ne; [reflexivity|]. intros Heq. by apply Hj.
Qed.




(** X4.  [createQueue(adapter).enqueue] on an adapter that keeps the
    contract: when it returns, the job is in the store as returned, and the
    audit log of the job has gained exactly one entry, the [enqueue] event
    with the payload, stamped with the queue name; nothing else that
    [getJob] and [getLogs] show has changed. *)
Theorem createQueue_enqueue_audited
    {St : Type} (A : Adapter.t St) (inv : St → Prop) `{!Contract A inv}
    (stringify : string → string)
    (generated : string) (visibleNow currentTime : Z) (logId : string) (logTime : Z)
    (queueName payload : string) (options : option EnqueueOptions.t)
    (s : St) (job : Job.t) (s' : St) :
  enqueueStores A →
  Queue.enqueue A stringify generated visibleNow currentTime logId logTime
    queueName payload options s = Some (job, s') →
  job = newJob queueName payload options generated visibleNow currentTime ∧
  (∀ j, Queue.getJob A j s' =
        if decide (j = Job.id job) then Some job else Queue.getJob A j s) ∧
  (∀ j x, x ∈ Queue.getLogs A j s' ↔
          x ∈ Queue.getLogs A j s ∨
          (j = Job.id job ∧
           x = JobLog.mk logId (Job.id job) queueName "enqueue"
                 (Some (stringify payload)) logTime)) ∧
  logged A (Job.id job) "enqueue" s'.
Proof.
  intros Hstores. unfold Queue.enqueue, Queue.getJob, Queue.getLogs.
  destruct (Adapter.enqueue A _ _ _ _ _ _ s) as [[job1 s1]|] eqn:E; [|discriminate].
  intros [= -> <-].
  destruct (Hstores _ _ _ _ _ _ _ _ _ E) as (Hjob & Hget & Hlogs).
  assert (Hq : Job.queue job = queueName) by (by rewrite Hjob).
  assert (Hin : ∀ j x,
    x ∈ Adapter.getLogs A j
          (Adapter.logEvent A logTime logId (Job.id job) "enqueue"
             (Some (stringify payload)) s1) ↔
    x ∈ Adapter.getLogs A j s ∨
    (j = Job.id job ∧
     x = JobLog.mk logId (Job.id job) queueName "enqueue"
           (Some (stringify payload)) logTime)).
  { intros j x. rewrite contract_logEvent_logs, Hlogs, (Hget (Job.id job)).
    rewrite decide_True by reflexivity. split.
    - intros [H|[<- (job' & [= <-] & ->)]]; [by left|right]. by rewrite Hq.
    - intros [H|[-> ->]]; [by left|right].
      split; [reflexivity|]. exists job. by rewrite Hq. }
  split_and!.
  - exact Hjob.
  - intros j. rewrite contract_logEvent. apply Hget.
  - exact Hin.
  - eexists. split; [apply Hin; right; split; reflexivity|reflexivity].
Qed.

Lemma createQueue_enqueue_audited_witness :
  ∃ job s',
    Queue.enqueue mongodbAdapter (λ p, p) "job_2" 1500 1500 "log_9" 1501
      "q" "{}" None sampleMongo = Some (job, s') ∧
    Queue.getJob mongodbAdapter "job_2" s' = Some job ∧
    logged mongodbAdapter (Job.id job) "enqueue" s'.
Proof.
  destruct (Queue.enqueue mongodbAdapter (λ p, p) "job_2" 1500 1500 "log_9" 1501
              "q" "{}" None sampleMongo) as [[job s']|] eqn:E;
    [|by vm_compute in E].
  exists job, s'. split; [reflexivity|].
  destruct (createQueue_enqueue_audited mongodbAdapter _ _ _ _ _ _ _ _ _ _ _ _ _
              mongodb_enqueueStores E) as (Hjob & Hget & _ & Hlogged).
  split; [|exact Hlogged].
  etransitivity; [exact (Hget "job_2"%string)|]. rewrite Hjob. reflexivity.
Defined.

(** X5.  [createQueue(adapter).remove] does not delete: on an adapter that
    keeps the contract, a job that is in the store stays in it, marked
    [failed], with its attempts, its lease and everything it carries as they
    were, and its audit log gains one [delete] entry; on an id that is not in
    the store nothing that [getJob] and [getLogs] show changes. *)
Theorem createQueue_remove_keeps_job
    {St : Type} (A : Adapter.t St) (inv : St → Prop) `{!Contract A inv}
    (nackTime : Z) (logId : string) (logTime : Z) (jobId : string) (s : St) :
  let s' := Queue.remove A nackTime logId logTime jobId s in
  (∀ j, Queue.getJob A j s' =
        if decide (jobId = j)
        then Patch.apply (Patch.fail nackTime) <$> Queue.getJob A j s
        else Queue.getJob A j s) ∧
  (∀ d, Queue.getJob A jobId s = Some d →
        ∃ d', Queue.getJob A jobId s' = Some d' ∧ Job.status d' = failed ∧
          Job.lockedUntil d' = Job.lockedUntil d ∧
          Job.attempts d' = Job.attempts d ∧ persists d d') ∧
  (∀ j x, x ∈ Queue.getLogs A j s' ↔
          x ∈ Queue.getLogs A j s ∨
          (jobId = j ∧ ∃ job, Queue.getJob A jobId s = Some job ∧
             x = JobLog.mk logId jobId (Job.queue job) "delete"
                   (Some "{}"%string) logTime)).
Proof.
  intros s'. unfold s', Queue.remove, Queue.getJob, Queue.getLogs.
  assert (Hget : ∀ j,
    Adapter.getJob A j
      (Adapter.logEvent A logTime logId jobId "delete" (Some "{}"%string)
         (Adapter.nack A nackTime jobId requeueFalse s)) =
    if decide (jobId = j)
    then Patch.apply (Patch.fail nackTime) <$> Adapter.getJob A j s
    else Adapter.getJob A j s).
  { intros j. rewrite contract_logEvent, contract_nack. reflexivity. }
  split_and!.
  - exact Hget.
  - intros d Hd. eexists. split.
    + change (Some {| NackOptions.requeue := Some false; NackOptions.delayMs := None |})
        with requeueFalse.
      rewrite Hget, decide_True, Hd by reflexivity. reflexivity.
    + unfold persists. simpl. split_and!; (reflexivity || lia).
  - intros j x.
    change (Some {| NackOptions.requeue := Some false; NackOptions.delayMs := None |})
      with requeueFalse.
    rewrite contract_logEvent_logs, contract_nack_logs, contract_nack.
    rewrite decide_True by reflexivity. split.
    + intros [H|[<- (job & Hjob & ->)]]; [by left|right].
      split; [reflexivity|].
      destruct (Adapter.getJob A jobId s) as [d|]; [|discriminate].
      injection Hjob as <-. by exists d.
    + intros [H|[<- (job & Hjob & ->)]]; [by left|right].
      split; [reflexivity|]. rewrite Hjob. eexists. split; reflexivity.
Qed.

Lemma createQueue_remove_keeps_job_witness :
  Job.status <$>
    Queue.getJob mongodbAdapter "job_1"
      (Queue.remove mongodbAdapter 2000 "log_9" 2001 "job_1" sampleMongo)
  = Some failed.
Proof.
  destruct (createQueue_remove_keeps_job mongodbAdapter _ 2000 "log_9" 2001
              "job_1" sampleMongo) as (Hget & _).
  etransitivity; [exact (f_equal (fmap Job.status) (Hget "job_1"%string))|].
  reflexivity.
Defined.

(** ** What every sequence of adapter calls keeps *)

(** *** Unique ids *)

Lemma deleteOne_sublist {A} (P : A → Prop) `{!∀ x, Decision (P x)} (c : list A) :
  Mongodb.deleteOne P c `sublist_of` c.
Proof.
  induction c as [|d c IH]; simpl; [constructor|].
  case_decide; [by apply sublist_cons|by apply sublist_skip].
Qed.

Lemma uniqueIds_snoc c job :
  uniqueIds c → Forall (λ d, ¬ hasId (Job.id job) d) c → uniqueIds (c ++ [job]).
Proof.
  unfold uniqueIds. intros Hc Hfresh. rewrite fmap_app. apply NoDup_app.
  split_and!; [assumption| |apply NoDup_singleton].
  intros x Hx Hx'. apply list_elem_of_singleton in Hx'. subst x.
  apply list_elem_of_fmap in Hx as (d & Hid & Hd).
  rewrite Forall_forall in Hfresh. apply (Hfresh d Hd). unfold hasId. congruence.
Qed.

Lemma mongodb_step_uniqueIds op db :
  uniqueIds (Mongodb.jobsCollection db) →
  uniqueIds (Mongodb.jobsCollection (step mongodbAdapter db op)).
Proof.
  intros Hu. destruct op as [g v t q p o|t q n vt|t j del|t j o|t l j e dt]; simpl.
  - unfold Mongodb.enqueue.
    destruct (Mongodb.findOne _ _) eqn:Hfind; [assumption|].
    simpl. apply uniqueIds_snoc; [assumption|].
    apply findOne_None in Hfind. exact Hfind.
  - destruct (Mongodb.dequeue t q n vt db) as [jobs db'] eqn:E.
    destruct (mongodb_dequeue_claims _ _ _ _ _ _ _ Hu E) as [Hc _].
    apply Hc.
  - unfold Mongodb.ack. destruct del; simpl.
    + unfold uniqueIds. eapply sublist_NoDup; [exact Hu|].
      apply fmap_sublist. apply deleteOne_sublist.
    + unfold uniqueIds. rewrite updateOne_ids; [assumption|]. intros. apply Patch_apply_id.
  - unfold Mongodb.nack. destruct (wantsRequeue o); simpl;
      unfold uniqueIds; (rewrite updateOne_ids; [assumption|]); intros; apply Patch_apply_id.
  - unfold Mongodb.logEvent. by destruct (Mongodb.findOne _ _).
Qed.

Lemma drizzle_step_uniqueIds op db :
  uniqueIds (Drizzle.jobs db) →
  uniqueIds (Drizzle.jobs (step drizzleAdapter db op)).
Proof.
  intros Hu. destruct op as [g v t q p o|t q n vt|t j del|t j o|t l j e dt]; simpl.
  - unfold Drizzle.enqueue.
    destruct (Drizzle.select _ _) eqn:Hsel; [|assumption].
    simpl. apply uniqueIds_snoc; [assumption|].
    apply Forall_forall. intros d Hd Hid.
    assert (d ∈ Drizzle.select (hasId (Job.id (newJob q p o g v t))) (Drizzle.jobs db))
      as Hin by (apply list_elem_of_filter; by split).
    rewrite Hsel in Hin. by apply elem_of_nil in Hin.
  - destruct (Drizzle.dequeue t q n vt db) as [jobs db'] eqn:E.
    by destruct (drizzle_dequeue_spec _ _ _ _ _ _ _ Hu E) as [Hc _].
  - unfold Drizzle.ack. destruct del; simpl.
    + unfold uniqueIds, Drizzle.delete. eapply sublist_NoDup; [exact Hu|].
      apply fmap_sublist. apply sublist_filter.
    + unfold uniqueIds. rewrite update_ids; [assumption|]. intros. apply Patch_apply_id.
  - unfold Drizzle.nack. destruct (wantsRequeue o); simpl;
      unfold uniqueIds; (rewrite update_ids; [assumption|]); intros; apply Patch_apply_id.
  - unfold Drizzle.logEvent. by destruct (head _).
Qed.

Lemma run_invariant {St} (A : Adapter.t St) (inv : St → Prop) :
  (∀ op s, inv s → inv (step A s op)) →
  ∀ ops s, inv s → inv (run A s ops).
Proof.
  intros Hstep ops. unfold run.
  induction ops as [|op ops IH]; intros s Hs; simpl; [assumption|].
  apply IH, Hstep, Hs.
Qed.

(** X6.  In the mongodb and the drizzle adapter, no sequence of calls of
    [enqueue], [dequeue], [ack], [nack] and [logEvent] leaves two jobs under
    one id: the stores that can be reached from an empty one have unique
    ids. *)
Theorem uniqueIds_kept (ops : list Op) :
  (∀ db, uniqueIds (Mongodb.jobsCollection db) →
         uniqueIds (Mongodb.jobsCollection (run mongodbAdapter db ops))) ∧
  (∀ db, uniqueIds (Drizzle.jobs db) →
         uniqueIds (Drizzle.jobs (run drizzleAdapter db ops))) ∧
  uniqueIds (Mongodb.jobsCollection (run mongodbAdapter (Mongodb.mkDb [] []) ops)) ∧
  uniqueIds (Drizzle.jobs (run drizzleAdapter (Drizzle.mkDb [] []) ops)).
Proof.
  assert (Hm : ∀ db, uniqueIds (Mongodb.jobsCollection db) →
                     uniqueIds (Mongodb.jobsCollection (run mongodbAdapter db ops))).
  { apply (run_invariant mongodbAdapter (λ db, uniqueIds (Mongodb.jobsCollection db))).
    apply mongodb_step_uniqueIds. }
  assert (Hd : ∀ db, uniqueIds (Drizzle.jobs db) →
                     uniqueIds (Drizzle.jobs (run drizzleAdapter db ops))).
  { apply (run_invariant drizzleAdapter (λ db, uniqueIds (Drizzle.jobs db))).
    apply drizzle_step_uniqueIds. }
  split_and!; [exact Hm|exact Hd|apply Hm; constructor|apply Hd; constructor].
Qed.

(** *** A job stays, with what identifies it *)

Lemma persists_refl d : persists d d.
Proof. unfold persists. split_and!; (reflexivity || lia). Qed.

Lemma persists_trans d1 d2 d3 : persists d1 d2 → persists d2 d3 → persists d1 d3.
Proof.
  unfold persists. intros (?&?&?&?&?&?&?) (?&?&?&?&?&?&?).
  split_and!; (congruence || lia).
Qed.

Lemma persists_apply p d :
  Patch.attempts p = None → persists d (Patch.apply p d).
Proof.
  intros Hp. unfold persists. simpl. rewrite Hp. simpl.
  split_and!; (reflexivity || lia).
Qed.

Lemma persists_claimed lu t d : persists d (claimed lu t d).
Proof. unfold persists, claimed. simpl. split_and!; (reflexivity || lia). Qed.

Lemma nackPatch_attempts t opts : Patch.attempts (nackPatch t opts) = None.
Proof. unfold nackPatch. by destruct (wantsRequeue opts). Qed.

Section StepPersists.
Context {St : Type} (A : Adapter.t St) (inv : St → Prop) `{!Contract A inv}.
Context (allowed : string → Op → Prop).
Hypothesis inv_step : ∀ op s, inv s → inv (step A s op).
Hypothesis allowed_keeps : ∀ j op, allowed j op → ¬ deletes j op.
Hypothesis enqueue_other : ∀ g v t q p o s job s' j d,
  allowed j (OpEnqueue g v t q p o) →
  Adapter.enqueue A g v t q p o s = Some (job, s') →
  Adapter.getJob A j s = Some d → Adapter.getJob A j s' = Some d.
Hypothesis delete_other : ∀ t x j s,
  x ≠ j → Adapter.getJob A j (Adapter.ack A t x true s) = Adapter.getJob A j s.
Hypothesis dequeue_persists : ∀ t q n vt s j d,
  inv s → Adapter.getJob A j s = Some d →
  ∃ d', Adapter.getJob A j (Adapter.dequeue A t q n vt s).2 = Some d' ∧
        persists d d'.

Lemma step_persists op s j d :
  inv s → allowed j op → Adapter.getJob A j s = Some d →
  ∃ d', Adapter.getJob A j (step A s op) = Some d' ∧ persists d d'.
Proof.
  intros Hs Hop Hd.
  destruct op as [g v t q p o|t q n vt|t x del|t x o|t l x e dt]; simpl.
  - destruct (Adapter.enqueue A g v t q p o s) as [[job s']|] eqn:E.
    + exists d. split; [by eapply enqueue_other|apply persists_refl].
    + exists d. split; [assumption|apply persists_refl].
  - by apply dequeue_persists.
  - destruct del.
    + assert (x ≠ j) as Hne by (intros ->; by apply (allowed_keeps _ _ Hop)).
      exists d. rewrite delete_other by assumption.
      split; [assumption|apply persists_refl].
    + rewrite contract_ack. case_decide.
      * rewrite Hd. eexists. split; [reflexivity|]. by apply persists_apply.
      * exists d. split; [assumption|apply persists_refl].
  - rewrite contract_nack. case_decide.
    + rewrite Hd. eexists. split; [reflexivity|].
      apply persists_apply, nackPatch_attempts.
    + exists d. split; [assumption|apply persists_refl].
  - rewrite contract_logEvent. exists d. split; [assumption|apply persists_refl].
Qed.

Lemma run_persists ops :
  ∀ s j d,
  inv s → Forall (allowed j) ops → Adapter.getJob A j s = Some d →
  ∃ d', Adapter.getJob A j (run A s ops) = Some d' ∧ persists d d'.
Proof.
  unfold run. induction ops as [|op ops IH]; intros s j d Hs Hops Hd; simpl.
  - exists d. split; [assumption|apply persists_refl].
  - apply Forall_cons in Hops as [Hop Hops].
    destruct (step_persists op s j d Hs Hop Hd) as (d1 & Hd1 & Hp1).
    destruct (IH (step A s op) j d1 (inv_step _ _ Hs) Hops Hd1) as (d2 & Hd2 & Hp2).
    exists d2. split; [assumption|by eapply persists_trans].
Qed.
End StepPersists.

Lemma findOne_deleteOne_ne x j c :
  x ≠ j →
  Mongodb.findOne (hasId j) (Mongodb.deleteOne (hasId x) c) = Mongodb.findOne (hasId j) c.
Proof.
  intros Hne. induction c as [|d c IH]; simpl; [reflexivity|].
  case_decide as Hx.
  - rewrite findOne_cons. rewrite decide_False; [reflexivity|].
    unfold hasId in *. congruence.
  - rewrite !findOne_cons. by rewrite IH.
Qed.

Lemma mongodb_run_persists ops db j d :
  uniqueIds (Mongodb.jobsCollection db) →
  Forall (λ op, ¬ deletes j op) ops →
  Mongodb.getJob j db = Some d →
  ∃ d', Mongodb.getJob j (run mongodbAdapter db ops) = Some d' ∧ persists d d'.
Proof.
  apply (run_persists mongodbAdapter (λ db, uniqueIds (Mongodb.jobsCollection db))
           (λ j op, ¬ deletes j op)).
  - apply mongodb_step_uniqueIds.
  - auto.
  - intros g v t q p o s job s' x dx _ E Hx.
    destruct (mongodb_enqueueStores _ _ _ _ _ _ _ _ _ E) as (_ & Hget & _).
    rewrite Hget. case_decide as Hid; [|assumption]. exfalso.
    change (Mongodb.enqueue g v t q p o s = Some (job, s')) in E.
    change (Mongodb.getJob x s = Some dx) in Hx.
    unfold Mongodb.enqueue in E.
    destruct (Mongodb.findOne _ _) eqn:Hfind; [discriminate|].
    injection E as <- _. unfold Mongodb.getJob in Hx. subst x. congruence.
  - intros t x y s Hne.
    change (Mongodb.getJob y (Mongodb.ack t x true s) = Mongodb.getJob y s).
    unfold Mongodb.getJob, Mongodb.ack. cbn [Mongodb.jobsCollection].
    by apply findOne_deleteOne_ne.
  - intros t q n vt s x dx Hs Hx.
    change (∃ d', Mongodb.getJob x (Mongodb.dequeue t q n vt s).2 = Some d' ∧
                  persists dx d').
    change (Mongodb.getJob x s = Some dx) in Hx.
    destruct (Mongodb.dequeue t q n vt s) as [jobs s'] eqn:E.
    destruct (mongodb_dequeue_claims _ _ _ _ _ _ _ Hs E) as [Hc _].
    unfold Mongodb.getJob in *. cbn [snd].
    destruct (claims_evolves _ _ _ _ _ _ Hc x) as [Hsame|(d0 & H0 & _ & Hcase)].
    + exists dx. split; [congruence|apply persists_refl].
    + rewrite Hx in H0. injection H0 as <-.
      destruct Hcase as [[_ Hafter]|(_ & Hafter & _)]; rewrite Hafter;
        eexists; (split; [reflexivity|]);
        [by apply persists_apply|apply persists_claimed].
Qed.

Lemma drizzle_run_persists ops db j d :
  uniqueIds (Drizzle.jobs db) →
  Forall (λ op, ¬ deletes j op) ops →
  Drizzle.getJob j db = Some d →
  ∃ d', Drizzle.getJob j (run drizzleAdapter db ops) = Some d' ∧ persists d d'.
Proof.
  apply (run_persists drizzleAdapter (λ db, uniqueIds (Drizzle.jobs db))
           (λ j op, ¬ deletes j op)).
  - apply drizzle_step_uniqueIds.
  - auto.
  - intros g v t q p o s job s' x dx _ E Hx.
    destruct (drizzle_enqueueStores _ _ _ _ _ _ _ _ _ E) as (_ & Hget & _).
    rewrite Hget. case_decide as Hid; [|assumption]. exfalso.
    change (Drizzle.enqueue g v t q p o s = Some (job, s')) in E.
    change (Drizzle.getJob x s = Some dx) in Hx.
    unfold Drizzle.enqueue in E.
    destruct (Drizzle.select _ _) eqn:Hsel; [|discriminate].
    injection E as <- _. rewrite drizzle_getJob_head in Hx.
    subst x. rewrite Hsel in Hx. discriminate.
  - intros t x y s Hne.
    change (Drizzle.getJob y (Drizzle.ack t x true s) = Drizzle.getJob y s).
    rewrite !drizzle_getJob_head.
    unfold Drizzle.ack. cbn [Drizzle.jobs]. by rewrite select_delete_ne.
  - intros t q n vt s x dx Hs Hx.
    change (∃ d', Drizzle.getJob x (Drizzle.dequeue t q n vt s).2 = Some d' ∧
                  persists dx d').
    change (Drizzle.getJob x s = Some dx) in Hx.
    destruct (Drizzle.dequeue t q n vt s) as [jobs s'] eqn:E.
    destruct (drizzle_dequeue_spec _ _ _ _ _ _ _ Hs E) as (_ & _ & _ & Hev & _).
    cbn [snd].
    destruct (Hev x) as [Hsame|(d0 & H0 & _ & Hafter & _)].
    + exists dx. split; [congruence|apply persists_refl].
    + rewrite Hx in H0. injection H0 as <-.
      exists (claimed (t + vt) t dx). split; [assumption|apply persists_claimed].
Qed.

Lemma redis_run_persists ops db j d :
  Forall (λ op, ¬ deletes j op ∧ ¬ enqueues j op) ops →
  Redis.getJob j db = Some d →
  ∃ d', Redis.getJob j (run redisAdapter db ops) = Some d' ∧ persists d d'.
Proof.
  intros Hops. apply (run_persists redisAdapter (λ _, True)
           (λ j op, ¬ deletes j op ∧ ¬ enqueues j op)); [| | | | |done|done].
  - done.
  - by intros ?? [? _].
  - intros g v t q p o s job s' x dx [_ Hfresh] E Hx.
    destruct (redis_enqueueStores _ _ _ _ _ _ _ _ _ E) as (Hjob & Hget & _).
    rewrite Hget. case_decide as Hid; [|assumption]. exfalso.
    apply Hfresh. simpl. subst x job. reflexivity.
  - intros t x y s Hne.
    change (Redis.getJob y (Redis.ack t x true s) = Redis.getJob y s).
    apply redis_getJob_hashes.
    unfold Redis.ack, Redis.del, Redis.hGetAll. rewrite lookup_delete_eq.
    cbn [Redis.hashes]. by rewrite lookup_delete_ne.
  - intros t q n vt s x dx _ Hx.
    change (∃ d', Redis.getJob x (Redis.dequeue t q n vt s).2 = Some d' ∧
                  persists dx d').
    change (Redis.getJob x s = Some dx) in Hx.
    destruct (Redis.dequeue t q n vt s) as [jobs s'] eqn:E.
    destruct (redis_dequeue_spec _ _ _ _ _ _ _ E) as (_ & _ & _ & Hother & Hjobs).
    cbn [snd].
    destruct (decide (x ∈ Job.id <$> jobs)) as [Hin|Hout].
    + apply list_elem_of_fmap in Hin as (job & -> & Hjob).
      destruct (Hjobs job Hjob) as (old & Hold & _ & _ & _ & Hafter & _).
      rewrite Hx in Hold. injection Hold as <-.
      eexists. split; [exact Hafter|apply persists_claimed].
    + exists dx. rewrite (Hother x Hout). split; [assumption|apply persists_refl].
Qed.

(** X7.  A job is never lost and never changes identity.  In the mongodb
    and the drizzle adapter, through any sequence of calls in which the job
    is not acknowledged with [deleteAfterAck], and in the redis adapter when
    moreover no [enqueue] reuses its id, [getJob] still returns the job, with
    the same id, queue, payload, meta, [maxAttempts] and [createdAt], and with
    at least as many attempts. *)
Theorem job_persists (ops : list Op) (j : string) (d : Job.t) :
  Forall (λ op, ¬ deletes j op) ops →
  (∀ db, uniqueIds (Mongodb.jobsCollection db) → Mongodb.getJob j db = Some d →
     ∃ d', Mongodb.getJob j (run mongodbAdapter db ops) = Some d' ∧ persists d d') ∧
  (∀ db, uniqueIds (Drizzle.jobs db) → Drizzle.getJob j db = Some d →
     ∃ d', Drizzle.getJob j (run drizzleAdapter db ops) = Some d' ∧ persists d d') ∧
  (∀ db, Forall (λ op, ¬ enqueues j op) ops → Redis.getJob j db = Some d →
     ∃ d', Redis.getJob j (run redisAdapter db ops) = Some d' ∧ persists d d').
Proof.
  intros Hops. split_and!.
  - intros db Hu Hd. by apply mongodb_run_persists.
  - intros db Hu Hd. by apply drizzle_run_persists.
  - intros db Hfresh Hd. apply redis_run_persists; [|assumption].
    rewrite Forall_forall in *. intros op Hop. split; [by apply Hops|by apply Hfresh].
Qed.

Lemma job_persists_witness :
  ∃ d', Mongodb.getJob "job_1"
          (run mongodbAdapter sampleMongo
             [OpNack 2000 "job_1" None; OpDequeue 3000 "q" 1 30000;
              OpAck 4000 "job_1" false; OpAck 5000 "job_9" true])
        = Some d' ∧ persists sampleClaimed d'.
Proof.
  assert (Hops : Forall (λ op, ¬ deletes "job_1" op)
            [OpNack 2000 "job_1" None; OpDequeue 3000 "q" 1 30000;
             OpAck 4000 "job_1" false; OpAck 5000 "job_9" true]).
  { repeat constructor; simpl; try tauto. discriminate. }
  destruct (job_persists _ "job_1" sampleClaimed Hops) as (Hmongo & _ & _).
  apply Hmongo; [|reflexivity].
  unfold uniqueIds. simpl. apply NoDup_singleton.
Defined.

(** *** The audit log only grows *)

Lemma mongodb_step_logs op db :
  ∃ new, Mongodb.logsCollection (step mongodbAdapter db op) =
         Mongodb.logsCollection db ++ new.
Proof.
  destruct op as [g v t q p o|t q n vt|t j del|t j o|t l j e dt]; simpl.
  - unfold Mongodb.enqueue. destruct (Mongodb.findOne _ _);
      exists []; by rewrite app_nil_r.
  - unfold Mongodb.dequeue. destruct (Mongodb.dequeueLoop _ _ _ _ _ _).
    exists []. by rewrite app_nil_r.
  - unfold Mongodb.ack. destruct del; exists []; by rewrite app_nil_r.
  - unfold Mongodb.nack. destruct (wantsRequeue o); exists []; by rewrite app_nil_r.
  - unfold Mongodb.logEvent. destruct (Mongodb.findOne _ _).
    + eexists. reflexivity.
    + exists []. by rewrite app_nil_r.
Qed.

Lemma drizzle_step_logs op db :
  ∃ new, Drizzle.jobLogs (step drizzleAdapter db op) = Drizzle.jobLogs db ++ new.
Proof.
  destruct op as [g v t q p o|t q n vt|t j del|t j o|t l j e dt]; simpl.
  - unfold Drizzle.enqueue. destruct (Drizzle.select _ _);
      exists []; by rewrite app_nil_r.
  - unfold Drizzle.dequeue. destruct (Drizzle.limit _ _);
      exists []; by rewrite app_nil_r.
  - unfold Drizzle.ack. destruct del; exists []; by rewrite app_nil_r.
  - unfold Drizzle.nack. destruct (wantsRequeue o); exists []; by rewrite app_nil_r.
  - unfold Drizzle.logEvent. destruct (head _).
    + eexists. reflexivity.
    + exists []. by rewrite app_nil_r.
Qed.

Lemma redis_step_logs op db j :
  ∃ new, Redis.getLogs j (step redisAdapter db op) = Redis.getLogs j db ++ new.
Proof.
  destruct op as [g v t q p o|t q n vt|t x del|t x o|t l x e dt]; simpl.
  - unfold Redis.enqueue. destruct (Job.meta _); exists []; by rewrite app_nil_r.
  - destruct (Redis.dequeue t q n vt db) as [jobs db'] eqn:E.
    destruct (redis_dequeue_spec _ _ _ _ _ _ _ E) as (Hlogs & _).
    exists []. rewrite app_nil_r. unfold Redis.getLogs. simpl. by rewrite Hlogs.
  - exists []. by rewrite app_nil_r, redis_getLogs_ack.
  - exists []. by rewrite app_nil_r, redis_getLogs_nack.
  - unfold Redis.logEvent, Redis.hGetAll.
    destruct (Redis.hashes db !! x) as [[jobData|?]|];
      [|exists []; by rewrite app_nil_r..].
    unfold Redis.getLogs, Redis.lRange, Redis.rPush. simpl.
    destruct (decide (x = j)) as [->|Hne].
    + rewrite lookup_insert_eq. simpl. eexists. reflexivity.
    + rewrite lookup_insert_ne by done. exists []. by rewrite app_nil_r.
Qed.

Lemma run_grows {St A} (adapter : Adapter.t St) (view : St → list A) :
  (∀ op s, ∃ new, view (step adapter s op) = view s ++ new) →
  ∀ ops s, ∃ new, view (run adapter s ops) = view s ++ new.
Proof.
  intros Hstep ops. unfold run.
  induction ops as [|op ops IH]; intros s; simpl.
  - exists []. by rewrite app_nil_r.
  - destruct (IH (step adapter s op)) as (new2 & ->).
    destruct (Hstep op s) as (new1 & ->).
    exists (new1 ++ new2). by rewrite app_assoc.
Qed.

(** X8.  The audit log of mongodb and of drizzle is append-only.  Whatever
    calls are made, in any order, the log collection of mongodb and the log
    table of drizzle afterwards are what they were with entries added at
    their end: no entry is changed, moved or removed, not even when its job
    is deleted; so every entry [getLogs] returned is returned again later. *)
Theorem audit_log_append_only (ops : list Op) :
  (∀ db, ∃ new,
     Mongodb.logsCollection (run mongodbAdapter db ops) =
     Mongodb.logsCollection db ++ new) ∧
  (∀ db, ∃ new,
     Drizzle.jobLogs (run drizzleAdapter db ops) = Drizzle.jobLogs db ++ new) ∧
  (∀ db j x, x ∈ Mongodb.getLogs j db →
             x ∈ Mongodb.getLogs j (run mongodbAdapter db ops)) ∧
  (∀ db j x, x ∈ Drizzle.getLogs j db →
             x ∈ Drizzle.getLogs j (run drizzleAdapter db ops)).
Proof.
  assert (Hm := run_grows mongodbAdapter Mongodb.logsCollection mongodb_step_logs ops).
  assert (Hd := run_grows drizzleAdapter Drizzle.jobLogs drizzle_step_logs ops).
  split_and!; [exact Hm|exact Hd| |].
  - intros db j x. rewrite !mongodb_getLogs_elem_of. intros [Hx Hj].
    destruct (Hm db) as (new & ->). split; [|assumption].
    apply elem_of_app. by left.
  - intros db j x. rewrite !drizzle_getLogs_elem_of. intros [Hx Hj].
    destruct (Hd db) as (new & ->). split; [|assumption].
    apply elem_of_app. by left.
Qed.

(** ** The index sets of the redis adapter *)

Section RedisSets.
Import Redis.

Lemma zScore_zAdd k m key score value sets :
  zScore k m (zAdd key score value sets) =
  if decide (k = key ∧ m = value) then Some score else zScore k m sets.
Proof.
  unfold zScore, zAdd. destruct (decide (k = key)) as [->|Hk].
  - rewrite lookup_insert_eq. simpl. destruct (decide (m = value)) as [->|Hm].
    + rewrite lookup_insert_eq. by rewrite decide_True.
    + rewrite lookup_insert_ne by done. rewrite decide_False by tauto. done.
  - rewrite lookup_insert_ne by done. rewrite decide_False by tauto. done.
Qed.

Lemma zScore_zRem k m key member sets :
  zScore k m (zRem key member sets) =
  if decide (k = key ∧ m = member) then None else zScore k m sets.
Proof.
  unfold zScore, zRem. destruct (decide (k = key)) as [->|Hk].
  - rewrite lookup_alter_eq. destruct (sets !! key) as [set|] eqn:E; simpl.
    + destruct (decide (m = member)) as [->|Hm].
      * rewrite lookup_delete_eq. by rewrite decide_True.
      * rewrite lookup_delete_ne by done. rewrite decide_False by tauto. done.
    + rewrite lookup_empty. by destruct (decide _).
  - rewrite lookup_alter_ne by done. rewrite decide_False by tauto. done.
Qed.

Lemma withQueue_getJob x db jobData :
  hashes db !! x = Some (JobHash jobData) →
  ∃ old, getJob x db = Some old ∧ Job.id old = x ∧
    ∀ q lu t,
      withQueue q (claimed lu t old) =
      {| Job.id := x; Job.queue := q; Job.payload := Job.payload jobData;
         Job.attempts := Job.attempts jobData + 1;
         Job.maxAttempts := Job.maxAttempts jobData;
         Job.visibleAt := Job.visibleAt jobData; Job.lockedUntil := lu;
         Job.createdAt := Job.createdAt jobData; Job.updatedAt := t;
         Job.status := processing; Job.meta := Job.meta jobData |}.
Proof.
  intros Hx. eexists. split; [by apply redis_getJob_JobHash|]. done.
Qed.

Lemma redis_dequeueLoop_moves q t lu limit candidates :
  ∀ db dequeued jobs' db',
  NoDup candidates →
  dequeueLoop q t lu limit candidates db dequeued = (jobs', db') →
  ∃ new, jobs' = dequeued ++ new ∧
    Job.id <$> new `sublist_of` candidates ∧
    (∀ x, x ∉ Job.id <$> new → hashes db' !! x = hashes db !! x) ∧
    (∀ k m, zScore k m (pendingSets db') =
            if decide (k = q ∧ m ∈ Job.id <$> new) then None
            else zScore k m (pendingSets db)) ∧
    (∀ k m, zScore k m (processingSets db') =
            if decide (k = q ∧ m ∈ Job.id <$> new) then Some lu
            else zScore k m (processingSets db)) ∧
    (∀ job, job ∈ new →
       ∃ old, getJob (Job.id job) db = Some old ∧
              job = withQueue q (claimed lu t old)).
Proof.
  induction candidates as [|jobId rest IH]; intros db dequeued jobs' db' Hnd Hrun.
  { simpl in Hrun. injection Hrun as <- <-. exists []. rewrite app_nil_r.
    split_and!; try done.
    - intros k m. rewrite decide_False; [done|]. intros [_ H]. by apply elem_of_nil in H.
    - intros k m. rewrite decide_False; [done|]. intros [_ H]. by apply elem_of_nil in H.
    - intros job Hjob. by apply elem_of_nil in Hjob. }
  apply NoDup_cons in Hnd as [Hfresh Hnd]. cbn [dequeueLoop] in Hrun.
  assert (Hskip : dequeueLoop q t lu limit rest db dequeued = (jobs', db') →
    ∃ new, jobs' = dequeued ++ new ∧
      Job.id <$> new `sublist_of` jobId :: rest ∧
      (∀ x, x ∉ Job.id <$> new → hashes db' !! x = hashes db !! x) ∧
      (∀ k m, zScore k m (pendingSets db') =
              if decide (k = q ∧ m ∈ Job.id <$> new) then None
              else zScore k m (pendingSets db)) ∧
      (∀ k m, zScore k m (processingSets db') =
              if decide (k = q ∧ m ∈ Job.id <$> new) then Some lu
              else zScore k m (processingSets db)) ∧
      (∀ job, job ∈ new →
         ∃ old, getJob (Job.id job) db = Some old ∧
                job = withQueue q (claimed lu t old))).
  { intros Hrest. destruct (IH _ _ _ _ Hnd Hrest) as (new & ? & ? & ? & ? & ? & ?).
    exists new. split_and!; try done. by apply sublist_cons. }
  case_decide as Hfull.
  { injection Hrun as <- <-. exists []. rewrite app_nil_r.
    split_and!; try done; [apply sublist_nil_l| | |].
    - intros k m. rewrite decide_False; [done|]. intros [_ H]. by apply elem_of_nil in H.
    - intros k m. rewrite decide_False; [done|]. intros [_ H]. by apply elem_of_nil in H.
    - intros job Hjob. by apply elem_of_nil in Hjob. }
  unfold hGetAll in Hrun.
  destruct (hashes db !! jobId) as [[jobData|?]|] eqn:Eh; [|by auto..].
  case_decide as Hgate; [by auto|].
  match type of Hrun with dequeueLoop _ _ _ _ _ ?d _ = _ => set (db1 := d) in * end.
  destruct (IH _ _ _ _ Hnd Hrun) as (new & -> & Hsub & Hframe & Hpend & Hproc & Hnew).
  eexists (_ :: new). split; [by rewrite <- app_assoc|].
  assert (Hnotin : jobId ∉ Job.id <$> new).
  { intros Hin. apply Hfresh. by apply (sublist_subseteq _ _ Hsub). }
  assert (Hh1 : ∀ x, x ≠ jobId → hashes db1 !! x = hashes db !! x).
  { intros x Hx. subst db1; simpl. rewrite hSet_lookup. by rewrite decide_False. }
  split_and!.
  - rewrite fmap_cons. simpl. by apply sublist_skip.
  - intros x Hx. rewrite fmap_cons in Hx. apply not_elem_of_cons in Hx as [Hx1 Hx2].
    rewrite Hframe by done. by apply Hh1.
  - intros k m. rewrite Hpend. subst db1. cbn [pendingSets].
    rewrite zScore_zRem, fmap_cons. cbn [Job.id].
    repeat case_decide; try done; exfalso;
      repeat match goal with
             | H : _ ∧ _ |- _ => destruct H
             | H : _ ∈ _ :: _ |- _ => apply elem_of_cons in H as [?|?]
             | H : ¬ (_ ∧ _ ∈ _ :: _) |- _ =>
               apply H; split; [done|apply elem_of_cons; by auto]
             end; tauto.
  - intros k m. rewrite Hproc. subst db1. cbn [processingSets].
    rewrite zScore_zAdd, fmap_cons. cbn [Job.id].
    repeat case_decide; try done; exfalso;
      repeat match goal with
             | H : _ ∧ _ |- _ => destruct H
             | H : _ ∈ _ :: _ |- _ => apply elem_of_cons in H as [?|?]
             | H : ¬ (_ ∧ _ ∈ _ :: _) |- _ =>
               apply H; split; [done|apply elem_of_cons; by auto]
             end; tauto.
  - intros job [->|Hjob]%elem_of_cons.
    + cbn [Job.id].
      destruct (withQueue_getJob jobId db jobData Eh) as (old & Hold & _ & Heq).
      exists old. split; [done|]. by rewrite Heq.
    + destruct (Hnew job Hjob) as (old & Hold & ?).
      exists old. split; [|done].
      rewrite <- Hold. symmetry. apply redis_getJob_hashes, Hh1.
      intros Heq. apply Hnotin. rewrite <- Heq. by apply list_elem_of_fmap_2.
Qed.
End RedisSets.

Lemma redis_dequeue_moves t q n vt db result db' :
  Redis.dequeue t q n vt db = (result, db') →
  (∀ job, job ∈ result →
     ∃ score, zScore q (Job.id job) (Redis.pendingSets db) = Some score ∧
              0 ≤ score ≤ t) ∧
  (∀ k m, zScore k m (Redis.pendingSets db') =
          if decide (k = q ∧ m ∈ Job.id <$> result) then None
          else zScore k m (Redis.pendingSets db)) ∧
  (∀ k m, zScore k m (Redis.processingSets db') =
          if decide (k = q ∧ m ∈ Job.id <$> result) then Some (t + vt)
          else zScore k m (Redis.processingSets db)) ∧
  (∀ job, job ∈ result →
     ∃ old, Redis.getJob (Job.id job) db = Some old ∧
            job = withQueue q (claimed (t + vt) t old) ∧
            Redis.getJob (Job.id job) db' = Some (claimed (t + vt) t old)).
Proof.
  intros Hrun.
  destruct (redis_dequeue_spec _ _ _ _ _ _ _ Hrun) as (_ & _ & _ & _ & Hspec).
  unfold Redis.dequeue in Hrun.
  destruct (redis_dequeueLoop_moves _ _ _ _ _ _ _ _ _
              (zRangeByScore_NoDup q 0 t (n * 2) (Redis.pendingSets db)) Hrun)
    as (new & -> & Hsub & _ & Hpend & Hproc & Hnew).
  rewrite app_nil_l in *. split_and!; [|exact Hpend|exact Hproc|].
  - intros job Hjob. apply (zRangeByScore_range q 0 t (n * 2)).
    apply (sublist_subseteq _ _ Hsub). by apply list_elem_of_fmap_2.
  - intros job Hjob. destruct (Hnew job Hjob) as (old & Hold & Heq).
    exists old. split_and!; [done..|].
    destruct (Hspec job Hjob) as (old' & Hold' & _ & _ & _ & Hafter & _).
    congruence.
Qed.

(** X9.  How the redis adapter keeps its index sets.  A claim on a queue
    takes each job it returns out of the pending set of that queue, where it
    had a score between [0] and the clock, puts it into the processing set
    with the end of its lease as score, and touches no other member; an
    [enqueue] that returns (one with a [meta] object) has added the job to
    the pending set of its queue under its [visibleAt]; [nack] of a stored job takes it out of the processing set of
    its queue and, when it requeues, puts it into the pending set under its
    new [visibleAt]; [ack] changes neither set, with [deleteAfterAck] or
    without, so an acknowledged job stays in the processing set. *)
Theorem redis_index_sets :
  (∀ t q n vt db,
     let jobs := (Redis.dequeue t q n vt db).1 in
     let db' := (Redis.dequeue t q n vt db).2 in
     (∀ job, job ∈ jobs →
        ∃ score, zScore q (Job.id job) (Redis.pendingSets db) = Some score ∧
                 0 ≤ score ≤ t) ∧
     (∀ k m, zScore k m (Redis.pendingSets db') =
             if decide (k = q ∧ m ∈ Job.id <$> jobs) then None
             else zScore k m (Redis.pendingSets db)) ∧
     (∀ k m, zScore k m (Redis.processingSets db') =
             if decide (k = q ∧ m ∈ Job.id <$> jobs) then Some (t + vt)
             else zScore k m (Redis.processingSets db))) ∧
  (∀ g v t q p o db job db',
     Redis.enqueue g v t q p o db = Some (job, db') →
     (∀ k m, zScore k m (Redis.pendingSets db') =
             if decide (k = q ∧ m = Job.id job) then Some (Job.visibleAt job)
             else zScore k m (Redis.pendingSets db)) ∧
     Redis.processingSets db' = Redis.processingSets db) ∧
  (∀ t j opts db d,
     Redis.getJob j db = Some d →
     let db' := Redis.nack t j opts db in
     (∀ k m, zScore k m (Redis.processingSets db') =
             if decide (k = Job.queue d ∧ m = j) then None
             else zScore k m (Redis.processingSets db)) ∧
     (∀ k m, zScore k m (Redis.pendingSets db') =
             if decide (k = Job.queue d ∧ m = j ∧ wantsRequeue opts = true)
             then Some (t + default 0 (nackDelay opts))
             else zScore k m (Redis.pendingSets db))) ∧
  (∀ t j del db,
     Redis.pendingSets (Redis.ack t j del db) = Redis.pendingSets db ∧
     Redis.processingSets (Redis.ack t j del db) = Redis.processingSets db).
Proof.
  split_and!.
  - intros t q n vt db jobs db'. subst jobs db'.
    destruct (Redis.dequeue t q n vt db) as [jobs db'] eqn:E.
    destruct (redis_dequeue_moves _ _ _ _ _ _ _ E) as (H1 & H2 & H3 & _).
    by split_and!.
  - intros g v t q p o db job db'. unfold Redis.enqueue.
    destruct (Job.meta _); [|discriminate]. intros [= <- <-].
    cbn [Redis.pendingSets Redis.processingSets]. split; [|done].
    intros k m. by rewrite zScore_zAdd.
  - intros t j opts db d Hd db'. subst db'.
    unfold Redis.getJob, Redis.nack, Redis.hGetAll in *.
    destruct (Redis.hashes db !! j) as [[jobData|?]|]; [|done..].
    injection Hd as <-. simpl.
    destruct (wantsRequeue opts) eqn:Ew; simpl; split.
    + intros k m. by rewrite zScore_zRem.
    + intros k m. rewrite zScore_zAdd, delayed_plus.
      repeat case_decide; try done; tauto.
    + intros k m. by rewrite zScore_zRem.
    + intros k m. rewrite decide_False; [done|]. intros (_ & _ & ?). done.
  - intros t j del db. unfold Redis.ack, Redis.hGetAll, Redis.del.
    destruct del; [|done]. by rewrite lookup_delete_eq.
Qed.

Lemma redis_index_sets_witness :
  (∃ db',
     Redis.enqueue "job_1" 1000 1000 "q" "{}" onlyMeta redisEmpty =
       Some (sampleJobMeta, db') ∧
     zScore "q" "job_1" (Redis.pendingSets db') = Some 1000) ∧
  zScore "q" "job_1" (Redis.pendingSets sampleRedis) = Some 1000 ∧
  zScore "q" "job_1"
    (Redis.pendingSets (Redis.dequeue 2000 "q" 2 30000 sampleRedis).2) = None ∧
  zScore "q" "job_1"
    (Redis.processingSets (Redis.dequeue 2000 "q" 2 30000 sampleRedis).2)
  = Some 32000.
Proof.
  destruct redis_index_sets as (Hdequeue & Henqueue & _).
  destruct (Hdequeue 2000 "q"%string 2%nat 30000 sampleRedis) as (_ & Hpend & Hproc).
  split_and!.
  - eexists. split; [reflexivity|].
    match goal with
    | |- zScore _ _ (Redis.pendingSets ?db) = _ =>
      destruct (Henqueue "job_1"%string 1000 1000 "q"%string "{}"%string onlyMeta
                  redisEmpty sampleJobMeta db eq_refl) as [Hscore _]
    end.
    rewrite (Hscore "q"%string "job_1"%string). reflexivity.
  - reflexivity.
  - rewrite (Hpend "q"%string "job_1"%string). reflexivity.
  - rewrite (Hproc "q"%string "job_1"%string). reflexivity.
Defined.

(** ** More on the claim path *)

(** *** At most [limit] jobs *)

Lemma mongodb_dequeueLoop_bound q t lu i :
  ∀ c jobs,
  (length (Mongodb.dequeueLoop q t lu i c jobs).1 ≤ length jobs + i)%nat.
Proof.
  induction i as [|i IH]; intros c jobs; cbn [Mongodb.dequeueLoop]; [simpl; lia|].
  destruct (Mongodb.findOneSorted _ _ _) as [candidate|]; [|simpl; lia].
  case_decide.
  - etrans; [apply IH|lia].
  - unfold Mongodb.findOneAndUpdate.
    destruct (_ <$> Mongodb.findOne _ _) as [job|].
    + etrans; [apply IH|]. rewrite length_app. simpl. lia.
    + etrans; [apply IH|lia].
Qed.

Lemma redis_dequeueLoop_bound q t lu limit candidates :
  ∀ db dequeued,
  (length (Redis.dequeueLoop q t lu limit candidates db dequeued).1
   ≤ limit `max` length dequeued)%nat.
Proof.
  induction candidates as [|jobId rest IH]; intros db dequeued;
    cbn [Redis.dequeueLoop]; [simpl; lia|].
  case_decide as Hfull; [simpl; lia|].
  destruct (Redis.hGetAll jobId (Redis.hashes db)) as [[jobData|?]|]; [|apply IH..].
  case_decide; [apply IH|].
  etrans; [apply IH|]. rewrite length_app. simpl. lia.
Qed.

Lemma drizzle_dequeue_bound t q n vt db :
  uniqueIds (Drizzle.jobs db) →
  (length (Drizzle.dequeue t q n vt db).1 ≤ n)%nat.
Proof.
  intros Hu.
  destruct (Drizzle.dequeue t q n vt db) as [result db'] eqn:E.
  destruct (drizzle_dequeue_spec _ _ _ _ _ _ _ Hu E) as (_ & _ & Hnd & _).
  unfold Drizzle.dequeue in E.
  destruct (Drizzle.limit n _) as [|r rows] eqn:Erows.
  { injection E as <- _. simpl. lia. }
  injection E as <- _. cbn [fst].
  match goal with
  |- (length (Drizzle.byPrimaryKey (Drizzle.select (Drizzle.inArray ?ids) ?rs)) ≤ _)%nat =>
    set (jobIds := ids) in *; set (jobs' := rs) in * end.
  assert (Hlen : (length jobIds ≤ n)%nat).
  { change jobIds with (Job.id <$> r :: rows).
    rewrite length_fmap, <- Erows. unfold Drizzle.limit.
    rewrite length_take. lia. }
  etrans; [|exact Hlen].
  rewrite <- (length_fmap Job.id). apply submseteq_length.
  apply NoDup_submseteq; [exact Hnd|].
  intros x Hx. apply list_elem_of_fmap in Hx as (r' & -> & Hr').
  rewrite byPrimaryKey_perm in Hr'.
  apply list_elem_of_filter in Hr' as [Hin _]. exact Hin.
Qed.

(** X10.  A claim returns at most [limit] jobs, in each adapter (the
    candidates the redis adapter reads beyond [limit] are not claimed). *)
Theorem claim_returns_at_most_limit :
  (∀ t q n vt db, (length (Mongodb.dequeue t q n vt db).1 ≤ n)%nat) ∧
  (∀ t q n vt db, uniqueIds (Drizzle.jobs db) →
                  (length (Drizzle.dequeue t q n vt db).1 ≤ n)%nat) ∧
  (∀ t q n vt db, (length (Redis.dequeue t q n vt db).1 ≤ n)%nat).
Proof.
  split_and!.
  - intros t q n vt db. unfold Mongodb.dequeue.
    pose proof (mongodb_dequeueLoop_bound q t (t + vt) n (Mongodb.jobsCollection db) [])
      as Hb.
    destruct (Mongodb.dequeueLoop _ _ _ _ _ _) as [jobs c]. simpl in *. lia.
  - intros t q n vt db Hu. by apply drizzle_dequeue_bound.
  - intros t q n vt db. unfold Redis.dequeue.
    etrans; [apply redis_dequeueLoop_bound|]. simpl. lia.
Qed.

Lemma claim_returns_at_most_limit_witness :
  (length (Drizzle.dequeue 2000 "q" 1 30000
             (Drizzle.mkDb [sampleJob; sampleDelayed] [])).1 ≤ 1)%nat.
Proof.
  destruct claim_returns_at_most_limit as (_ & Hdrizzle & _).
  apply Hdrizzle. unfold uniqueIds. simpl.
  apply NoDup_cons. split; [|apply NoDup_singleton].
  intros H. apply list_elem_of_singleton in H. discriminate.
Defined.

(** *** What a claim returns is what the store holds *)

(** X11.  Every job a claim returns is in the store afterwards exactly as
    returned, in the mongodb and the drizzle adapter: [getJob] on its id
    gives the same job, of the queue asked for, with status [processing], a
    lease until the clock plus the visibility timeout, and [updatedAt] set
    to the clock.  In the redis adapter the same holds except that the
    returned job carries the queue name of the call instead of the one
    stored in the hash. *)
Theorem claim_returns_stored_job :
  (∀ t q n vt db job,
     uniqueIds (Mongodb.jobsCollection db) →
     job ∈ (Mongodb.dequeue t q n vt db).1 →
     Mongodb.getJob (Job.id job) (Mongodb.dequeue t q n vt db).2 = Some job ∧
     Job.queue job = q ∧ Job.status job = processing ∧
     Job.lockedUntil job = t + vt ∧ Job.updatedAt job = t) ∧
  (∀ t q n vt db job,
     uniqueIds (Drizzle.jobs db) →
     job ∈ (Drizzle.dequeue t q n vt db).1 →
     Drizzle.getJob (Job.id job) (Drizzle.dequeue t q n vt db).2 = Some job ∧
     Job.queue job = q ∧ Job.status job = processing ∧
     Job.lockedUntil job = t + vt ∧ Job.updatedAt job = t) ∧
  (∀ t q n vt db job,
     job ∈ (Redis.dequeue t q n vt db).1 →
     ∃ stored,
       Redis.getJob (Job.id job) (Redis.dequeue t q n vt db).2 = Some stored ∧
       job = withQueue q stored ∧ Job.status job = processing ∧
       Job.lockedUntil job = t + vt ∧ Job.updatedAt job = t).
Proof.
  split_and!.
  - intros t q n vt db job Hu Hjob.
    destruct (Mongodb.dequeue t q n vt db) as [jobs db'] eqn:E.
    destruct (mongodb_dequeue_claims _ _ _ _ _ _ _ Hu E) as [Hc _].
    destruct (claims_jobs _ _ _ _ _ _ Hc job Hjob) as (d0 & _ & Hcand & _ & -> & Hget).
    split; [exact Hget|].
    unfold Mongodb.candidateFilter in Hcand. destruct Hcand as (Hq & _).
    by split_and!.
  - intros t q n vt db job Hu Hjob.
    destruct (Drizzle.dequeue t q n vt db) as [jobs db'] eqn:E.
    destruct (drizzle_dequeue_spec _ _ _ _ _ _ _ Hu E) as (_ & _ & _ & _ & Hjobs).
    destruct (Hjobs job Hjob) as (d0 & _ & Havail & -> & Hget).
    split; [exact Hget|].
    unfold Drizzle.available in Havail. destruct Havail as (Hq & _).
    by split_and!.
  - intros t q n vt db job Hjob.
    destruct (Redis.dequeue t q n vt db) as [jobs db'] eqn:E.
    destruct (redis_dequeue_moves _ _ _ _ _ _ _ E) as (_ & _ & _ & Hjobs).
    destruct (Hjobs job Hjob) as (old & _ & -> & Hget).
    eexists. split; [exact Hget|]. by split_and!.
Qed.

Lemma claim_returns_stored_job_witness :
  uniqueIds [sampleJob] ∧
  Mongodb.getJob "job_1"
    (Mongodb.dequeue 2000 "q" 1 30000 (Mongodb.mkDb [sampleJob] [])).2 =
  Some (claimed 32000 2000 sampleJob).
Proof.
  assert (Hu : uniqueIds [sampleJob]).
  { unfold uniqueIds. simpl. apply NoDup_singleton. }
  split; [exact Hu|].
  destruct claim_returns_stored_job as (Hmongo & _ & _).
  apply (Hmongo 2000 "q"%string 1%nat 30000 (Mongodb.mkDb [sampleJob] [])
           (claimed 32000 2000 sampleJob) Hu).
  vm_compute. apply list_elem_of_here.
Defined.

(** *** What a claim leaves alone *)

(** X12.  A claim writes only to the jobs it may select.  In the mongodb
    adapter a job that is not a candidate (of another queue, not pending, not
    yet visible, or under a lease) reads after the claim as before; in the
    drizzle adapter likewise for a job outside the query's filter, which also
    excludes a job with no attempt left; in the redis adapter likewise for a
    job whose id is not in the pending set of the queue with a score between
    [0] and the clock.  An id that is not in the store is not in it
    afterwards. *)
Theorem claim_leaves_other_jobs :
  (∀ t q n vt db j,
     uniqueIds (Mongodb.jobsCollection db) →
     (∀ d, Mongodb.getJob j db = Some d → ¬ Mongodb.candidateFilter q t d →
           Mongodb.getJob j (Mongodb.dequeue t q n vt db).2 = Some d) ∧
     (Mongodb.getJob j db = None →
      Mongodb.getJob j (Mongodb.dequeue t q n vt db).2 = None)) ∧
  (∀ t q n vt db j,
     uniqueIds (Drizzle.jobs db) →
     (∀ d, Drizzle.getJob j db = Some d → ¬ Drizzle.available q t d →
           Drizzle.getJob j (Drizzle.dequeue t q n vt db).2 = Some d) ∧
     (Drizzle.getJob j db = None →
      Drizzle.getJob j (Drizzle.dequeue t q n vt db).2 = None)) ∧
  (∀ t q n vt db j,
     (∀ score, zScore q j (Redis.pendingSets db) = Some score →
               score < 0 ∨ t < score) →
     Redis.getJob j (Redis.dequeue t q n vt db).2 = Redis.getJob j db).
Proof.
  split_and!.
  - intros t q n vt db j Hu.
    destruct (Mongodb.dequeue t q n vt db) as [jobs db'] eqn:E.
    destruct (mongodb_dequeue_claims _ _ _ _ _ _ _ Hu E) as [Hc _].
    pose proof (claims_evolves _ _ _ _ _ _ Hc j) as Hev.
    unfold Mongodb.getJob. cbn [snd]. split.
    + intros d Hd Hnot. destruct Hev as [Hsame|(d0 & H0 & Hcand & _)]; [congruence|].
      rewrite Hd in H0. injection H0 as <-. contradiction.
    + intros Hd. destruct Hev as [Hsame|(d0 & H0 & _)]; congruence.
  - intros t q n vt db j Hu.
    destruct (Drizzle.dequeue t q n vt db) as [jobs db'] eqn:E.
    destruct (drizzle_dequeue_spec _ _ _ _ _ _ _ Hu E) as (_ & _ & _ & Hev & _).
    cbn [snd]. split.
    + intros d Hd Hnot. destruct (Hev j) as [Hsame|(d0 & H0 & Havail & _)]; [congruence|].
      rewrite Hd in H0. injection H0 as <-. contradiction.
    + intros Hd. destruct (Hev j) as [Hsame|(d0 & H0 & _)]; congruence.
  - intros t q n vt db j Hscore.
    destruct (Redis.dequeue t q n vt db) as [jobs db'] eqn:E.
    destruct (redis_dequeue_spec _ _ _ _ _ _ _ E) as (_ & _ & _ & Hother & _).
    destruct (redis_dequeue_moves _ _ _ _ _ _ _ E) as (Hrange & _).
    cbn [snd]. apply Hother. intros Hin.
    apply list_elem_of_fmap in Hin as (job & -> & Hjob).
    destruct (Hrange job Hjob) as (score & Hs & Hbounds).
    destruct (Hscore score Hs); lia.
Qed.

Lemma claim_leaves_other_jobs_witness :
  Mongodb.getJob "job_1" (Mongodb.dequeue 2000 "q" 1 30000 sampleMongo).2
  = Some sampleClaimed.
Proof.
  destruct claim_leaves_other_jobs as (Hmongo & _ & _).
  assert (Hu : uniqueIds (Mongodb.jobsCollection sampleMongo)).
  { unfold uniqueIds. simpl. apply NoDup_singleton. }
  destruct (Hmongo 2000 "q"%string 1%nat 30000 sampleMongo "job_1"%string Hu)
    as [Hsome _].
  apply Hsome; [reflexivity|].
  unfold Mongodb.candidateFilter. simpl. intros (_ & Hst & _). discriminate.
Defined.

(** *** A claimed job is not claimed again *)

Section StaysOut.
Context {St : Type} (A : Adapter.t St) (inv : St → Prop) `{!Contract A inv}.
Hypothesis inv_step : ∀ op s, inv s → inv (step A s op).
Hypothesis stores : enqueueStores A.
Hypothesis delete_frame : ∀ t x j s, inv s →
  Adapter.getJob A j (Adapter.ack A t x true s) = None ∨
  Adapter.getJob A j (Adapter.ack A t x true s) = Adapter.getJob A j s.
Hypothesis dequeue_frame : ∀ t q n vt s j, inv s →
  (∀ d, Adapter.getJob A j s = Some d → Job.status d ≠ pending) →
  Adapter.getJob A j (Adapter.dequeue A t q n vt s).2 = Adapter.getJob A j s.

Lemma step_not_pending op s j :
  inv s → ¬ revives j op →
  (∀ d, Adapter.getJob A j s = Some d → Job.status d ≠ pending) →
  ∀ d, Adapter.getJob A j (step A s op) = Some d → Job.status d ≠ pending.
Proof.
  intros Hs Hop Hj d.
  destruct op as [g v t q p o|t q n vt|t x del|t x o|t l x e dt]; simpl.
  - destruct (Adapter.enqueue A g v t q p o s) as [[job s']|] eqn:E; [|apply Hj].
    destruct (stores _ _ _ _ _ _ _ _ _ E) as (Hjob & Hget & _).
    rewrite Hget. case_decide as Hid; [|apply Hj].
    exfalso. apply Hop. simpl. subst j job. reflexivity.
  - rewrite dequeue_frame by assumption. apply Hj.
  - destruct del.
    + destruct (delete_frame t x j s Hs) as [-> | ->]; [discriminate|apply Hj].
    + rewrite contract_ack. case_decide; [|apply Hj].
      destruct (Adapter.getJob A j s); [|discriminate].
      intros [= <-]. discriminate.
  - rewrite contract_nack. case_decide as Hx; [|apply Hj].
    destruct (Adapter.getJob A j s); [|discriminate].
    intros [= <-]. unfold nackPatch.
    destruct (wantsRequeue o) eqn:Ew; [|discriminate].
    exfalso. apply Hop. simpl. by split.
  - rewrite contract_logEvent. apply Hj.
Qed.

Lemma run_not_pending ops :
  ∀ s j,
  inv s → Forall (λ op, ¬ revives j op) ops →
  (∀ d, Adapter.getJob A j s = Some d → Job.status d ≠ pending) →
  inv (run A s ops) ∧
  ∀ d, Adapter.getJob A j (run A s ops) = Some d → Job.status d ≠ pending.
Proof.
  unfold run. induction ops as [|op ops IH]; intros s j Hs Hops Hj; simpl.
  - by split.
  - apply Forall_cons in Hops as [Hop Hops].
    apply IH; [by apply inv_step|assumption|].
    by apply step_not_pending.
Qed.
End StaysOut.

Lemma mongodb_run_not_pending ops db j :
  uniqueIds (Mongodb.jobsCollection db) →
  Forall (λ op, ¬ revives j op) ops →
  (∀ d, Mongodb.getJob j db = Some d → Job.status d ≠ pending) →
  uniqueIds (Mongodb.jobsCollection (run mongodbAdapter db ops)) ∧
  ∀ d, Mongodb.getJob j (run mongodbAdapter db ops) = Some d → Job.status d ≠ pending.
Proof.
  apply (run_not_pending mongodbAdapter (λ db, uniqueIds (Mongodb.jobsCollection db))).
  - apply mongodb_step_uniqueIds.
  - apply mongodb_enqueueStores.
  - intros t x y s Hs.
    change (Mongodb.getJob y (Mongodb.ack t x true s) = None ∨
            Mongodb.getJob y (Mongodb.ack t x true s) = Mongodb.getJob y s).
    destruct (decide (x = y)) as [->|Hne].
    + left. by apply mongodb_ack_delete_absent.
    + right. unfold Mongodb.getJob, Mongodb.ack. cbn [Mongodb.jobsCollection].
      by apply findOne_deleteOne_ne.
  - intros t q n vt s x Hs Hx.
    change (Mongodb.getJob x (Mongodb.dequeue t q n vt s).2 = Mongodb.getJob x s).
    change (∀ d, Mongodb.getJob x s = Some d → Job.status d ≠ pending) in Hx.
    destruct (Mongodb.dequeue t q n vt s) as [jobs s'] eqn:E.
    destruct (mongodb_dequeue_claims _ _ _ _ _ _ _ Hs E) as [Hc _].
    unfold Mongodb.getJob in *. cbn [snd].
    destruct (claims_evolves _ _ _ _ _ _ Hc x) as [Hsame|(d0 & H0 & Hcand & _)];
      [assumption|].
    exfalso. apply (Hx d0 H0).
    unfold Mongodb.candidateFilter in Hcand. tauto.
Qed.

Lemma drizzle_run_not_pending ops db j :
  uniqueIds (Drizzle.jobs db) →
  Forall (λ op, ¬ revives j op) ops →
  (∀ d, Drizzle.getJob j db = Some d → Job.status d ≠ pending) →
  uniqueIds (Drizzle.jobs (run drizzleAdapter db ops)) ∧
  ∀ d, Drizzle.getJob j (run drizzleAdapter db ops) = Some d → Job.status d ≠ pending.
Proof.
  apply (run_not_pending drizzleAdapter (λ db, uniqueIds (Drizzle.jobs db))).
  - apply drizzle_step_uniqueIds.
  - apply drizzle_enqueueStores.
  - intros t x y s Hs.
    change (Drizzle.getJob y (Drizzle.ack t x true s) = None ∨
            Drizzle.getJob y (Drizzle.ack t x true s) = Drizzle.getJob y s).
    destruct (decide (x = y)) as [->|Hne].
    + left. by apply drizzle_ack_delete_absent.
    + right. rewrite !drizzle_getJob_head. unfold Drizzle.ack. cbn [Drizzle.jobs].
      by rewrite select_delete_ne.
  - intros t q n vt s x Hs Hx.
    change (Drizzle.getJob x (Drizzle.dequeue t q n vt s).2 = Drizzle.getJob x s).
    change (∀ d, Drizzle.getJob x s = Some d → Job.status d ≠ pending) in Hx.
    destruct (Drizzle.dequeue t q n vt s) as [jobs s'] eqn:E.
    destruct (drizzle_dequeue_spec _ _ _ _ _ _ _ Hs E) as (_ & _ & _ & Hev & _).
    cbn [snd].
    destruct (Hev x) as [Hsame|(d0 & H0 & Havail & _)]; [assumption|].
    exfalso. apply (Hx d0 H0).
    unfold Drizzle.available in Havail. tauto.
Qed.

Lemma redis_step_not_member op db q j :
  ¬ revives j op →
  zScore q j (Redis.pendingSets db) = None →
  zScore q j (Redis.pendingSets (step redisAdapter db op)) = None.
Proof.
  intros Hop Hj.
  destruct op as [g v t q' p o|t q' n vt|t x del|t x o|t l x e dt].
  - unfold step. cbn [Adapter.enqueue redisAdapter]. unfold Redis.enqueue.
    destruct (Job.meta _); [|assumption]. cbn [Redis.pendingSets].
    rewrite zScore_zAdd, decide_False; [assumption|].
    intros [_ Hid]. apply Hop. simpl. by rewrite Hid.
  - change (zScore q j (Redis.pendingSets (Redis.dequeue t q' n vt db).2) = None).
    destruct (Redis.dequeue t q' n vt db) as [jobs db'] eqn:E.
    destruct (redis_dequeue_moves _ _ _ _ _ _ _ E) as (_ & Hpend & _).
    cbn [snd]. rewrite Hpend. by case_decide.
  - change (zScore q j (Redis.pendingSets (Redis.ack t x del db)) = None).
    unfold Redis.ack, Redis.hGetAll, Redis.del. destruct del; [|assumption].
    by rewrite lookup_delete_eq.
  - change (zScore q j (Redis.pendingSets (Redis.nack t x o db)) = None).
    unfold Redis.nack, Redis.hGetAll.
    destruct (Redis.hashes db !! x) as [[jobData|?]|]; [|assumption..].
    destruct (wantsRequeue o) eqn:Ew; [|assumption].
    cbn [Redis.pendingSets]. rewrite zScore_zAdd, decide_False; [assumption|].
    intros [_ Hid]. apply Hop. simpl. by split.
  - change (zScore q j (Redis.pendingSets (Redis.logEvent t l x e dt db)) = None).
    unfold Redis.logEvent, Redis.hGetAll.
    by destruct (Redis.hashes db !! x) as [[jobData|?]|].
Qed.

Lemma redis_run_not_member ops :
  ∀ db q j,
  Forall (λ op, ¬ revives j op) ops →
  zScore q j (Redis.pendingSets db) = None →
  zScore q j (Redis.pendingSets (run redisAdapter db ops)) = None.
Proof.
  unfold run. induction ops as [|op ops IH]; intros db q j Hops Hj; simpl; [assumption|].
  apply Forall_cons in Hops as [Hop Hops].
  apply IH; [assumption|]. by apply redis_step_not_member.
Qed.

(** X13.  A job that was claimed is not returned by any later claim until it
    is requeued by [nack] (or enqueued anew under its id): whatever other
    calls are made in between and whatever the clocks read, also long after
    the lease has run out, a later claim does not return it; in the redis
    adapter, a later claim on the same queue. *)
Theorem claimed_job_is_not_claimed_again (ops : list Op) (j : string) :
  Forall (λ op, ¬ revives j op) ops →
  (∀ t q n vt t' q' n' vt' db,
     uniqueIds (Mongodb.jobsCollection db) →
     j ∈ Job.id <$> (Mongodb.dequeue t q n vt db).1 →
     j ∉ Job.id <$>
         (Mongodb.dequeue t' q' n' vt'
            (run mongodbAdapter (Mongodb.dequeue t q n vt db).2 ops)).1) ∧
  (∀ t q n vt t' q' n' vt' db,
     uniqueIds (Drizzle.jobs db) →
     j ∈ Job.id <$> (Drizzle.dequeue t q n vt db).1 →
     j ∉ Job.id <$>
         (Drizzle.dequeue t' q' n' vt'
            (run drizzleAdapter (Drizzle.dequeue t q n vt db).2 ops)).1) ∧
  (∀ t q n vt t' n' vt' db,
     j ∈ Job.id <$> (Redis.dequeue t q n vt db).1 →
     j ∉ Job.id <$>
         (Redis.dequeue t' q n' vt'
            (run redisAdapter (Redis.dequeue t q n vt db).2 ops)).1).
Proof.
  intros Hops. split_and!.
  - intros t q n vt t' q' n' vt' db Hu Hin Hagain.
    apply list_elem_of_fmap in Hin as (job & -> & Hjob).
    destruct (Mongodb.dequeue t q n vt db) as [jobs db1] eqn:E. cbn [fst snd] in *.
    destruct (mongodb_dequeue_claims _ _ _ _ _ _ _ Hu E) as [Hc _].
    destruct (claims_jobs _ _ _ _ _ _ Hc job Hjob) as (d0 & _ & _ & _ & Heq & Hget).
    destruct (mongodb_run_not_pending ops db1 (Job.id job)) as [Hu' Hnp];
      [apply Hc|assumption| |].
    { intros d Hd. unfold Mongodb.getJob in Hd. rewrite Hget in Hd.
      injection Hd as <-. by rewrite Heq. }
    apply list_elem_of_fmap in Hagain as (job' & Hid & Hjob').
    destruct claimed_jobs_were_eligible as (Hgate & _ & _).
    destruct (Hgate _ _ _ _ _ _ Hu' Hjob') as (old & Hold & _ & Helig & _).
    rewrite <- Hid in Hold. apply (Hnp old Hold).
    unfold eligible in Helig. tauto.
  - intros t q n vt t' q' n' vt' db Hu Hin Hagain.
    apply list_elem_of_fmap in Hin as (job & -> & Hjob).
    destruct (Drizzle.dequeue t q n vt db) as [jobs db1] eqn:E. cbn [fst snd] in *.
    destruct (drizzle_dequeue_spec _ _ _ _ _ _ _ Hu E) as (Hu1 & _ & _ & _ & Hjobs).
    destruct (Hjobs job Hjob) as (d0 & _ & _ & Heq & Hget).
    destruct (drizzle_run_not_pending ops db1 (Job.id job)) as [Hu' Hnp];
      [assumption|assumption| |].
    { intros d Hd. rewrite Hget in Hd. injection Hd as <-. by rewrite Heq. }
    apply list_elem_of_fmap in Hagain as (job' & Hid & Hjob').
    destruct claimed_jobs_were_eligible as (_ & Hgate & _).
    destruct (Hgate _ _ _ _ _ _ Hu' Hjob') as (old & Hold & _ & Helig & _).
    rewrite <- Hid in Hold. apply (Hnp old Hold).
    unfold eligible in Helig. tauto.
  - intros t q n vt t' n' vt' db Hin Hagain.
    destruct (Redis.dequeue t q n vt db) as [jobs db1] eqn:E. cbn [fst snd] in *.
    destruct (redis_dequeue_moves _ _ _ _ _ _ _ E) as (_ & Hpend & _).
    assert (Hout : zScore q j (Redis.pendingSets (run redisAdapter db1 ops)) = None).
    { apply redis_run_not_member; [assumption|].
      rewrite Hpend. by rewrite decide_True. }
    destruct (Redis.dequeue t' q n' vt' (run redisAdapter db1 ops))
      as [jobs' db2] eqn:E'. cbn [fst] in *.
    destruct (redis_dequeue_moves _ _ _ _ _ _ _ E') as (Hrange & _).
    apply list_elem_of_fmap in Hagain as (job' & -> & Hjob').
    destruct (Hrange job' Hjob') as (score & Hs & _). congruence.
Qed.

Lemma claimed_job_is_not_claimed_again_witness :
  let db := Mongodb.mkDb [sampleJob] [] in
  "job_1"%string ∈ Job.id <$> (Mongodb.dequeue 2000 "q" 1 30000 db).1 ∧
  "job_1"%string ∉
    Job.id <$>
      (Mongodb.dequeue 99000 "q" 1 30000
         (run mongodbAdapter (Mongodb.dequeue 2000 "q" 1 30000 db).2
            [OpLogEvent 2500 "log_1" "job_1" "progress" None;
             OpDequeue 40000 "q" 5 30000])).1.
Proof.
  intros db.
  assert (Hfirst : "job_1"%string ∈ Job.id <$> (Mongodb.dequeue 2000 "q" 1 30000 db).1).
  { vm_compute. apply list_elem_of_here. }
  split; [exact Hfirst|].
  assert (Hops : Forall (λ op, ¬ revives "job_1" op)
            [OpLogEvent 2500 "log_1" "job_1" "progress" None;
             OpDequeue 40000 "q" 5 30000]).
  { repeat constructor; simpl; tauto. }
  destruct (claimed_job_is_not_claimed_again _ "job_1" Hops) as (Hmongo & _ & _).
  apply (Hmongo 2000 "q"%string 1%nat 30000 99000 "q"%string 1%nat 30000 db);
    [|exact Hfirst].
  unfold uniqueIds. simpl. apply NoDup_singleton.
Defined.

(** ** The worker: what a dispatched job ends as *)

Section WorkerSettles.
Import Worker.
Context {St : Type} (A : Adapter.t St) (inv : St → Prop) `{!Contract A inv}.
Context (env : Env).

(** An invariant of one job, kept by the calls of the other jobs and
    moved on by its own, holds at the end of every interleaving. *)
Lemma interleaved_invariant (P : list Action → Run St → Prop) (j : string) l :
  (∀ rest r a, ¬ about j a → (∀ e s, a ≠ Logger e s) →
               P rest r → P rest (exec A env r a)) →
  (∀ rest r e s, P rest r → P rest (exec A env r (Logger e s))) →
  (∀ rest r a, P (a :: rest) r → P rest (exec A env r a)) →
  ∀ ts i rest r,
  Interleaves ts l →
  ts !! i = Some rest →
  (∀ k other, k ≠ i → ts !! k = Some other →
     Forall (λ a, ¬ about j a) other) →
  P rest r → P [] (foldl (exec A env) r l).
Proof.
  intros Hother Hlogger Hown ts i rest r Hl. revert i rest r.
  induction Hl as [ts Hall|ts i' a t l Hi' Hl IH]; intros i rest r Hi Hothers HP.
  - rewrite Forall_forall in Hall. rewrite (Hall rest) in HP; [done|].
    by eapply list_elem_of_lookup_2.
  - simpl. destruct (decide (i' = i)) as [->|Hne].
    + rewrite Hi in Hi'. injection Hi' as ->.
      apply (IH i t).
      * apply list_lookup_insert_eq. by eapply lookup_lt_Some.
      * intros k other Hk. rewrite list_lookup_insert_ne by done. by apply Hothers.
      * by apply Hown.
    + pose proof (Hothers i' _ Hne Hi') as Hat.
      apply Forall_cons in Hat as [Ha Ht].
      apply (IH i rest).
      * by rewrite list_lookup_insert_ne.
      * intros k other Hk. destruct (decide (k = i')) as [->|Hk'].
        -- rewrite list_lookup_insert_eq by (by eapply lookup_lt_Some).
           by intros [= <-].
        -- rewrite list_lookup_insert_ne by done. by apply Hothers.
      * destruct a as [y|y opts|y e d|e s]; [apply Hother; done..|apply Hlogger; done].
Qed.

Lemma exec_other r a j :
  ¬ about j a →
  Adapter.getJob A j (store (exec A env r a)) = Adapter.getJob A j (store r).
Proof.
  destruct a as [y|y opts|y e d|e s]; simpl; intros Hj.
  - rewrite contract_ack. by rewrite decide_False.
  - rewrite contract_nack. by rewrite decide_False.
  - by rewrite contract_logEvent.
  - done.
Qed.

Lemma exec_own r a j cur :
  Adapter.getJob A j (store r) = Some cur →
  about j a ∨ (∃ e s, a = Logger e s) →
  ∃ cur', Adapter.getJob A j (store (exec A env r a)) = Some cur' ∧
    Job.attempts cur' = Job.attempts cur ∧
    Job.status cur' = statusAfter (Job.status cur) a.
Proof.
  intros Hcur [Ha|(e & s & ->)]; [|by exists cur].
  destruct a as [y|y opts|y e d|e s]; simpl in Ha; [subst y..|done]; simpl.
  - rewrite contract_ack, decide_True, Hcur by done. by eexists.
  - rewrite contract_nack, decide_True, Hcur by done. eexists.
    split; [reflexivity|]. unfold nackPatch. by destruct (wantsRequeue opts).
  - rewrite contract_logEvent. by exists cur.
Qed.

Lemma exec_logged r a j e :
  logged A j e (store r) → logged A j e (store (exec A env r a)).
Proof.
  intros (x & Hx & He). exists x. split; [|done]. by apply (exec_getLogs_mono A inv).
Qed.

Lemma pollQueue_settles concurrency vt q handler (r : Run St) jobs s1 job :
  inv (store r) →
  (∀ ts, Interleaves ts (schedule env ts)) →
  Adapter.dequeue A (now env (reads r)) q concurrency vt (store r) = (jobs, s1) →
  job ∈ jobs →
  ∃ old new,
    Adapter.getJob A (Job.id job) (store r) = Some old ∧
    Adapter.getJob A (Job.id job)
      (store (pollQueue A env concurrency vt q handler r).2) = Some new ∧
    Job.attempts new = Job.attempts old + 1 ∧
    Job.status new = settle processing (dispatch env handler job) ∧
    ∀ e d, LogEvent (Job.id job) e d ∈ dispatch env handler job →
           logged A (Job.id job) e
             (store (pollQueue A env concurrency vt q handler r).2).
Proof.
  intros Hinv Hsched Hdeq Hjob. unfold pollQueue. rewrite Hdeq.
  destruct (contract_dequeue _ _ _ _ _ _ _ Hinv Hdeq) as (Hnd & Hlogs & Hjobs).
  destruct (Hjobs job Hjob) as (old & Hold & Hnew). exists old.
  destruct jobs as [|j0 jobs0] eqn:Ejobs; [by apply elem_of_nil in Hjob|].
  rewrite <- Ejobs in *. clear Ejobs j0 jobs0. cbn [snd].
  set (j := Job.id job) in *. set (task := dispatch env handler job).
  set (P := λ (rest : list Action) (r0 : Run St),
    ∃ cur done,
      Adapter.getJob A j (store r0) = Some cur ∧
      Job.attempts cur = Job.attempts old + 1 ∧
      settle (Job.status cur) rest = settle processing task ∧
      task = done ++ rest ∧
      ∀ e d, LogEvent j e d ∈ done → logged A j e (store r0)).
  apply list_elem_of_lookup in Hjob as [i Hi].
  assert (HP : P [] (foldl (exec A env)
                       {| store := s1; reads := S (reads r); sink := sink r |}
                       (schedule env (dispatch env handler <$> jobs)))).
  { apply (interleaved_invariant P j _) with
      (ts := dispatch env handler <$> jobs) (i := i) (rest := task).
    - intros rest r0 a Ha _ (cur & done & Hcur & Hn & Hst & Htask & Hlog).
      exists cur, done. rewrite exec_other by done.
      split_and!; [done..|]. intros e d Hin. by apply exec_logged, (Hlog e d).
    - intros rest r0 e s (cur & done & Hcur & Hn & Hst & Htask & Hlog).
      exists cur, done. by split_and!.
    - intros rest r0 a (cur & done & Hcur & Hn & Hst & Htask & Hlog).
      assert (Ha : about j a ∨ ∃ e s, a = Logger e s).
      { destruct (dispatch_about env handler job a) as [?|[e ->]]; [|by left|eauto].
        fold task. rewrite Htask. apply elem_of_app. right. by left. }
      destruct (exec_own r0 a j cur Hcur Ha) as (cur' & Hcur' & Hn' & Hst').
      exists cur', (done ++ [a]). split_and!; [done|congruence| | |].
      + rewrite Hst'. exact Hst.
      + by rewrite <- app_assoc.
      + intros e d [Hin|Hin]%elem_of_app.
        * by apply exec_logged, (Hlog e d).
        * apply list_elem_of_singleton in Hin. subst a.
          eexists (JobLog.mk _ _ _ _ _ _). split; [|reflexivity].
          simpl. apply contract_logEvent_logs.
          right. split; [done|]. eexists. split; [exact Hcur|reflexivity].
    - apply Hsched.
    - by rewrite list_lookup_fmap, Hi.
    - intros k other Hk. rewrite list_lookup_fmap.
      destruct (jobs !! k) as [jk|] eqn:Ek; [|done]. intros [= <-].
      apply Forall_forall. intros a [Ha|[e ->]]%dispatch_about; [|simpl; tauto].
      intros Ha'. apply Hk. unfold j in Ha'.
      apply (NoDup_lookup (Job.id <$> jobs) k i (Job.id job)); [done| |].
      + rewrite list_lookup_fmap, Ek. simpl. f_equal.
        destruct a; simpl in Ha, Ha'; [congruence..|done].
      + by rewrite list_lookup_fmap, Hi.
    - exists (claimed (now env (reads r) + vt) (now env (reads r)) old), [].
      split_and!; [exact Hnew|reflexivity|reflexivity|reflexivity|].
      intros e d Hin. by apply elem_of_nil in Hin. }
  destruct HP as (new & done & Hnew' & Hn & Hst & Htask & Hlog).
  rewrite app_nil_r in Htask. subst done.
  exists new. split_and!; [done..|]. exact Hlog.
Qed.
End WorkerSettles.

(** X14.  What the worker leaves of a job it dispatched, for any handler,
    any adapter that keeps the contract and any order in which the calls of
    the jobs dispatched together reach the store: [getJob] shows the job with
    one more attempt than before the claim and with the status its own calls
    settle, in their order, starting from [processing] ([ack] makes it
    [completed], [nack] makes it [pending] or, with [requeue = false],
    [failed], and the [catch] of a throwing handler requeues); and every
    event these calls log is in the audit log of the job.  In particular a
    handler that returns without resolving the job leaves it [processing]:
    the worker itself never acknowledges. *)
Theorem worker_settles_job
    {St : Type} (A : Adapter.t St) (inv : St → Prop) `{!Contract A inv}
    (env : Worker.Env) (concurrency : nat) (visibilityTimeoutMs : Z)
    (q : string) (handler : Worker.QueueHandler) (r : Worker.Run St)
    (jobs : list Job.t) (claimedStore : St) (job : Job.t) :
  inv (Worker.store r) →
  (∀ ts, Worker.Interleaves ts (Worker.schedule env ts)) →
  Adapter.dequeue A (Worker.now env (Worker.reads r)) q concurrency
    visibilityTimeoutMs (Worker.store r) = (jobs, claimedStore) →
  job ∈ jobs →
  let r' := (Worker.pollQueue A env concurrency visibilityTimeoutMs q handler r).2 in
  ∃ old new,
    Adapter.getJob A (Job.id job) (Worker.store r) = Some old ∧
    Adapter.getJob A (Job.id job) (Worker.store r') = Some new ∧
    Job.attempts new = Job.attempts old + 1 ∧
    Job.status new = settle processing (Worker.dispatch env handler job) ∧
    (∀ e d, Worker.LogEvent (Job.id job) e d ∈ Worker.dispatch env handler job →
            logged A (Job.id job) e (Worker.store r')) ∧
    (handler job = ([], Worker.Returns) → Job.status new = processing) ∧
    (handler job = ([Worker.CallAck], Worker.Returns) →
     Job.status new = completed ∧ logged A (Job.id job) "ack" (Worker.store r')).
Proof.
  intros Hinv Hsched Hdeq Hjob r'.
  destruct (pollQueue_settles A inv env concurrency visibilityTimeoutMs q handler r
              jobs claimedStore job Hinv Hsched Hdeq Hjob)
    as (old & new & Hold & Hnew & Hn & Hst & Hlog).
  exists old, new. split_and!; [done..| |].
  - intros Hh. rewrite Hst. unfold Worker.dispatch. by rewrite Hh.
  - intros Hh. split.
    + rewrite Hst. unfold Worker.dispatch. by rewrite Hh.
    + apply (Hlog "ack"%string (Some "{}"%string)).
      unfold Worker.dispatch. rewrite Hh. simpl.
      apply elem_of_cons. right. apply list_elem_of_here.
Qed.

Lemma worker_settles_job_witness :
  let r := Worker.mkRun (Mongodb.mkDb [sampleJob] []) 0 [] in
  let handler : Worker.QueueHandler := λ _, ([Worker.CallAck], Worker.Returns) in
  let r' := (Worker.pollQueue mongodbAdapter sampleEnv 1 30000 "q" handler r).2 in
  ∃ old new,
    Mongodb.getJob "job_1" (Worker.store r) = Some old ∧
    Mongodb.getJob "job_1" (Worker.store r') = Some new ∧
    Job.attempts new = Job.attempts old + 1 ∧
    Job.status new = completed.
Proof.
  intros r handler r'.
  assert (Hinv : uniqueIds (Mongodb.jobsCollection (Worker.store r))).
  { unfold uniqueIds. simpl. apply NoDup_singleton. }
  assert (Hsched : ∀ ts, Worker.Interleaves ts (Worker.schedule sampleEnv ts)).
  { intros ts. apply Interleaves_concat. }
  destruct (worker_settles_job mongodbAdapter _ sampleEnv 1 30000 "q" handler r
              [claimed 32000 2000 sampleJob] _ (claimed 32000 2000 sampleJob) Hinv Hsched eq_refl
              (list_elem_of_here _ _))
    as (old & new & Hold & Hnew & Hn & Hst & _).
  exists old, new. split_and!; [exact Hold|exact Hnew|exact Hn|].
  rewrite Hst. reflexivity.
Defined.

(** ** [listen]: the registry of handlers *)

Section Listen.
Import Worker.

Lemma handlerOf_cons q q' h listeners :
  handlerOf q ((q', h) :: listeners) =
  if decide (q' = q) then Some h else handlerOf q listeners.
Proof.
  unfold handlerOf. rewrite filter_cons. simpl. by case_decide.
Qed.

Lemma listen_keys q handler listeners :
  (listen q handler listeners).*1 =
  if decide (q ∈ listeners.*1) then listeners.*1 else listeners.*1 ++ [q].
Proof.
  induction listeners as [|[k h] rest IH].
  - by destruct (decide (q ∈ ([] : list (string * QueueHandler)).*1))
      as [?%elem_of_nil|].
  - cbn [listen]. rewrite fmap_cons. cbn [fst].
    destruct (decide (k = q)) as [->|Hk].
    + rewrite fmap_cons. cbn [fst]. rewrite decide_True; [done|]. by left.
    + rewrite fmap_cons, IH. cbn [fst].
      destruct (decide (q ∈ rest.*1)) as [Hin|Hout].
      * rewrite decide_True; [done|]. by right.
      * rewrite decide_False; [done|].
        intros [?|?]%elem_of_cons; [congruence|done].
Qed.

Lemma handlerOf_listen q handler listeners q' :
  handlerOf q' (listen q handler listeners) =
  if decide (q' = q) then Some handler else handlerOf q' listeners.
Proof.
  induction listeners as [|[k h] rest IH]; simpl.
  - rewrite handlerOf_cons. by repeat case_decide.
  - destruct (decide (k = q)) as [->|Hk].
    + rewrite !handlerOf_cons. by repeat case_decide.
    + rewrite !handlerOf_cons, IH. repeat case_decide; congruence.
Qed.

Lemma handlerOf_elem q h listeners :
  NoDup listeners.*1 → (q, h) ∈ listeners → handlerOf q listeners = Some h.
Proof.
  induction listeners as [|[k h'] rest IH]; simpl; intros Hnd Hin.
  - by apply elem_of_nil in Hin.
  - apply NoDup_cons in Hnd as [Hk Hnd]. rewrite handlerOf_cons.
    apply elem_of_cons in Hin as [[= -> ->]|Hin].
    + by rewrite decide_True.
    + rewrite decide_False; [by apply IH|].
      intros ->. apply Hk. apply list_elem_of_fmap. by exists (q, h).
Qed.
End Listen.

(** X15.  [listen] registers one handler for each queue name: after
    [listen(q, handler)] the registry gives [handler] for [q] and what it
    gave before for every other name; a name registered again keeps its
    place in the round and a new one goes last; names stay distinct, so that
    the handler the loop runs for each name of the round is the one the
    registry gives. *)
Theorem listen_registers
    (q : string) (handler : Worker.QueueHandler)
    (listeners : list (string * Worker.QueueHandler)) :
  NoDup listeners.*1 →
  let listeners' := Worker.listen q handler listeners in
  NoDup listeners'.*1 ∧
  Worker.handlerOf q listeners' = Some handler ∧
  (∀ q', q' ≠ q → Worker.handlerOf q' listeners' = Worker.handlerOf q' listeners) ∧
  listeners'.*1 =
    (if decide (q ∈ listeners.*1) then listeners.*1 else listeners.*1 ++ [q]) ∧
  (∀ q' h, (q', h) ∈ listeners' → Worker.handlerOf q' listeners' = Some h).
Proof.
  intros Hnd listeners'.
  assert (Hnd' : NoDup listeners'.*1).
  { unfold listeners'. rewrite listen_keys. case_decide as Hin; [assumption|].
    apply NoDup_app. split_and!; [assumption| |apply NoDup_singleton].
    intros x Hx Hx'. apply list_elem_of_singleton in Hx'. by subst x. }
  split_and!.
  - exact Hnd'.
  - unfold listeners'. rewrite handlerOf_listen. by rewrite decide_True.
  - intros q' Hq'. unfold listeners'. rewrite handlerOf_listen. by rewrite decide_False.
  - apply listen_keys.
  - intros q' h Hin. by apply handlerOf_elem.
Qed.

Lemma listen_registers_witness :
  Worker.handlerOf "q"
    (Worker.listen "q" (λ _, ([Worker.CallAck], Worker.Returns))
       [("q"%string, alwaysThrows); ("mail"%string, alwaysThrows)]) =
  Some (λ _, ([Worker.CallAck], Worker.Returns)) ∧
  (Worker.listen "q" (λ _, ([Worker.CallAck], Worker.Returns))
     [("q"%string, alwaysThrows); ("mail"%string, alwaysThrows)]).*1 =
  ["q"%string; "mail"%string].
Proof.
  assert (Hnd : NoDup [("q"%string, alwaysThrows); ("mail"%string, alwaysThrows)].*1).
  { simpl. apply NoDup_cons. split; [|apply NoDup_singleton].
    intros H. apply list_elem_of_singleton in H. discriminate. }
  destruct (listen_registers "q" (λ _, ([Worker.CallAck], Worker.Returns)) _ Hnd)
    as (_ & Hget & _ & Hkeys & _).
  split; [exact Hget|]. rewrite Hkeys. reflexivity.
Defined.

(** ** [stats] *)

Section StatsFacts.
Context (queue : option string) (all : list Job.t).

Local Abbreviation rows := (filter (inQueue queue) all).
Local Abbreviation keys := (remove_dups (statsKey <$> filter (inQueue queue) all)).

Lemma inQueue_same d d' :
  inQueue queue d → Job.queue d' = Job.queue d → inQueue queue d'.
Proof.
  unfold inQueue. destruct queue as [q|]; [|done].
  case_decide; [done|]. congruence.
Qed.

Lemma keys_NoDup : NoDup keys.
Proof. apply NoDup_remove_dups. Qed.

Lemma keys_elem k : k ∈ keys ↔ ∃ d, d ∈ rows ∧ statsKey d = k.
Proof.
  rewrite elem_of_remove_dups, list_elem_of_fmap.
  split; intros (d & ? & ?); exists d; done.
Qed.

Lemma queues_elem q :
  q ∈ remove_dups (keys.*1) ↔
  ∃ d, d ∈ all ∧ inQueue queue d ∧ Job.queue d = q.
Proof.
  rewrite elem_of_remove_dups, list_elem_of_fmap. split.
  - intros (k & -> & Hk). apply keys_elem in Hk as (d & Hd & <-).
    apply list_elem_of_filter in Hd as [Hq Hd]. by exists d.
  - intros (d & Hd & Hq & <-). exists (statsKey d). split; [done|].
    apply keys_elem. exists d. split; [|done]. by apply list_elem_of_filter.
Qed.

(** The count of a group is the number of jobs of the whole collection
    with this queue and status, for a queue that has a job among [rows]. *)
Lemma count_rows q s :
  (∃ d, d ∈ rows ∧ Job.queue d = q) →
  Z.of_nat (length (filter (λ d, statsKey d = (q, s)) rows)) = countJobs q s all.
Proof.
  intros (d0 & Hd0 & Hq0). unfold countJobs. f_equal. f_equal.
  rewrite list_filter_filter. apply list_filter_iff.
  intros d. split; [tauto|]. intros Hk. split; [done|].
  apply list_elem_of_filter in Hd0 as [Hin0 _].
  apply (inQueue_same d0); [done|]. unfold statsKey in Hk. congruence.
Qed.

Lemma count_absent q s :
  (q, s) ∉ keys → countJobs q s rows = 0.
Proof.
  intros Hk. unfold countJobs.
  destruct (filter (λ d, statsKey d = (q, s)) rows) as [|d ds] eqn:E; [done|].
  exfalso. apply Hk, keys_elem. exists d.
  assert (d ∈ filter (λ d, statsKey d = (q, s)) rows) as Hd by (rewrite E; by left).
  apply list_elem_of_filter in Hd as [? ?]. done.
Qed.

Lemma count_rows_all q s :
  (∃ d, d ∈ rows ∧ Job.queue d = q) → countJobs q s rows = countJobs q s all.
Proof. intros H. unfold countJobs at 1. by apply count_rows. Qed.

(** The conditional sums of the second [$group] stage of mongodb. *)
Lemma sum_cond (f : string * JobStatus → Z) q s (ks : list (string * JobStatus)) :
  NoDup ks →
  Mongodb.sum
    ((λ r : string * JobStatus * Z, if decide (r.1.2 = s) then r.2 else 0) <$>
     filter (λ r : string * JobStatus * Z, r.1.1 = q) ((λ k, (k, f k)) <$> ks)) =
  if decide ((q, s) ∈ ks) then f (q, s) else 0.
Proof.
  induction ks as [|[q' s'] ks IH]; intros Hnd.
  - by destruct (decide ((q, s) ∈ [])) as [?%elem_of_nil|].
  - apply NoDup_cons in Hnd as [Hfresh Hnd]. specialize (IH Hnd).
    rewrite fmap_cons, filter_cons. cbn [fst snd].
    destruct (decide (q' = q)) as [->|Hq].
    + rewrite fmap_cons. cbn [Mongodb.sum foldr fst snd].
      fold (Mongodb.sum
        ((λ r : string * JobStatus * Z, if decide (r.1.2 = s) then r.2 else 0) <$>
         filter (λ r : string * JobStatus * Z, r.1.1 = q) ((λ k, (k, f k)) <$> ks))).
      rewrite IH. destruct (decide (s' = s)) as [->|Hs].
      * rewrite (decide_True (P := (q, s) ∈ (q, s) :: ks)) by (by left).
        rewrite decide_False by done. lia.
      * destruct (decide ((q, s) ∈ ks)) as [Hin|Hout].
        -- rewrite decide_True by (by right). lia.
        -- rewrite decide_False; [lia|].
           intros [[=]|?]%elem_of_cons; done.
    + rewrite IH. destruct (decide ((q, s) ∈ ks)) as [Hin|Hout].
      * rewrite decide_True by (by right). done.
      * rewrite decide_False; [done|].
        intros [[=]|?]%elem_of_cons; done.
Qed.

Lemma group_counted :
  (λ g : string * JobStatus * list Job.t, (g.1, Z.of_nat (length g.2))) <$>
    Mongodb.group statsKey rows =
  (λ k, (k, countJobs k.1 k.2 rows)) <$> keys.
Proof.
  unfold Mongodb.group. rewrite <- list_fmap_compose.
  apply list_fmap_ext. intros _ [q s] _. reflexivity.
Qed.

Lemma mongodb_stats_eq db :
  Mongodb.jobsCollection db = all →
  Mongodb.stats queue db =
  (λ q,
     let sumIf (status : JobStatus) :=
       if decide ((q, status) ∈ keys) then countJobs q status rows else 0 in
     QueueStats.mk q (sumIf pending) (sumIf processing) (sumIf completed)
       (sumIf failed) None)
  <$> remove_dups (keys.*1).
Proof.
  intros Hall. unfold Mongodb.stats. cbv zeta. rewrite Hall, group_counted.
  unfold Mongodb.group. rewrite <- list_fmap_compose.
  assert (Hkeys : (λ r : string * JobStatus * Z, r.1.1) <$>
            ((λ k, (k, countJobs k.1 k.2 rows)) <$> keys) = keys.*1).
  { rewrite <- list_fmap_compose. by apply list_fmap_ext. }
  rewrite Hkeys. apply list_fmap_ext. intros _ q _. cbn [compose fst snd].
  by rewrite !(sum_cond (λ k, countJobs k.1 k.2 rows) q _ keys keys_NoDup).
Qed.

(** The loop of drizzle over the rows of the query. *)
Lemma statsMap_get_cons key k v statsMap :
  Drizzle.statsMap_get key ((k, v) :: statsMap) =
  if decide (k = key) then Some v else Drizzle.statsMap_get key statsMap.
Proof.
  unfold Drizzle.statsMap_get. rewrite filter_cons. simpl. by case_decide.
Qed.

Lemma statsMap_get_set key value statsMap k :
  Drizzle.statsMap_get k (Drizzle.statsMap_set key value statsMap) =
  if decide (k = key) then Some value else Drizzle.statsMap_get k statsMap.
Proof.
  induction statsMap as [|[k' v'] rest IH]; simpl.
  - rewrite statsMap_get_cons. by repeat case_decide.
  - destruct (decide (k' = key)) as [->|Hk].
    + rewrite !statsMap_get_cons. by repeat case_decide.
    + rewrite !statsMap_get_cons, IH. repeat case_decide; congruence.
Qed.

Lemma statsMap_set_keys key value statsMap :
  (Drizzle.statsMap_set key value statsMap).*1 =
  if decide (key ∈ statsMap.*1) then statsMap.*1 else statsMap.*1 ++ [key].
Proof.
  induction statsMap as [|[k v] rest IH].
  - by destruct (decide (key ∈ ([] : list (string * QueueStats.t)).*1))
      as [?%elem_of_nil|].
  - cbn [Drizzle.statsMap_set]. rewrite fmap_cons. cbn [fst].
    destruct (decide (k = key)) as [->|Hk].
    + rewrite fmap_cons. cbn [fst]. rewrite decide_True; [done|]. by left.
    + rewrite fmap_cons, IH. cbn [fst].
      destruct (decide (key ∈ rest.*1)) as [Hin|Hout].
      * rewrite decide_True; [done|]. by right.
      * rewrite decide_False; [done|].
        intros [?|?]%elem_of_cons; [congruence|done].
Qed.

Lemma statsMap_get_elem key value statsMap :
  NoDup statsMap.*1 → (key, value) ∈ statsMap →
  Drizzle.statsMap_get key statsMap = Some value.
Proof.
  induction statsMap as [|[k v] rest IH]; simpl; intros Hnd Hin.
  - by apply elem_of_nil in Hin.
  - apply NoDup_cons in Hnd as [Hk Hnd]. rewrite statsMap_get_cons.
    apply elem_of_cons in Hin as [[= -> ->]|Hin].
    + by rewrite decide_True.
    + rewrite decide_False; [by apply IH|].
      intros ->. apply Hk. apply list_elem_of_fmap. by exists (key, value).
Qed.

Lemma statsMap_get_None key statsMap :
  key ∉ statsMap.*1 → Drizzle.statsMap_get key statsMap = None.
Proof.
  induction statsMap as [|[k v] rest IH]; intros Hk; [done|].
  rewrite statsMap_get_cons. rewrite fmap_cons in Hk. cbn [fst] in Hk.
  apply not_elem_of_cons in Hk as [Hne Hk]. rewrite decide_False by done.
  by apply IH.
Qed.

Lemma statOf_setStatus s s' count e :
  statOf s (Drizzle.setStatus s' count e) =
  if decide (s = s') then Some count else statOf s e.
Proof. destruct e, s, s'; reflexivity. Qed.

Lemma queue_setStatus s count e :
  QueueStats.queue (Drizzle.setStatus s count e) = QueueStats.queue e.
Proof. by destruct e, s. Qed.

Lemma drizzle_loop (f : string * JobStatus → Z) (ks : list (string * JobStatus)) :
  NoDup ks →
  let statsMap :=
    foldl (λ statsMap (row : string * JobStatus * Z),
             let stats :=
               default (QueueStats.mk row.1.1 0 0 0 0 None)
                       (Drizzle.statsMap_get row.1.1 statsMap) in
             Drizzle.statsMap_set row.1.1
               (Drizzle.setStatus row.1.2 row.2 stats) statsMap)
          [] ((λ k, (k, f k)) <$> ks) in
  NoDup statsMap.*1 ∧
  (∀ q, q ∈ statsMap.*1 ↔ ∃ k, k ∈ ks ∧ k.1 = q) ∧
  (∀ q e, Drizzle.statsMap_get q statsMap = Some e →
     QueueStats.queue e = q ∧
     ∀ s, statOf s e =
          if decide ((q, s) ∈ ks) then Some (f (q, s))
          else if decide (s = expired) then None else Some 0).
Proof.
  induction ks as [|[q0 s0] ks IH] using rev_ind; intros Hnd statsMap.
  - subst statsMap. simpl. split_and!.
    + constructor.
    + intros q. split; [by intros ?%elem_of_nil|].
      intros (k & ?%elem_of_nil & _). done.
    + intros q e. discriminate.
  - apply NoDup_app in Hnd as (Hnd & Hfresh & _).
    destruct (IH Hnd) as (Hkeys & Hdom & Hget). clear IH.
    subst statsMap. rewrite fmap_app, foldl_app. cbn [fmap list_fmap foldl fst snd].
    match goal with |- context [Drizzle.statsMap_set q0 _ ?m] => set (m0 := m) in * end.
    set (e0 := default (QueueStats.mk q0 0 0 0 0 None) (Drizzle.statsMap_get q0 m0)).
    assert (He0 : QueueStats.queue e0 = q0 ∧
              ∀ s, statOf s e0 =
                   if decide ((q0, s) ∈ ks) then Some (f (q0, s))
                   else if decide (s = expired) then None else Some 0).
    { unfold e0. destruct (Drizzle.statsMap_get q0 m0) as [e|] eqn:E; simpl.
      - by apply Hget.
      - split; [done|]. intros s. rewrite decide_False.
        + by destruct s.
        + intros Hin. assert (q0 ∈ m0.*1) as Hq by (apply Hdom; by exists (q0, s)).
          apply list_elem_of_fmap in Hq as ([q e] & Heq & Hqe).
          simpl in Heq. subst q.
          rewrite (statsMap_get_elem _ _ _ Hkeys Hqe) in E. discriminate. }
    destruct He0 as [Hq0 Hs0].
    split_and!.
    + rewrite statsMap_set_keys. case_decide as Hin; [done|].
      apply NoDup_app. split_and!; [done| |apply NoDup_singleton].
      intros x Hx Hx'. apply list_elem_of_singleton in Hx'. by subst x.
    + intros q. rewrite statsMap_set_keys. split.
      * intros Hq.
        assert (q ∈ m0.*1 ∨ q = q0) as [Hq'|Hq'].
        { case_decide; [by left|].
          apply elem_of_app in Hq as [?|Hq1]; [by left|].
          apply list_elem_of_singleton in Hq1. by right. }
        -- apply Hdom in Hq' as (k & Hk & <-). exists k. split; [|done].
           apply elem_of_app. by left.
        -- subst q. exists (q0, s0). split; [|done]. apply elem_of_app. right. by left.
      * intros (k & [Hk|Hk]%elem_of_app & <-).
        -- assert (k.1 ∈ m0.*1) by (apply Hdom; by exists k).
           case_decide; [done|]. apply elem_of_app. by left.
        -- apply list_elem_of_singleton in Hk. subst k. cbn [fst].
           case_decide; [done|]. apply elem_of_app. right. by left.
    + intros q e. rewrite statsMap_get_set. case_decide as Hq.
      * subst q. intros [= <-]. split; [by rewrite queue_setStatus|].
        intros s. rewrite statOf_setStatus, Hs0.
        destruct (decide (s = s0)) as [->|Hs].
        -- rewrite (decide_True (P := (q0, s0) ∈ ks ++ [(q0, s0)])); [done|].
           apply elem_of_app. right. by left.
        -- destruct (decide ((q0, s) ∈ ks)) as [Hin|Hout].
           ++ rewrite (decide_True (P := (q0, s) ∈ ks ++ [(q0, s0)])); [done|].
              apply elem_of_app. by left.
           ++ rewrite (decide_False (P := (q0, s) ∈ ks ++ [(q0, s0)])); [done|].
              intros [?|[=]%list_elem_of_singleton]%elem_of_app; done.
      * intros He. destruct (Hget q e He) as [Hqe Hse]. split; [done|].
        intros s. rewrite Hse.
        destruct (decide ((q, s) ∈ ks)) as [Hin|Hout].
        -- rewrite (decide_True (P := (q, s) ∈ ks ++ [(q0, s0)])); [done|].
           apply elem_of_app. by left.
        -- rewrite (decide_False (P := (q, s) ∈ ks ++ [(q0, s0)])); [done|].
           intros [?|[=]%list_elem_of_singleton]%elem_of_app; done.
Qed.

Lemma count_present q s : (q, s) ∈ keys → countJobs q s rows ≠ 0.
Proof.
  intros Hk. apply keys_elem in Hk as (d & Hd & Hkey). unfold countJobs.
  assert (d ∈ filter (λ d, statsKey d = (q, s)) rows) as Hin
    by (by apply list_elem_of_filter).
  destruct (filter (λ d, statsKey d = (q, s)) rows); [by apply elem_of_nil in Hin|].
  simpl. lia.
Qed.

Lemma sumIf_eq q s :
  q ∈ remove_dups (keys.*1) →
  (if decide ((q, s) ∈ keys) then countJobs q s rows else 0) = countJobs q s all.
Proof.
  intros Hq. apply queues_elem in Hq as (d & Hd & Hin & Hqd).
  assert (Hrows : countJobs q s rows = countJobs q s all).
  { apply count_rows_all. exists d. split; [|done]. by apply list_elem_of_filter. }
  case_decide as Hk; [done|]. rewrite <- Hrows. symmetry. by apply count_absent.
Qed.

Lemma mongodb_stats_spec db :
  Mongodb.jobsCollection db = all →
  NoDup (QueueStats.queue <$> Mongodb.stats queue db) ∧
  (∀ q, q ∈ QueueStats.queue <$> Mongodb.stats queue db ↔
        ∃ d, d ∈ all ∧ inQueue queue d ∧ Job.queue d = q) ∧
  (∀ e, e ∈ Mongodb.stats queue db →
     (∀ s, s ≠ expired → statOf s e = Some (countJobs (QueueStats.queue e) s all)) ∧
     QueueStats.expired e = None).
Proof.
  intros Hall. rewrite (mongodb_stats_eq db Hall).
  assert (Hq : QueueStats.queue <$>
            ((λ q,
                let sumIf (status : JobStatus) :=
                  if decide ((q, status) ∈ keys) then countJobs q status rows else 0 in
                QueueStats.mk q (sumIf pending) (sumIf processing) (sumIf completed)
                  (sumIf failed) None)
             <$> remove_dups (keys.*1)) = remove_dups (keys.*1)).
  { rewrite <- list_fmap_compose.
    etrans; [|apply list_fmap_id]. by apply list_fmap_ext. }
  rewrite Hq. split_and!.
  - apply NoDup_remove_dups.
  - apply queues_elem.
  - intros e He. apply list_elem_of_fmap in He as (q & -> & Hin). cbn zeta.
    split; [|done]. intros s Hs.
    destruct s; try done; simpl; f_equal; by apply sumIf_eq.
Qed.

Lemma drizzle_stats_spec db :
  Drizzle.jobs db = all →
  NoDup (QueueStats.queue <$> Drizzle.stats queue db) ∧
  (∀ q, q ∈ QueueStats.queue <$> Drizzle.stats queue db ↔
        ∃ d, d ∈ all ∧ inQueue queue d ∧ Job.queue d = q) ∧
  (∀ e, e ∈ Drizzle.stats queue db →
     (∀ s, s ≠ expired → statOf s e = Some (countJobs (QueueStats.queue e) s all)) ∧
     QueueStats.expired e =
       if decide (countJobs (QueueStats.queue e) expired all = 0) then None
       else Some (countJobs (QueueStats.queue e) expired all)).
Proof.
  intros Hall. unfold Drizzle.stats. cbv zeta. rewrite Hall. unfold Drizzle.select.
  destruct (drizzle_loop
              (λ k, Z.of_nat (length (filter (λ r, statsKey r = k) rows)))
              keys keys_NoDup) as (Hnd & Hdom & Hget).
  match type of Hnd with NoDup (?m.*1) => set (statsMap := m) in * end.
  assert (Hentry : ∀ q e, (q, e) ∈ statsMap → QueueStats.queue e = q).
  { intros q e Hin. by apply (Hget q e), statsMap_get_elem. }
  assert (Hq : QueueStats.queue <$> statsMap.*2 = statsMap.*1).
  { rewrite <- list_fmap_compose. apply list_fmap_ext.
    intros i [q e] Hi. simpl. apply Hentry. by eapply list_elem_of_lookup_2. }
  assert (Hqueues : ∀ q, q ∈ statsMap.*1 ↔ q ∈ remove_dups (keys.*1)).
  { intros q. rewrite Hdom, elem_of_remove_dups, list_elem_of_fmap.
    split; intros (k & ? & ?); exists k; done. }
  rewrite Hq. split_and!.
  - exact Hnd.
  - intros q. rewrite Hqueues. apply queues_elem.
  - intros e He. apply list_elem_of_fmap in He as ([q e'] & -> & Hin). cbn [snd].
    assert (Hqin : q ∈ remove_dups (keys.*1)).
    { apply Hqueues. apply list_elem_of_fmap. by exists (q, e'). }
    destruct (Hget q e' (statsMap_get_elem _ _ _ Hnd Hin)) as [-> Hstat].
    assert (Hcount : ∀ s,
      (q, s) ∈ keys → countJobs q s rows = countJobs q s all).
    { intros s _. apply count_rows_all.
      apply queues_elem in Hqin as (d & Hd & Hinq & Hqd).
      exists d. split; [|done]. by apply list_elem_of_filter. }
    split.
    + intros s Hs. rewrite Hstat, <- (sumIf_eq _ s Hqin).
      case_decide; [done|]. by rewrite decide_False.
    + specialize (Hstat expired). cbn [statOf] in Hstat. rewrite Hstat.
      destruct (decide ((q, expired) ∈ keys)) as [Hk|Hk].
      * pose proof (count_present _ _ Hk) as Hpos.
        rewrite (Hcount expired Hk) in Hpos.
        rewrite (decide_False (P := countJobs q expired all = 0)) by exact Hpos.
        f_equal. by apply Hcount.
      * rewrite (decide_True (P := countJobs q expired all = 0)); [done|].
        rewrite <- (sumIf_eq _ expired Hqin). by rewrite decide_False.
Qed.
End StatsFacts.

(** X16.  [createQueue(adapter).getStats], over the [stats] of the mongodb
    and of the drizzle adapter: the result has exactly one entry for each
    queue that holds a job (for the queue asked for alone, when a queue name
    is given and not empty), and the entry counts, under [pending],
    [processing], [completed] and [failed], the jobs of the queue with that
    status.  Jobs with status [expired] are counted nowhere by mongodb, and
    by drizzle under a key of their own.  The redis adapter reports
    nothing. *)
Theorem stats_count_jobs (queue : option string) :
  (∀ db : Mongodb.Db,
     let all := Mongodb.jobsCollection db in
     let result := Queue.getStats (Some Mongodb.stats) queue db in
     NoDup (QueueStats.queue <$> result) ∧
     (∀ q, q ∈ QueueStats.queue <$> result ↔
           ∃ d, d ∈ all ∧ inQueue queue d ∧ Job.queue d = q) ∧
     (∀ e, e ∈ result →
        QueueStats.pending e = countJobs (QueueStats.queue e) pending all ∧
        QueueStats.processing e = countJobs (QueueStats.queue e) processing all ∧
        QueueStats.completed e = countJobs (QueueStats.queue e) completed all ∧
        QueueStats.failed e = countJobs (QueueStats.queue e) failed all ∧
        QueueStats.expired e = None)) ∧
  (∀ db : Drizzle.Db,
     let all := Drizzle.jobs db in
     let result := Queue.getStats (Some Drizzle.stats) queue db in
     NoDup (QueueStats.queue <$> result) ∧
     (∀ q, q ∈ QueueStats.queue <$> result ↔
           ∃ d, d ∈ all ∧ inQueue queue d ∧ Job.queue d = q) ∧
     (∀ e, e ∈ result →
        QueueStats.pending e = countJobs (QueueStats.queue e) pending all ∧
        QueueStats.processing e = countJobs (QueueStats.queue e) processing all ∧
        QueueStats.completed e = countJobs (QueueStats.queue e) completed all ∧
        QueueStats.failed e = countJobs (QueueStats.queue e) failed all ∧
        QueueStats.expired e =
          if decide (countJobs (QueueStats.queue e) expired all = 0) then None
          else Some (countJobs (QueueStats.queue e) expired all))) ∧
  (∀ db : Redis.Db, Queue.getStats (Some Redis.stats) queue db = []).
Proof.
  split_and!.
  - intros db all result. subst all result. unfold Queue.getStats.
    destruct (mongodb_stats_spec queue _ db eq_refl) as (Hnd & Hq & He).
    split_and!; [exact Hnd|exact Hq|].
    intros e Hin. destruct (He e Hin) as [Hs Hexp].
    pose proof (Hs pending) as H1. pose proof (Hs processing) as H2.
    pose proof (Hs completed) as H3. pose proof (Hs failed) as H4.
    cbn [statOf] in *.
    split_and!; [by injection (H1 ltac:(done))|by injection (H2 ltac:(done))|
                 by injection (H3 ltac:(done))|by injection (H4 ltac:(done))|done].
  - intros db all result. subst all result. unfold Queue.getStats.
    destruct (drizzle_stats_spec queue _ db eq_refl) as (Hnd & Hq & He).
    split_and!; [exact Hnd|exact Hq|].
    intros e Hin. destruct (He e Hin) as [Hs Hexp].
    pose proof (Hs pending) as H1. pose proof (Hs processing) as H2.
    pose proof (Hs completed) as H3. pose proof (Hs failed) as H4.
    cbn [statOf] in *.
    split_and!; [by injection (H1 ltac:(done))|by injection (H2 ltac:(done))|
                 by injection (H3 ltac:(done))|by injection (H4 ltac:(done))|done].
  - done.
Qed.

(** *** Which jobs the drizzle adapter claims, and in which order *)

Lemma filter_inArray_ids ids (rows : list Job.t) :
  Job.id <$> Drizzle.select (Drizzle.inArray ids) rows =
  filter (λ x, x ∈ ids) (Job.id <$> rows).
Proof.
  unfold Drizzle.select. induction rows as [|r rows IH]; [done|].
  rewrite fmap_cons, !filter_cons.
  destruct (decide (Drizzle.inArray ids r)) as [Hr|Hr].
  - rewrite (decide_True (P := Job.id r ∈ ids)) by exact Hr.
    rewrite fmap_cons. by rewrite IH.
  - rewrite (decide_False (P := Job.id r ∈ ids)) by exact Hr. exact IH.
Qed.


Lemma drizzle_dequeue_ids t q n vt db :
  Job.id <$> (Drizzle.dequeue t q n vt db).1 ≡ₚ
  filter (λ x, x ∈ Job.id <$>
                 Drizzle.limit n
                   (Drizzle.orderBy createdAt_asc
                      (Drizzle.select (Drizzle.available q t) (Drizzle.jobs db))))
         (Job.id <$> Drizzle.jobs db).
Proof.
  unfold Drizzle.dequeue.
  destruct (Drizzle.limit n _) as [|r rows] eqn:E.
  - cbn [fst]. match goal with |- _ ≡ₚ ?l => assert (l = []) as -> end; [|done].
    apply elem_of_nil_inv. intros x Hx.
    apply list_elem_of_filter in Hx as [Hx _]. by apply elem_of_nil in Hx.
  - cbn [fst]. rewrite byPrimaryKey_perm, filter_inArray_ids, update_ids; [done|].
    intros. rewrite incAttempts_id. apply Patch_apply_id.
Qed.



(** *** What a claim of the mongodb adapter spends its limit on *)

Section MongodbSpends.
Import Mongodb.
Context (q : string) (t lu : Z).

Lemma filter_updateOne_length (P : Job.t → Prop) `{!∀ d, Decision (P d)}
    (f : Job.t → Job.t) c cand :
  uniqueIds c → cand ∈ c → ¬ P cand →
  length (filter P (updateOne (hasId (Job.id cand)) f c)) =
  (length (filter P c) + if decide (P (f cand)) then 1 else 0)%nat.
Proof.
  unfold uniqueIds. intros Hu Hin Hc.
  induction c as [|e c IH]; [by apply elem_of_nil in Hin|].
  rewrite fmap_cons in Hu. apply NoDup_cons in Hu as [Hne Hu]. simpl.
  destruct (decide (hasId (Job.id cand) e)) as [He|He].
  - assert (e = cand) as ->.
    { apply elem_of_cons in Hin as [->|Hin]; [done|]. exfalso. apply Hne.
      unfold hasId in He. rewrite He. by apply list_elem_of_fmap_2. }
    rewrite (filter_cons_False P cand) by done.
    rewrite filter_cons. case_decide; simpl; lia.
  - apply elem_of_cons in Hin as [->|Hin]; [by destruct He|].
    rewrite !filter_cons. pose proof (IH Hu Hin) as IH'.
    repeat case_decide; cbn [length]; lia.
Qed.

Lemma dequeueLoop_spends i :
  ∀ c jobs,
  uniqueIds c →
  let candidates := length (filter (candidateFilter q t) c) in
  let failedBefore := length (filter (λ d, Job.status d = failed) c) in
  let jobs' := (dequeueLoop q t lu i c jobs).1 in
  let c' := (dequeueLoop q t lu i c jobs).2 in
  (length jobs' + length (filter (λ d, Job.status d = failed) c') =
   length jobs + failedBefore + i `min` candidates)%nat ∧
  (length (filter (candidateFilter q t) c') = candidates - i `min` candidates)%nat.
Proof.
  induction i as [|i IH]; intros c jobs Hu; cbv zeta; [simpl; lia|].
  rewrite dequeueLoop_S by done.
  destruct (findOneSorted _ _ c) as [cand|] eqn:E.
  - apply findOneSorted_Some in E as (Hin & Hc & _).
    assert (Hpending : ¬ Job.status cand = failed).
    { unfold candidateFilter in Hc. destruct Hc as (_ & -> & _). done. }
    case_decide as Hex.
    + assert (Hu1 : uniqueIds (updateOne (hasId (Job.id cand))
                                 (Patch.apply (Patch.fail t)) c)).
      { unfold uniqueIds. rewrite updateOne_ids; [done|]. intros. apply Patch_apply_id. }
      destruct (IH _ jobs Hu1) as [H1 H2]. cbv zeta in H1, H2.
      rewrite H1, H2.
      rewrite (filter_updateOne_length (λ d, Job.status d = failed)) by done.
      rewrite decide_True by done.
      rewrite (candidates_updateOne q t (Patch.apply (Patch.fail t)) c cand); [lia|done..|].
      intros d. unfold candidateFilter. simpl. intros (_ & [=] & _).
    + assert (Hu1 : uniqueIds (updateOne (hasId (Job.id cand)) (claimed lu t) c)).
      { unfold uniqueIds. by rewrite updateOne_ids. }
      destruct (IH _ (jobs ++ [claimed lu t cand]) Hu1) as [H1 H2].
      cbv zeta in H1, H2. rewrite H1, H2, length_app.
      rewrite (filter_updateOne_length (λ d, Job.status d = failed)) by done.
      rewrite decide_False by done.
      rewrite (candidates_updateOne q t (claimed lu t) c cand); [simpl; lia|done..|].
      intros d. unfold candidateFilter. simpl. intros (_ & [=] & _).
  - pose proof (findOneSorted_is_None q t c E) as Hnil.
    cbn [fst snd]. rewrite !Hnil. simpl. lia.
Qed.
End MongodbSpends.

(** X18.  What a claim of the mongodb adapter spends its limit on: each of
    its [limit] rounds takes one candidate (a pending, visible, unlocked job
    of the queue) for as long as there is one, and either claims it or, when
    it has no attempt left, marks it failed.  So the jobs returned and the
    jobs newly marked failed are together [min(limit, candidates)], and that
    many candidates are gone afterwards: a claim returns fewer jobs than it
    could exactly when it has marked jobs failed. *)
Theorem mongodb_claim_spends_limit
    (t : Z) (q : string) (n : nat) (vt : Z) (db : Mongodb.Db) :
  uniqueIds (Mongodb.jobsCollection db) →
  let failedJobs := λ c : list Job.t, length (filter (λ d, Job.status d = failed) c) in
  let candidates := λ c : list Job.t, length (filter (Mongodb.candidateFilter q t) c) in
  let before := Mongodb.jobsCollection db in
  let after := Mongodb.jobsCollection (Mongodb.dequeue t q n vt db).2 in
  (length (Mongodb.dequeue t q n vt db).1 + failedJobs after =
   failedJobs before + n `min` candidates before)%nat ∧
  (candidates after = candidates before - n `min` candidates before)%nat.
Proof.
  intros Hu failedJobs candidates before after.
  subst failedJobs candidates before after. cbv beta.
  pose proof (dequeueLoop_spends q t (t + vt) n (Mongodb.jobsCollection db) [] Hu)
    as Hspend.
  cbv zeta in Hspend. unfold Mongodb.dequeue.
  destruct (Mongodb.dequeueLoop _ _ _ _ _ _) as [jobs c]. simpl in *. lia.
Qed.

Lemma mongodb_claim_spends_limit_witness :
  let db := Mongodb.mkDb [sampleExhausted] [] in
  (length (Mongodb.dequeue 2000 "q" 1 30000 db).1 +
   length (filter (λ d, Job.status d = failed)
             (Mongodb.jobsCollection (Mongodb.dequeue 2000 "q" 1 30000 db).2)) =
   0 + 1)%nat.
Proof.
  intros db.
  assert (Hu : uniqueIds (Mongodb.jobsCollection db)).
  { unfold uniqueIds. simpl. apply NoDup_singleton. }
  destruct (mongodb_claim_spends_limit 2000 "q" 1 30000 db Hu) as [H _].
  exact H.
Defined.

(** *** A claim that returns nothing *)

Lemma redis_dequeueLoop_grows q t lu limit candidates :
  ∀ db dequeued,
  ∃ new,
    (Redis.dequeueLoop q t lu limit candidates db dequeued).1 = dequeued ++ new ∧
    (new = [] → (Redis.dequeueLoop q t lu limit candidates db dequeued).2 = db).
Proof.
  induction candidates as [|jobId rest IH]; intros db dequeued;
    cbn [Redis.dequeueLoop].
  { exists []. by rewrite app_nil_r. }
  case_decide as Hfull.
  { exists []. by rewrite app_nil_r. }
  destruct (Redis.hGetAll jobId (Redis.hashes db)) as [[jobData|?]|]; [|apply IH..].
  case_decide; [apply IH|].
  match goal with |- context [Redis.dequeueLoop _ _ _ _ _ ?d ?js] =>
    destruct (IH d js) as (new & Hjobs & _) end.
  eexists (_ :: new). split.
  - rewrite Hjobs. by rewrite <- app_assoc.
  - discriminate.
Qed.

(** X19.  A claim that returns no job has written nothing, in the drizzle
    and the redis adapter: the store is the one it was.  (The mongodb adapter
    may have marked candidates without attempts left as failed.) *)
Theorem empty_claim_writes_nothing :
  (∀ t q n vt db,
     (Drizzle.dequeue t q n vt db).1 = [] → (Drizzle.dequeue t q n vt db).2 = db) ∧
  (∀ t q n vt db,
     (Redis.dequeue t q n vt db).1 = [] → (Redis.dequeue t q n vt db).2 = db).
Proof.
  split.
  - intros t q n vt db. unfold Drizzle.dequeue.
    destruct (Drizzle.limit n _) as [|r rows] eqn:E; [done|]. cbn [fst snd].
    intros Hnil. exfalso.
    assert (Hr : r ∈ Drizzle.jobs db).
    { destruct (availableJobs_elem q t n (Drizzle.jobs db) r) as [Hin _]; [|done].
      rewrite E. by left. }
    match type of Hnil with
    | Drizzle.byPrimaryKey (Drizzle.select ?P (Drizzle.update _ ?f _)) = [] =>
      assert (f r ∈ Drizzle.byPrimaryKey
                      (Drizzle.select P (Drizzle.update P f (Drizzle.jobs db))))
        as Hin
    end.
    { rewrite byPrimaryKey_perm. apply list_elem_of_filter. split.
      - unfold Drizzle.inArray. rewrite incAttempts_id, Patch_apply_id.
        rewrite fmap_cons. by left.
      - unfold Drizzle.update. apply list_elem_of_fmap. exists r. split; [|done].
        rewrite decide_True; [done|]. unfold Drizzle.inArray. rewrite fmap_cons. by left. }
    rewrite Hnil in Hin. by apply elem_of_nil in Hin.
  - intros t q n vt db. unfold Redis.dequeue.
    destruct (redis_dequeueLoop_grows q t (t + vt) n
                (Redis.zRangeByScore q 0 t (n * 2) (Redis.pendingSets db)) db [])
      as (new & Hjobs & Hsame).
    rewrite Hjobs. intros Hnil. apply Hsame. exact Hnil.
Qed.

Lemma empty_claim_writes_nothing_witness :
  (Drizzle.dequeue 2000 "q" 1 30000 (Drizzle.mkDb [sampleExhausted] [])).2 =
  Drizzle.mkDb [sampleExhausted] [].
Proof.
  destruct empty_claim_writes_nothing as (Hdrizzle & _).
  apply Hdrizzle. reflexivity.
Defined.

(** ** Examples *)

(** The counts of a store with a claimed and a pending job in one queue and
    a pending job in another. *)
Example stats_sample :
  let mail := newJob "mail" "{}" None "job_7" 1000 1000 in
  Mongodb.stats None (Mongodb.mkDb [sampleClaimed; sampleDelayed; mail] []) =
    [QueueStats.mk "q" 1 1 0 0 None; QueueStats.mk "mail" 1 0 0 0 None] ∧
  Drizzle.stats None (Drizzle.mkDb [sampleClaimed; sampleDelayed; mail] []) =
    [QueueStats.mk "q" 1 1 0 0 None; QueueStats.mk "mail" 1 0 0 0 None] ∧
  Drizzle.stats (Some "mail"%string)
    (Drizzle.mkDb [sampleClaimed; sampleDelayed; mail] []) =
    [QueueStats.mk "mail" 1 0 0 0 None] ∧
  Mongodb.stats (Some "none"%string)
    (Mongodb.mkDb [sampleClaimed; sampleDelayed; mail] []) = [].
Proof. split_and!; reflexivity. Qed.

(** *** With a limit that is large enough, a claim takes every job it may *)

Lemma mongodb_claims_every_candidate t q n vt db d :
  uniqueIds (Mongodb.jobsCollection db) →
  (length (filter (Mongodb.candidateFilter q t) (Mongodb.jobsCollection db)) ≤ n)%nat →
  d ∈ Mongodb.jobsCollection db → Mongodb.candidateFilter q t d →
  Job.attempts d < Job.maxAttempts d →
  claimed (t + vt) t d ∈ (Mongodb.dequeue t q n vt db).1.
Proof.
  intros Hu Hn Hd Hcand Hleft.
  pose proof (dequeueLoop_spends q t (t + vt) n (Mongodb.jobsCollection db) [] Hu)
    as Hspend. cbv zeta in Hspend. destruct Hspend as [_ Hgone].
  destruct (Mongodb.dequeue t q n vt db) as [jobs db'] eqn:E.
  destruct (mongodb_dequeue_claims _ _ _ _ _ _ _ Hu E) as [Hc _].
  unfold Mongodb.dequeue in E.
  destruct (Mongodb.dequeueLoop _ _ _ _ _ _) as [jobs1 c1]. injection E as -> <-.
  cbn [fst snd Mongodb.jobsCollection] in *.
  assert (Hnone : filter (Mongodb.candidateFilter q t) c1 = []).
  { apply nil_length_inv. lia. }
  pose proof (claims_evolves _ _ _ _ _ _ Hc (Job.id d)) as Hev.
  rewrite (uniqueIds_elem_findOne _ _ Hu Hd) in Hev.
  destruct Hev as [Hsame|(d0 & [= <-] & _ & [[Hex _]|(_ & _ & Hin)])].
  - exfalso. apply findOne_Some in Hsame as [Hin _].
    assert (d ∈ filter (Mongodb.candidateFilter q t) c1) as Hin'
      by (by apply list_elem_of_filter).
    rewrite Hnone in Hin'. by apply elem_of_nil in Hin'.
  - exfalso. unfold exhausted in Hex. lia.
  - exact Hin.
Qed.

Lemma drizzle_claims_every_available t q n vt db d :
  uniqueIds (Drizzle.jobs db) →
  (length (Drizzle.select (Drizzle.available q t) (Drizzle.jobs db)) ≤ n)%nat →
  d ∈ Drizzle.jobs db → Drizzle.available q t d →
  claimed (t + vt) t d ∈ (Drizzle.dequeue t q n vt db).1.
Proof.
  intros Hu Hn Hd Havail.
  assert (Hid : Job.id d ∈ Job.id <$> (Drizzle.dequeue t q n vt db).1).
  { rewrite drizzle_dequeue_ids. apply list_elem_of_filter.
    split; [|by apply list_elem_of_fmap_2].
    apply list_elem_of_fmap_2. unfold Drizzle.limit, Drizzle.orderBy.
    rewrite take_ge by (rewrite merge_sort_Permutation; exact Hn).
    rewrite merge_sort_Permutation. by apply list_elem_of_filter. }
  apply list_elem_of_fmap in Hid as (job & Hjd & Hjob).
  destruct (Drizzle.dequeue t q n vt db) as [jobs db'] eqn:E. cbn [fst] in *.
  destruct (drizzle_dequeue_spec _ _ _ _ _ _ _ Hu E) as (_ & _ & _ & _ & Hjobs).
  destruct (Hjobs job Hjob) as (d0 & Hd0 & _ & Heq & _).
  rewrite <- Hjd, drizzle_getJob_head, (drizzle_getJob_elem _ _ Hu Hd) in Hd0.
  injection Hd0 as <-. by rewrite <- Heq.
Qed.

Lemma redis_dequeueLoop_complete q t lu limit candidates :
  ∀ db dequeued x jobData,
  NoDup candidates →
  (length dequeued + length candidates ≤ limit)%nat →
  x ∈ candidates →
  Redis.hashes db !! x = Some (Redis.JobHash jobData) →
  Job.attempts jobData < Job.maxAttempts jobData →
  Job.lockedUntil jobData < t →
  x ∈ Job.id <$> (Redis.dequeueLoop q t lu limit candidates db dequeued).1.
Proof.
  induction candidates as [|jobId rest IH];
    intros db dequeued x jobData Hnd Hlen Hx Hhash Hleft Hfree.
  { by apply elem_of_nil in Hx. }
  apply NoDup_cons in Hnd as [Hfresh Hnd]. cbn [Redis.dequeueLoop].
  cbn [length] in Hlen. rewrite decide_False by lia.
  unfold Redis.hGetAll.
  assert (Hskip : x ≠ jobId →
    x ∈ Job.id <$> (Redis.dequeueLoop q t lu limit rest db dequeued).1).
  { intros Hne. apply (IH db dequeued x jobData); try done; [lia|].
    apply elem_of_cons in Hx as [?|?]; done. }
  destruct (Redis.hashes db !! jobId) as [[jd|?]|] eqn:Eh.
  - case_decide as Hgate.
    + apply Hskip. intros ->. rewrite Eh in Hhash. injection Hhash as ->. lia.
    + match goal with |- context [Redis.dequeueLoop _ _ _ _ _ ?d ?js] =>
        set (db1 := d); set (dequeued1 := js) end.
      destruct (decide (x = jobId)) as [->|Hne].
      * destruct (redis_dequeueLoop_spec q t lu limit rest db1 dequeued1 _ _ Hnd
                    (surjective_pairing _)) as (new & -> & _).
        unfold dequeued1. rewrite !fmap_app. apply elem_of_app. left.
        apply elem_of_app. right. simpl. by left.
      * apply (IH db1 dequeued1 x jobData); try done.
        -- unfold dequeued1. rewrite length_app. simpl. lia.
        -- apply elem_of_cons in Hx as [?|?]; done.
        -- unfold db1. cbn [Redis.hashes]. rewrite hSet_lookup.
           by rewrite decide_False.
  - apply Hskip. intros ->. rewrite Eh in Hhash. discriminate.
  - apply Hskip. intros ->. rewrite Eh in Hhash. discriminate.
Qed.

Lemma redis_claims_every_due t q n vt db x score old :
  (length (pendingDue q t db) ≤ n)%nat →
  zScore q x (Redis.pendingSets db) = Some score → 0 ≤ score ≤ t →
  Redis.getJob x db = Some old →
  Job.attempts old < Job.maxAttempts old → Job.lockedUntil old < t →
  withQueue q (claimed (t + vt) t old) ∈ (Redis.dequeue t q n vt db).1.
Proof.
  intros Hn Hscore Hrange Hold Hleft Hfree.
  assert (Hcand : x ∈ Redis.zRangeByScore q 0 t (n * 2) (Redis.pendingSets db)).
  { unfold Redis.zRangeByScore. fold (pendingDue q t db).
    rewrite take_ge by (rewrite merge_sort_Permutation; lia).
    apply list_elem_of_fmap. exists (x, score). split; [done|].
    rewrite merge_sort_Permutation. apply list_elem_of_filter. split; [done|].
    by apply elem_of_map_to_list. }
  assert (Hlen : (length (Redis.zRangeByScore q 0 t (n * 2) (Redis.pendingSets db)) ≤ n)%nat).
  { unfold Redis.zRangeByScore. fold (pendingDue q t db).
    rewrite length_fmap, length_take, merge_sort_Permutation. lia. }
  pose proof Hold as Hold0.
  unfold Redis.getJob, Redis.hGetAll in Hold.
  destruct (Redis.hashes db !! x) as [[jobData|?]|] eqn:Eh; [|done..].
  assert (Hid : x ∈ Job.id <$> (Redis.dequeue t q n vt db).1).
  { unfold Redis.dequeue.
    apply (redis_dequeueLoop_complete q t (t + vt) n _ db [] x jobData);
      [apply zRangeByScore_NoDup|simpl; lia|done|done|..];
      injection Hold as <-; done. }
  apply list_elem_of_fmap in Hid as (job & Hjd & Hjob).
  destruct (Redis.dequeue t q n vt db) as [jobs db'] eqn:E. cbn [fst] in *.
  destruct (redis_dequeue_moves _ _ _ _ _ _ _ E) as (_ & _ & _ & Hjobs).
  destruct (Hjobs job Hjob) as (old' & Hold' & Heq & _).
  rewrite <- Hjd, Hold0 in Hold'. injection Hold' as <-.
  by rewrite <- Heq.
Qed.

(** X20.  With a limit that is large enough, a claim takes every job it may
    take.  When [limit] is at least the number of candidates of the call
    (mongodb: the pending, visible, unlocked jobs of the queue; drizzle: the
    rows that pass the filter of the query; redis: the members of the pending
    set of the queue that are due), the claim returns, as claimed, every one
    of them that has an attempt left (and, in redis, a job hash without a
    running lease). *)
Theorem claim_takes_every_job_it_may :
  (∀ t q n vt db d,
     uniqueIds (Mongodb.jobsCollection db) →
     (length (filter (Mongodb.candidateFilter q t) (Mongodb.jobsCollection db)) ≤ n)%nat →
     d ∈ Mongodb.jobsCollection db → Mongodb.candidateFilter q t d →
     Job.attempts d < Job.maxAttempts d →
     claimed (t + vt) t d ∈ (Mongodb.dequeue t q n vt db).1) ∧
  (∀ t q n vt db d,
     uniqueIds (Drizzle.jobs db) →
     (length (Drizzle.select (Drizzle.available q t) (Drizzle.jobs db)) ≤ n)%nat →
     d ∈ Drizzle.jobs db → Drizzle.available q t d →
     claimed (t + vt) t d ∈ (Drizzle.dequeue t q n vt db).1) ∧
  (∀ t q n vt db x score old,
     (length (pendingDue q t db) ≤ n)%nat →
     zScore q x (Redis.pendingSets db) = Some score → 0 ≤ score ≤ t →
     Redis.getJob x db = Some old →
     Job.attempts old < Job.maxAttempts old → Job.lockedUntil old < t →
     withQueue q (claimed (t + vt) t old) ∈ (Redis.dequeue t q n vt db).1).
Proof.
  split_and!.
  - intros. by apply mongodb_claims_every_candidate.
  - intros. by apply drizzle_claims_every_available.
  - intros. by eapply redis_claims_every_due.
Qed.

Lemma claim_takes_every_job_it_may_witness :
  let db := Mongodb.mkDb [sampleExhausted; sampleDelayed] [] in
  uniqueIds (Mongodb.jobsCollection db) ∧
  claimed 32000 2000 sampleDelayed ∈ (Mongodb.dequeue 2000 "q" 2 30000 db).1.
Proof.
  intros db.
  assert (Hu : uniqueIds (Mongodb.jobsCollection db)).
  { unfold uniqueIds. simpl. apply NoDup_cons. split; [|apply NoDup_singleton].
    intros H. apply list_elem_of_singleton in H. discriminate. }
  split; [exact Hu|].
  destruct claim_takes_every_job_it_may as (Hmongo & _ & _).
  apply (Hmongo 2000 "q"%string 2%nat 30000 db sampleDelayed Hu).
  - vm_compute. lia.
  - apply elem_of_cons. right. apply list_elem_of_here.
  - unfold Mongodb.candidateFilter. simpl. split_and!; (reflexivity || lia).
  - simpl. lia.
Defined.

(** *** The audit log of redis, for job ids that are not log keys *)

Lemma hSet_is_Some key fields h x :
  is_Some (Redis.hSet key fields h !! x) → x = key ∨ is_Some (h !! x).
Proof.
  rewrite hSet_lookup. case_decide as Hk; [left; by symmetry|by right].
Qed.

Lemma plainStore_step op db :
  plainOp op → plainStore db → plainStore (step redisAdapter db op).
Proof.
  intros Hop [Hhash Hpend].
  destruct op as [g v t q p o|t q n vt|t x del|t x o|t l x e dt].
  - unfold step. cbn [Adapter.enqueue redisAdapter]. unfold Redis.enqueue.
    destruct (Job.meta _); [|by split]. split.
    + intros y. cbn [Redis.hashes]. intros Hy.
      apply lookup_insert_is_Some in Hy as [<-|[_ Hy]]; [exact Hop|by apply Hhash].
    + intros k m. cbn [Redis.pendingSets]. rewrite zScore_zAdd.
      case_decide as Hkm; [|apply Hpend]. intros _. destruct Hkm as [_ ->]. exact Hop.
  - change (plainStore (Redis.dequeue t q n vt db).2).
    destruct (Redis.dequeue t q n vt db) as [jobs db'] eqn:E. cbn [snd].
    unfold Redis.dequeue in E.
    destruct (redis_dequeueLoop_moves _ _ _ _ _ _ _ _ _
                (zRangeByScore_NoDup q 0 t (n * 2) (Redis.pendingSets db)) E)
      as (new & _ & Hsub & Hframe & Hmoved & _).
    split.
    + intros y Hy. destruct (decide (y ∈ Job.id <$> new)) as [Hin|Hout].
      * apply (sublist_subseteq _ _ Hsub) in Hin.
        apply zRangeByScore_range in Hin as (score & Hscore & _).
        apply (Hpend q y). unfold zScore. by rewrite Hscore.
      * apply Hhash. by rewrite <- Hframe.
    + intros k m. rewrite Hmoved. case_decide; [by intros [? [=]]|apply Hpend].
  - change (plainStore (Redis.ack t x del db)). unfold Redis.ack, Redis.hGetAll, Redis.del.
    destruct del.
    + rewrite lookup_delete_eq. split; [|exact Hpend].
      intros y. cbn [Redis.hashes]. intros Hy. apply Hhash.
      apply lookup_delete_is_Some in Hy as [_ Hy]. exact Hy.
    + split; [|exact Hpend].
      intros y. cbn [Redis.hashes]. intros [->|Hy]%hSet_is_Some; [exact Hop|by apply Hhash].
  - change (plainStore (Redis.nack t x o db)). unfold Redis.nack, Redis.hGetAll.
    destruct (Redis.hashes db !! x) as [[jobData|?]|]; [|by split..].
    destruct (wantsRequeue o); split.
    + intros y. cbn [Redis.hashes]. intros [->|Hy]%hSet_is_Some; [exact Hop|by apply Hhash].
    + intros k m. cbn [Redis.pendingSets]. rewrite zScore_zAdd.
      case_decide as Hkm; [|apply Hpend]. intros _. destruct Hkm as [_ ->]. exact Hop.
    + intros y. cbn [Redis.hashes]. intros [->|Hy]%hSet_is_Some; [exact Hop|by apply Hhash].
    + exact Hpend.
  - change (plainStore (Redis.logEvent t l x e dt db)).
    unfold Redis.logEvent, Redis.hGetAll.
    by destruct (Redis.hashes db !! x) as [[jobData|?]|].
Qed.

Lemma plainStore_run ops :
  ∀ db, Forall plainOp ops → plainStore db → plainStore (run redisAdapter db ops).
Proof.
  unfold run. induction ops as [|op ops IH]; intros db Hops Hdb; [exact Hdb|].
  apply Forall_cons in Hops as [Hop Hops]. simpl.
  apply IH; [exact Hops|]. by apply plainStore_step.
Qed.

(** X21.  The audit log of redis is append-only as long as no job id has
    the form [logs:<x>] (for such an id the key of the hash of the job is
    the key of a log list, and deleting the job deletes that list).  When
    the store holds no hash and no pending member under such an id and no
    call names one, then whatever calls are made, in any order, the store
    still holds none, and each log list afterwards is what it was with
    entries added at its end, so that every entry [getLogs] returned is
    returned again later, also after the job was deleted. *)
Theorem redis_audit_log_append_only (ops : list Op) (db : Redis.Db) :
  Forall plainOp ops → plainStore db →
  plainStore (run redisAdapter db ops) ∧
  (∀ j, ∃ new,
     Redis.getLogs j (run redisAdapter db ops) = Redis.getLogs j db ++ new) ∧
  (∀ j x, x ∈ Redis.getLogs j db → x ∈ Redis.getLogs j (run redisAdapter db ops)).
Proof.
  intros Hops Hdb.
  assert (Hr : ∀ j, ∃ new,
            Redis.getLogs j (run redisAdapter db ops) = Redis.getLogs j db ++ new).
  { intros j.
    apply (run_grows redisAdapter (Redis.getLogs j) (λ op s, redis_step_logs op s j)). }
  split_and!; [by apply plainStore_run|exact Hr|].
  intros j x Hx. destruct (Hr j) as (new & ->). apply elem_of_app. by left.
Qed.

Lemma redis_audit_log_append_only_witness :
  let ops := [OpEnqueue "job_1" 1000 1000 "q" "{}" onlyMeta;
              OpLogEvent 1001 "log_1" "job_1" "enqueue" (Some "{}"%string);
              OpDequeue 2000 "q" 1 30000;
              OpAck 2500 "job_1" true] in
  Redis.getJob "job_1" (run redisAdapter redisEmpty ops) = None ∧
  Redis.getLogs "job_1" (run redisAdapter redisEmpty ops) =
    [JobLog.mk "log_1" "job_1" "q" "enqueue" (Some "{}"%string) 1001] ∧
  plainStore (run redisAdapter redisEmpty ops).
Proof.
  intros ops.
  assert (Hops : Forall plainOp ops) by (repeat constructor).
  assert (Hdb : plainStore redisEmpty).
  { split.
    - intros y [h Hy]. unfold redisEmpty in Hy. cbn [Redis.hashes] in Hy.
      by rewrite lookup_empty in Hy.
    - intros k m [s Hs]. unfold zScore, redisEmpty in Hs.
      cbn [Redis.pendingSets] in Hs.
      rewrite (lookup_empty (M := gmap string)) in Hs. cbn [default] in Hs.
      by rewrite lookup_empty in Hs. }
  destruct (redis_audit_log_append_only ops redisEmpty Hops Hdb) as (Hplain & _ & _).
  split_and!; [vm_compute; reflexivity|vm_compute; reflexivity|exact Hplain].
Defined.
